(** * CarbonPro-AI: order book, matching pass, price statistics and worker analytics

  A shallow embedding of
  - [OrderBook], [RealTimeTradingEngine] and [PriceEngine]
    (the real-time trading engine source), and
  - [processMarketData], [calculateVolatility] and
    [calculateOrderBookAnalytics] (public/workers/carbon-worker.js),
  followed by the properties of the engine specification stated over them.
  Around these: the invariants of the book under [updateOrder],
  [removeOrder] and [loadOrderBook], the trade history and the hourly market
  data, the subscriptions and the state of the hook [useRealTimeTrading],
  and the pool that runs the worker ([WebWorkerPool], src/lib/webWorkerPool.ts)
  as a machine stepped by its events.

  Numbers.  The numbers of the code are binary64.  Where the code computes
  with them, the embedding computes on binary64 floats, with the operations
  of the code in their order: the sums, the products and the quotients of
  [PriceEngine], the columns of the hourly market data, the quantities and
  the spread of a snapshot ([Levels]), and all of the worker.  The order
  book and the matching pass compare prices and quantities and take their
  minimum; there they are integers [Z], which stand for the numbers of the
  code in their order (prices in minor units).  Timestamps are epoch
  milliseconds. *)

From Stdlib Require Import ZArith.
From Stdlib Require Import PrimFloat FloatOps Uint63 FloatAxioms SpecFloat.
From stdpp Require Import gmap strings list sorting.

Local Open Scope Z_scope.

(** ** [Array.prototype.sort]

  The sort of an array under a comparator that returns a number: [b] is
  moved before [a] only when [cmp a b > 0], and elements that compare equal
  keep their relative order (the sort is stable). *)
Section js_sort.
Context {A : Type} (cmp : A → A → Z).

Fixpoint js_insert (x : A) (l : list A) : list A :=
  match l with
  | [] => [x]
  | y :: l' => if bool_decide (0 < cmp x y) then y :: js_insert x l' else x :: l
  end.

Definition js_sort (l : list A) : list A := foldr js_insert [] l.
End js_sort.


(** ** The order book (class [OrderBook]) *)
Module Book.

(** A row of [trading_orders]. [order_type] stays a string: the book only
    ever asks whether it is ['buy']. [created_at] is the instant
    [new Date(created_at).getTime()] denotes. *)
Record order := Order {
  order_id : string;
  user_id : string;
  credit_id : string;
  order_type : string;
  price : Z;
  quantity : Z;
  filled_quantity : Z;
  remaining_quantity : Z;
  status : string;
  created_at : Z
}.

(** [buyOrders] and [sellOrders] map a price to the array of orders resting
    at that price, [orderIndex] an order id to its order. Every reader of
    the two price maps sorts what it takes out of them, so the insertion
    order of the keys of a JS [Map] plays no role. *)
Record OrderBook := {
  buyOrders : gmap Z (list order);
  sellOrders : gmap Z (list order);
  orderIndex : gmap string order
}.

Definition empty : OrderBook :=
  {| buyOrders := ∅; sellOrders := ∅; orderIndex := ∅ |}.

Definition clear (b : OrderBook) : OrderBook := empty.

Definition is_buy (o : order) : bool := bool_decide (order_type o = "buy"%string).

(** [order.order_type === 'buy' ? this.buyOrders : this.sellOrders] *)
Definition side_of (o : order) (b : OrderBook) : gmap Z (list order) :=
  if is_buy o then buyOrders b else sellOrders b.

Definition set_side (o : order) (m : gmap Z (list order)) (b : OrderBook) : OrderBook :=
  if is_buy o
  then {| buyOrders := m; sellOrders := sellOrders b; orderIndex := orderIndex b |}
  else {| buyOrders := buyOrders b; sellOrders := m; orderIndex := orderIndex b |}.

Definition set_index (ix : gmap string order) (b : OrderBook) : OrderBook :=
  {| buyOrders := buyOrders b; sellOrders := sellOrders b; orderIndex := ix |}.

(** The comparator of [addOrder]: earlier [created_at] first. *)
Definition by_created_at (a b : order) : Z := created_at a - created_at b.

Definition addOrder (o : order) (b : OrderBook) : OrderBook :=
  let b := set_index (<[order_id o := o]> (orderIndex b)) b in
  let orderMap := side_of o b in
  let orders := default [] (orderMap !! price o) ++ [o] in
  set_side o (<[price o := js_sort by_created_at orders]> orderMap) b.

(** [orders.findIndex(o => o.order_id === order.order_id)] followed by
    [orders.splice(index, 1)]. *)
Fixpoint remove_first (id : string) (orders : list order) : option (list order) :=
  match orders with
  | [] => None
  | o :: rest =>
      if bool_decide (order_id o = id) then Some rest
      else cons o <$> remove_first id rest
  end.

Definition removeOrder (o : order) (b : OrderBook) : OrderBook :=
  let b := set_index (delete (order_id o) (orderIndex b)) b in
  let orderMap := side_of o b in
  match orderMap !! price o with
  | Some orders =>
      match remove_first (order_id o) orders with
      | Some [] => set_side o (delete (price o) orderMap) b
      | Some rest => set_side o (<[price o := rest]> orderMap) b
      | None => b
      end
  | None => b
  end.

Definition updateOrder (o : order) (b : OrderBook) : OrderBook :=
  match orderIndex b !! order_id o with
  | Some existingOrder =>
      let b := removeOrder existingOrder b in
      if bool_decide (status o = "pending"%string) then addOrder o b else b
  | None => b
  end.

(** The comparator of [findMatches]: ascending prices for an incoming buy,
    descending prices otherwise. *)
Definition by_priority (newOrder : order) (a b : Z) : Z :=
  if is_buy newOrder then a - b else b - a.

(** [price <= newOrder.price] for a buy, [price >= newOrder.price]
    otherwise. *)
Definition isMatch (newOrder : order) (p : Z) : bool :=
  if is_buy newOrder then bool_decide (p ≤ price newOrder)
  else bool_decide (price newOrder ≤ p).

Definition eligible (o : order) : bool := bool_decide (0 < remaining_quantity o).

(** The loop over [sortedPrices], with its [break]. *)
Fixpoint scan (newOrder : order) (oppositeMap : gmap Z (list order))
    (sortedPrices : list Z) : list order :=
  match sortedPrices with
  | [] => []
  | p :: rest =>
      if isMatch newOrder p
      then filter (λ o, eligible o = true) (default [] (oppositeMap !! p))
             ++ scan newOrder oppositeMap rest
      else []
  end.

Definition oppositeMap (newOrder : order) (b : OrderBook) : gmap Z (list order) :=
  if is_buy newOrder then sellOrders b else buyOrders b.

Definition sortedPrices (newOrder : order) (b : OrderBook) : list Z :=
  js_sort (by_priority newOrder) (map_to_list (oppositeMap newOrder b)).*1.

Definition findMatches (newOrder : order) (b : OrderBook) : list order :=
  scan newOrder (oppositeMap newOrder b) (sortedPrices newOrder b).

(** One level of a snapshot, as far as the book of integers tells it: its
    price and the number of its orders. The quantity of a level and the
    spread are a sum and a difference of binary64 numbers: [Levels] has the
    snapshot with them, over the numbers themselves. *)
Record level := Level {
  lv_price : Z;
  orderCount : nat
}.

Record snapshot := Snapshot {
  buyLevels : list level;
  sellLevels : list level
}.

Definition to_level (entry : Z * list order) : level :=
  {| lv_price := entry.1;
     orderCount := length entry.2 |}.

Definition descending (a b : level) : Z := lv_price b - lv_price a.
Definition ascending (a b : level) : Z := lv_price a - lv_price b.

Definition getSnapshot (b : OrderBook) : snapshot :=
  let buyLevels := js_sort descending (to_level <$> map_to_list (buyOrders b)) in
  let sellLevels := js_sort ascending (to_level <$> map_to_list (sellOrders b)) in
  {| buyLevels := buyLevels;
     sellLevels := sellLevels |}.

(** *** Invariants of the book *)

(** Every order rests in the level of its own price, on its own side. *)
Definition levels_keyed (b : OrderBook) : Prop :=
  (∀ p orders, buyOrders b !! p = Some orders →
     Forall (λ o, price o = p ∧ is_buy o = true) orders) ∧
  (∀ p orders, sellOrders b !! p = Some orders →
     Forall (λ o, price o = p ∧ is_buy o = false) orders).

(** Every level is in arrival order. *)
Definition fifo_level (orders : list order) : Prop :=
  StronglySorted (λ a b, created_at a ≤ created_at b) orders.

Definition fifo (b : OrderBook) : Prop :=
  (∀ p orders, buyOrders b !! p = Some orders → fifo_level orders) ∧
  (∀ p orders, sellOrders b !! p = Some orders → fifo_level orders).

Definition strict_fifo_level (orders : list order) : Prop :=
  StronglySorted (λ a b, created_at a < created_at b) orders.

(** The books the three mutators build from the empty book. *)
Inductive reachable : OrderBook → Prop :=
| reachable_empty : reachable empty
| reachable_add o b : reachable b → reachable (addOrder o b)
| reachable_update o b : reachable b → reachable (updateOrder o b)
| reachable_remove o b : reachable b → reachable (removeOrder o b).

(** The book after a sequence of [addOrder] calls, first call first. *)
Definition addOrders (os : list order) (b : OrderBook) : OrderBook :=
  foldl (λ b o, addOrder o b) b os.

Definition mk (id side : string) (p q t : Z) : order :=
  {| order_id := id; user_id := "u-" +:+ id; credit_id := "credit";
     order_type := side; price := p; quantity := q; filled_quantity := 0;
     remaining_quantity := q; status := "pending"; created_at := t |}.

(** A book with one bid and asks on three levels, and an incoming buy. *)
Definition book1 : OrderBook :=
  addOrders [mk "a" "buy" 25 10 1; mk "b" "sell" 26 10 2; mk "c" "sell" 24 3 3;
             mk "d" "sell" 24 4 2; mk "e" "sell" 23 0 9] empty.

Definition incoming1 : order := mk "x" "buy" 25 5 10.

(** *** The vocabulary of the specification *)

(** [p] comes before [q] in the price priority of [newOrder]: the lower ask
    first for an incoming buy, the higher bid first otherwise. *)
Definition better (newOrder : order) (p q : Z) : Prop :=
  if is_buy newOrder then p < q else q < p.

(** The price [p] of a resting level crosses the limit of [newOrder]. *)
Definition crosses (newOrder : order) (p : Z) : Prop :=
  if is_buy newOrder then p ≤ price newOrder else price newOrder ≤ p.

(** Price-time priority between two resting orders. *)
Definition price_time (newOrder : order) (x y : order) : Prop :=
  better newOrder (price x) (price y) ∨
  (price x = price y ∧ created_at x ≤ created_at y).

(** The eligible orders of the level at price [p], in their stored order. *)
Definition eligible_at (m : gmap Z (list order)) (p : Z) : list order :=
  filter (λ o, 0 < remaining_quantity o) (default [] (m !! p)).

(** [l] is the level that [m] holds at its price. *)
Definition aggregates (m : gmap Z (list order)) (l : level) : Prop :=
  ∃ orders, m !! lv_price l = Some orders ∧ orderCount l = length orders.

(** The orders of [os] that rest on the side and at the price of a level,
    in the order of [os]. *)
Definition arrivals (buy : bool) (p : Z) (os : list order) : list order :=
  filter (λ o, is_buy o = buy ∧ price o = p) os.

End Book.

(** ** The matching pass (class [RealTimeTradingEngine]) *)
Module Matching.
Import Book.

(** The row [executeMatch] inserts into [transactions]. The constant
    [status: 'pending'] and the random [blockchain_tx_hash] are left out. *)
Record transaction := Transaction {
  buyer_id : string;
  seller_id : string;
  tx_credit_id : string;
  tx_quantity : Z;
  price_per_ton : Z
}.

(** The two updates [updateOrderQuantities] sends to [trading_orders]:
    [{ status: 'completed', filled_quantity }] and [{ filled_quantity }]. *)
Inductive order_update :=
| Completed (filled : Z)
| Filled (filled : Z).

(** What a successful [executeMatch] leaves behind: the inserted row, the
    updates of the two orders, and the two orders of the ['trade_matched']
    notification, under the names of the parameters they were passed as. *)
Record execution := Execution {
  ex_transaction : transaction;
  ex_buyOrder : order;
  ex_sellOrder : order;
  ex_updates : list (string * order_update)
}.

(** The rows handed to [handleOrderUpdate]. *)
Inductive payload :=
| INSERT (newOrder : order)
| UPDATE (newOrder : order)
| DELETE (oldOrder : order).

Definition update_for (o : order) (executedQuantity : Z) : string * order_update :=
  let newQuantity := remaining_quantity o - executedQuantity in
  if bool_decide (newQuantity ≤ 0)
  then (order_id o, Completed (quantity o))
  else (order_id o, Filled (filled_quantity o + executedQuantity)).

Definition updateOrderQuantities (buyOrder sellOrder : order) (executedQuantity : Z)
    : list (string * order_update) :=
  [update_for buyOrder executedQuantity; update_for sellOrder executedQuantity].

(** [a || b] on credit ids, the empty string standing for an absent one. *)
Definition or_else (a b : string) : string :=
  if bool_decide (a = ""%string) then b else a.

Section engine.
(** The answer of the database to the insert of a transaction: [true] when
    it reports no error. *)
Variable insert_ok : transaction → bool.

Definition executeMatch (buyOrder sellOrder : order) : option execution :=
  let quantity := Z.min (remaining_quantity buyOrder) (remaining_quantity sellOrder) in
  let price := price buyOrder in
  let tx := {| buyer_id := user_id buyOrder;
               seller_id := user_id sellOrder;
               tx_credit_id := or_else (credit_id buyOrder) (credit_id sellOrder);
               tx_quantity := quantity;
               price_per_ton := price |} in
  if insert_ok tx
  then Some {| ex_transaction := tx;
               ex_buyOrder := buyOrder;
               ex_sellOrder := sellOrder;
               ex_updates := updateOrderQuantities buyOrder sellOrder quantity |}
  else None.

(** [for (const match of matches) await this.executeMatch(newOrder, match)]:
    the matches are found once, when the order arrives, and are executed as
    they were found; a failed execution is logged and the loop goes on. *)
Definition attemptOrderMatching (newOrder : order) (b : OrderBook) : list execution :=
  omap (executeMatch newOrder) (findMatches newOrder b).

(** The book after the event, and the executions it triggered; the
    notifications to the subscribers are left out. *)
Definition handleOrderUpdate (p : payload) (b : OrderBook) : OrderBook * list execution :=
  match p with
  | INSERT newOrder =>
      let b := addOrder newOrder b in
      (b, attemptOrderMatching newOrder b)
  | UPDATE newOrder => (updateOrder newOrder b, [])
  | DELETE oldOrder => (removeOrder oldOrder b, [])
  end.
End engine.

(** A database that accepts every insert. *)
Definition accept_all (tx : transaction) : bool := true.

(** A resting sell at 24, an incoming buy at 25, and their execution. *)
Definition maker1 : order := mk "s1" "sell" 24 10 1.

Definition taker1 : order := mk "b1" "buy" 25 6 2.

Definition execution1 : execution :=
  {| ex_transaction :=
       {| buyer_id := "u-b1"; seller_id := "u-s1"; tx_credit_id := "credit";
          tx_quantity := 6; price_per_ton := 25 |};
     ex_buyOrder := taker1;
     ex_sellOrder := maker1;
     ex_updates := [("b1"%string, Completed 6); ("s1"%string, Filled 6)] |}.

End Matching.

(** ** Market statistics (class [PriceEngine]) *)
Module Stats.

(** A row of [transactions] as [addTrade] reads it. The price and the
    quantity are JavaScript numbers, binary64; [transaction_date] is the
    instant the date denotes. *)
Record transaction := Transaction {
  price_per_ton : float;
  tx_quantity : float;
  transaction_date : Z;
  credit_id : string
}.

Record trade := Trade {
  price : float;
  quantity : float;
  timestamp : Z;
  creditId : string
}.

Record PriceEngine := {
  recentTrades : list trade;
  priceHistory : gmap string (list trade)
}.

Definition empty : PriceEngine := {| recentTrades := []; priceHistory := ∅ |}.

(** [arr.slice(-n)] *)
Definition slice_last {A} (n : nat) (l : list A) : list A := drop (length l - n) l.

Definition addTrade (tx : transaction) (pe : PriceEngine) : PriceEngine :=
  let trade := {| price := price_per_ton tx;
                  quantity := tx_quantity tx;
                  timestamp := transaction_date tx;
                  creditId := credit_id tx |} in
  let recent := recentTrades pe ++ [trade] in
  let recent := if bool_decide (1000 < length recent)%nat then slice_last 1000 recent else recent in
  let history := default [] (priceHistory pe !! creditId trade) ++ [trade] in
  {| recentTrades := recent;
     priceHistory := <[creditId trade := history]> (priceHistory pe) |}.

(** [trade.creditId === creditId && trade.timestamp >= cutoff] *)
Definition relevant (id : string) (cutoff : Z) (t : trade) : bool :=
  bool_decide (creditId t = id) && bool_decide (cutoff ≤ timestamp t).

Definition relevantTrades (now : Z) (id : string) (timeWindow : Z) (pe : PriceEngine) : list trade :=
  filter (λ t, relevant id (now - timeWindow) t = true) (recentTrades pe).

(** [trades.reduce((sum, trade) => sum + (trade.price * trade.quantity), 0)] *)
Definition totalValue (trades : list trade) : float :=
  foldl (λ sum t, (sum + price t * quantity t)%float) 0%float trades.

(** [trades.reduce((sum, trade) => sum + trade.quantity, 0)] *)
Definition totalQuantity (trades : list trade) : float :=
  foldl (λ sum t, (sum + quantity t)%float) 0%float trades.

(** [now] is the instant [new Date()] gives when the method runs; [None] is
    the [null] the method returns. *)
Definition getVWAP (now : Z) (id : string) (timeWindow : Z) (pe : PriceEngine) : option float :=
  let trades := relevantTrades now id timeWindow pe in
  if bool_decide (length trades = 0%nat) then None
  else if (0 <? totalQuantity trades)%float
       then Some (totalValue trades / totalQuantity trades)%float
       else None.

Definition getLastPrice (id : string) (pe : PriceEngine) : option float :=
  match priceHistory pe !! id with
  | Some trades => price <$> last trades
  | None => None
  end.

(** [!x] for a number [x]: it holds of 0, of -0 and of NaN. *)
Definition falsy (x : float) : bool := (x =? 0)%float || is_nan x.

Record price_change := PriceChange {
  absolute : float;
  percentage : float
}.

(** [!currentPrice] holds of [null] and of a falsy number. *)
Definition getPriceChange (now : Z) (id : string) (timeWindow : Z) (pe : PriceEngine)
    : option price_change :=
  match priceHistory pe !! id with
  | None => None
  | Some trades =>
      if bool_decide (length trades < 2)%nat then None
      else
        let cutoff := now - timeWindow in
        let currentPrice := getLastPrice id pe in
        let historicalTrade := list_find (λ t, timestamp t ≤ cutoff) trades in
        match historicalTrade, currentPrice with
        | Some (_, h), Some cp =>
            if falsy cp then None
            else
              let change := (cp - price h)%float in
              Some {| absolute := change;
                      percentage := (change / price h * 100)%float |}
        | _, _ => None
        end
  end.

(** The sum of the specification, Σ: the numbers added from the left in
    binary64, starting from 0. *)
Definition total (xs : list float) : float := foldl PrimFloat.add 0%float xs.







Definition engine5 : PriceEngine :=
  addTrade (Transaction 21 1 70 "c") (addTrade (Transaction 10 1 10 "c") empty).

(** One trade whose price and quantity are both 94906267. *)
Definition engine6 : PriceEngine :=
  addTrade (Transaction 94906267 94906267 90 "c") empty.

End Stats.

(** ** The analytics worker (carbon-worker.js)

    Numbers are binary64 floats. The timings ([performance.now]) and the
    [summary] of [processMarketData] are left out. *)
Module Worker.

(** The integer [n] as a float (exact below 2^53). *)
Definition Z_to_float (n : Z) : float :=
  if bool_decide (n < 0)
  then PrimFloat.opp (PrimFloat.of_uint63 (Uint63.of_Z (- n)))
  else PrimFloat.of_uint63 (Uint63.of_Z n).

(** [arr.length] as a number *)
Definition length_of {A} (l : list A) : float := Z_to_float (Z.of_nat (length l)).

(** [Math.round]: the nearest integer, a tie going up; zeros, infinities,
    NaN and numbers that are integers already are given back. *)
Definition Math_round (x : float) : float :=
  match Prim2SF x with
  | SpecFloat.S754_finite s m e =>
      if bool_decide (0 ≤ e) then x
      else
        let scale := 2 ^ (- e) in
        let twice := if s then - (2 * Z.pos m) else 2 * Z.pos m in
        let n := (twice + scale) `div` (2 * scale) in
        if bool_decide (n = 0) then (if s then (-0)%float else 0%float)
        else Z_to_float n
  | _ => x
  end.

(** [Math.min(a, b)] *)
Definition Math_min (a b : float) : float :=
  if PrimFloat.is_nan a || PrimFloat.is_nan b then PrimFloat.nan
  else if PrimFloat.ltb a b then a
  else if PrimFloat.ltb b a then b
  else if PrimFloat.get_sign a then a else b.

(** [Math.round(x * 100) / 100] *)
Definition round2 (x : float) : float := (Math_round (x * 100) / 100)%float.

(** [xs.reduce((sum, x) => sum + x, 0)] *)
Definition sum (xs : list float) : float := foldl (λ s x, (s + x)%float) 0%float xs.

(** [Math.pow(d, 2)] is taken to be the product [d * d]. *)
Definition squared_deviations (mean : float) (prices : list float) : float :=
  foldl (λ s p, (s + (p - mean) * (p - mean))%float) 0%float prices.

Definition calculateVolatility (prices : list float) : float :=
  if bool_decide (length prices < 2)%nat then 0%float
  else
    let mean := (sum prices / length_of prices)%float in
    let variance := (squared_deviations mean prices / length_of prices)%float in
    PrimFloat.sqrt variance.

(** A point of the raw market data; only its [price] is read. *)
Record market_data := MarketData {
  price : float;
  volume : float
}.

(** [{ ...item, movingAverage, volatility }] *)
Record processed := Processed {
  item : market_data;
  movingAverage : float;
  volatility : float
}.

(** [arr.slice(start, end)] for [0 <= start] *)
Definition slice {A} (start stop : nat) (l : list A) : list A :=
  take (stop - start) (drop start l).

(** [rawData.slice(Math.max(0, index - windowSize + 1), index + 1)] with
    [windowSize = Math.min(5, index + 1)] *)
Definition window_at (rawData : list market_data) (index : nat) : list market_data :=
  let windowSize := Z.min 5 (Z.of_nat index + 1) in
  slice (Z.to_nat (Z.max 0 (Z.of_nat index - windowSize + 1))) (index + 1) rawData.

Definition process_item (rawData : list market_data) (index : nat) (it : market_data)
    : processed :=
  let window := window_at rawData index in
  let movingAverage := (sum (price <$> window) / length_of window)%float in
  let volatility := calculateVolatility (price <$> window) in
  {| item := it;
     movingAverage := round2 movingAverage;
     volatility := round2 volatility |}.

(** The [processedData] of the result; an empty input gives [[]]. *)
Definition processMarketData (rawData : list market_data) : list processed :=
  if bool_decide (length rawData = 0%nat) then []
  else imap (process_item rawData) rawData.

(** One aggregated level of the order book handed to the worker. *)
Record level := Level {
  lv_price : float;
  lv_quantity : float
}.

(** The argument of [calculateOrderBookAnalytics]: a property that is
    [undefined] is [None] and takes the default [[]]. *)
Record order_book := {
  buyLevels : option (list level);
  sellLevels : option (list level)
}.

Record analytics := {
  depth_buy : float;
  depth_sell : float;
  depth_total : float;
  bestBid : float;
  bestAsk : float;
  spread : float;
  midPrice : float;
  imbalance : float;
  liquidity_score : float;
  liquidity_quality : string
}.

(** [levels.reduce((sum, level) => sum + level.quantity, 0)] *)
Definition depth (levels : list level) : float :=
  foldl (λ s l, (s + lv_quantity l)%float) 0%float levels.

(** [levels.length > 0 ? levels[0].price : 0] *)
Definition best (levels : list level) : float :=
  match levels with
  | l :: _ => lv_price l
  | [] => 0%float
  end.

Definition calculateOrderBookAnalytics (orderBook : order_book) : analytics :=
  let buyLevels := default [] (buyLevels orderBook) in
  let sellLevels := default [] (sellLevels orderBook) in
  let buyDepth := depth buyLevels in
  let sellDepth := depth sellLevels in
  let bestBid := best buyLevels in
  let bestAsk := best sellLevels in
  let spread := (bestAsk - bestBid)%float in
  let midPrice := ((bestBid + bestAsk) / 2)%float in
  let imbalance := (buyDepth / (buyDepth + sellDepth) - 0.5)%float in
  {| depth_buy := buyDepth;
     depth_sell := sellDepth;
     depth_total := (buyDepth + sellDepth)%float;
     bestBid := bestBid;
     bestAsk := bestAsk;
     spread := spread;
     midPrice := midPrice;
     imbalance := imbalance;
     liquidity_score := Math_min 100 ((buyDepth + sellDepth) / 10)%float;
     liquidity_quality :=
       if PrimFloat.ltb spread 1 then "high"
       else if PrimFloat.ltb spread 5 then "medium" else "low" |}.

(** The statistics the specification names, on a window of prices. *)
Definition arithmetic_mean (xs : list float) : float := (sum xs / length_of xs)%float.

(** The squared distances of the prices to their mean. *)
Definition squared_distances (xs : list float) : list float :=
  (λ x, ((x - arithmetic_mean xs) * (x - arithmetic_mean xs))%float) <$> xs.

(** The standard deviation with divisor [n]. *)
Definition population_std_dev (xs : list float) : float :=
  PrimFloat.sqrt (sum (squared_distances xs) / length_of xs)%float.

(** The standard deviation with divisor [n - 1]. *)
Definition sample_std_dev (xs : list float) : float :=
  PrimFloat.sqrt (sum (squared_distances xs)
                  / Z_to_float (Z.of_nat (length xs) - 1))%float.

(** The last [n] elements of [l]. *)
Definition trailing {A} (n : nat) (l : list A) : list A := drop (length l - n) l.

(** The second point of the series 1, 3 after processing. *)
Definition processed1 : processed :=
  {| item := MarketData 3 10; movingAverage := 2; volatility := 1 |}.

End Worker.

(** ** The snapshot of the book, over the numbers of the code

    [getSnapshot] adds the remaining quantities of a level and subtracts the
    best prices: what it returns are binary64 numbers. Here the two price
    maps hold the numbers as the code has them; [Book], which only compares
    them, holds integers. *)
Module Levels.

(** A row of [trading_orders] with its numbers. *)
Record order := Order {
  order_id : string;
  order_type : string;
  price : float;
  quantity : float;
  filled_quantity : float;
  remaining_quantity : float;
  status : string;
  created_at : Z
}.

(** [buyOrders] and [sellOrders]: a JS [Map] from a price to the array of
    the orders resting at that price, as the list of its entries in the
    order of insertion. [orderIndex] is not read by [getSnapshot]. *)
Record OrderBook := {
  buyOrders : list (float * list order);
  sellOrders : list (float * list order)
}.

Definition prices (m : list (float * list order)) : list float := m.*1.

Record level := Level {
  lv_price : float;
  lv_quantity : float;
  orderCount : nat
}.

Record snapshot := Snapshot {
  buyLevels : list level;
  sellLevels : list level;
  spread : float
}.

(** [orders.reduce((sum, order) => sum + order.remaining_quantity, 0)] *)
Definition total_remaining (orders : list order) : float :=
  foldl (λ sum o, (sum + remaining_quantity o)%float) 0%float orders.

(** [parseFloat(price.toString())] gives the number back, and 0 for -0. *)
Definition parseFloat_toString (price : float) : float :=
  if (price =? 0)%float then 0%float else price.

Definition to_level (entry : float * list order) : level :=
  {| lv_price := parseFloat_toString entry.1;
     lv_quantity := total_remaining entry.2;
     orderCount := length entry.2 |}.

(** What [Array.prototype.sort] reads off the number its comparator
    returns: the sign, NaN counting as 0. *)
Definition sign (v : float) : Z :=
  if (v <? 0)%float then -1 else if (0 <? v)%float then 1 else 0.

(** [(a, b) => b.price - a.price] and [(a, b) => a.price - b.price] *)
Definition descending (a b : level) : Z := sign (lv_price b - lv_price a).
Definition ascending (a b : level) : Z := sign (lv_price a - lv_price b).

Definition getSnapshot (b : OrderBook) : snapshot :=
  let buyLevels := js_sort descending (to_level <$> buyOrders b) in
  let sellLevels := js_sort ascending (to_level <$> sellOrders b) in
  {| buyLevels := buyLevels;
     sellLevels := sellLevels;
     spread :=
       match sellLevels, buyLevels with
       | ask :: _, bid :: _ => (lv_price ask - lv_price bid)%float
       | _, _ => 0%float
       end |}.

(** *** The vocabulary of the specification *)

(** [l] aggregates an entry of [m]: it has its price, the sum of the
    remaining quantities of its orders and their number. *)
Definition aggregates (m : list (float * list order)) (l : level) : Prop :=
  ∃ orders, (lv_price l, orders) ∈ m ∧
    lv_quantity l = Stats.total (remaining_quantity <$> orders) ∧
    orderCount l = length orders.

(** The highest and the lowest of the prices of a side. *)
Definition best_bid (b : OrderBook) (p : float) : Prop :=
  p ∈ prices (buyOrders b) ∧
  Forall (λ q, (q <=? p)%float = true) (prices (buyOrders b)).

Definition best_ask (b : OrderBook) (p : float) : Prop :=
  p ∈ prices (sellOrders b) ∧
  Forall (λ q, (p <=? q)%float = true) (prices (sellOrders b)).

(** The keys of a [Map] of prices: a [Map] holds a key once and turns the
    key -0 into 0; and no price is NaN. *)
Definition price_keys (ps : list float) : Prop :=
  NoDup ps ∧ Forall (λ p, p ≠ (-0)%float ∧ is_nan p = false) ps.

Definition mk (id side : string) (p q : float) (t : Z) : order :=
  {| order_id := id; order_type := side; price := p; quantity := q;
     filled_quantity := 0; remaining_quantity := q; status := "pending";
     created_at := t |}.

(** Bids at 24.5 and 24, asks at 25.4 and 26. *)
#[warnings="-inexact-float"]
Definition book2 : OrderBook :=
  {| buyOrders := [(24%float, [mk "a" "buy" 24 5 1]);
                   (24.5%float, [mk "b" "buy" 24.5 0.1 2; mk "c" "buy" 24.5 0.2 3])];
     sellOrders := [(26%float, [mk "d" "sell" 26 1 4]);
                    (25.4%float, [mk "e" "sell" 25.4 2 5])] |}.

End Levels.

(** ** The book and its index *)
Module Resting.
Import Book.

(** [o] rests on the book: it is in the level of its price, on its side. *)
Definition rests (o : order) (b : OrderBook) : Prop :=
  ∃ orders, side_of o b !! price o = Some orders ∧ o ∈ orders.

(** No level is stored empty. *)
Definition no_empty_level (b : OrderBook) : Prop :=
  (∀ p, buyOrders b !! p ≠ Some []) ∧ (∀ p, sellOrders b !! p ≠ Some []).

(** Every indexed order is indexed under its own id and rests on the book. *)
Definition index_rests (b : OrderBook) : Prop :=
  ∀ id o, orderIndex b !! id = Some o → order_id o = id ∧ rests o b.

(** The index and the levels hold the same orders, each once. *)
Record well_indexed (b : OrderBook) : Prop := WellIndexed {
  wi_keyed : levels_keyed b;
  wi_index : index_rests b;
  wi_rests : ∀ o, rests o b → orderIndex b !! order_id o = Some o;
  wi_nodup : ∀ p orders,
    buyOrders b !! p = Some orders ∨ sellOrders b !! p = Some orders → NoDup orders
}.

(** The level after [findIndex] and [splice]: unchanged when no order has
    the id. *)
Definition without (id : string) (orders : list order) : list order :=
  default orders (remove_first id orders).

(** The three invariants together. *)
Definition consistent (b : OrderBook) : Prop :=
  well_indexed b ∧ fifo b ∧ no_empty_level b.

(** [loadOrderBook]: the book is cleared and the pending orders the
    database returns are added one by one. *)
Definition loadOrderBook (orders : list order) (b : OrderBook) : OrderBook :=
  addOrders orders (clear b).

(** The order ["c"] of [book1] after its completion. *)
Definition completed1 : order :=
  {| order_id := "c"; user_id := "u-c"; credit_id := "credit";
     order_type := "sell"; price := 24; quantity := 3; filled_quantity := 3;
     remaining_quantity := 0; status := "completed"; created_at := 3 |}.

End Resting.

(** ** Sequences of trades *)
Module Trades.
Import Stats.

(** The trade [addTrade] makes of a row of [transactions]. *)
Definition trade_of (tx : transaction) : trade :=
  {| price := price_per_ton tx;
     quantity := tx_quantity tx;
     timestamp := transaction_date tx;
     creditId := credit_id tx |}.

(** The engine after the trades [txs], first trade first. *)
Definition addTrades (txs : list transaction) (pe : PriceEngine) : PriceEngine :=
  foldl (λ pe tx, addTrade tx pe) pe txs.

(** The trades of one credit among [ts], in the order of [ts]. *)
Definition of_credit (id : string) (ts : list trade) : list trade :=
  filter (λ t, creditId t = id) ts.

End Trades.

(** ** Hourly market data ([updateMarketData]) *)
Module MarketData.
Import Stats.

(** A row of [market_data] of period ['hourly']; its numbers are binary64. *)
Record market_row := MarketRow {
  row_credit_id : string;
  row_timestamp : Z;
  row_price : float;
  row_volume : float;
  high_price : float;
  low_price : float;
  opening_price : float;
  closing_price : float
}.

(** [Math.max(a, b)]: NaN when either is NaN, and -0 is below +0. *)
Definition Math_max (a b : float) : float :=
  if is_nan a || is_nan b then nan
  else if (a <? b)%float then b
  else if (b <? a)%float then a
  else if get_sign a then b else a.

(** What [updateMarketData] sends to the table: an update of five columns
    of the row it found, or a new row. *)
Inductive write :=
| Update (price volume high low closing : float)
| Insert (row : market_row).

(** [hourStart] is the start of the current hour, [existingData] the row
    the table holds for the credit and that hour, if any. *)
Definition updateMarketData (hourStart : Z) (existingData : option market_row)
    (tx : transaction) : write :=
  match existingData with
  | Some existing =>
      let newVolume := (row_volume existing + tx_quantity tx)%float in
      let newHigh := Math_max (high_price existing) (price_per_ton tx) in
      let newLow := Worker.Math_min (low_price existing) (price_per_ton tx) in
      Update (price_per_ton tx) newVolume newHigh newLow (price_per_ton tx)
  | None =>
      Insert {| row_credit_id := credit_id tx;
                row_timestamp := hourStart;
                row_price := price_per_ton tx;
                row_volume := tx_quantity tx;
                high_price := price_per_ton tx;
                low_price := price_per_ton tx;
                opening_price := price_per_ton tx;
                closing_price := price_per_ton tx |}
  end.

(** The row of the hour after the write. *)
Definition row_after (existingData : option market_row) (w : write) : option market_row :=
  match w, existingData with
  | Insert row, _ => Some row
  | Update price volume high low closing, Some existing =>
      Some {| row_credit_id := row_credit_id existing;
              row_timestamp := row_timestamp existing;
              row_price := price;
              row_volume := volume;
              high_price := high;
              low_price := low;
              opening_price := opening_price existing;
              closing_price := closing |}
  | Update _ _ _ _ _, None => None
  end.

(** The row of one hour after the trades [txs] of that hour, each call
    finding the row the call before it left. *)
Definition hour_of (hourStart : Z) (txs : list transaction) : option market_row :=
  foldl (λ row tx, row_after row (updateMarketData hourStart row tx)) None txs.

(** [h] is the highest of the numbers [ps], [l] the lowest. *)
Definition highest (h : float) (ps : list float) : Prop :=
  h ∈ ps ∧ Forall (λ p, (p <=? h)%float = true) ps.

Definition lowest (l : float) (ps : list float) : Prop :=
  l ∈ ps ∧ Forall (λ p, (l <=? p)%float = true) ps.

(** Three trades of one hour. *)
#[warnings="-inexact-float"]
Definition hour1 : list transaction :=
  [Transaction 25.5 0.1 10 "c"; Transaction 24 0.2 20 "c"; Transaction 26 0.3 30 "c"].

End MarketData.

(** ** Subscriptions ([subscribe], [notifySubscribers], [disconnect]) *)
Module Subscribers.

(** [set.add(callback)]. A callback is known by its identity, here a number;
    the callbacks of an event type are a JS [Set]: no callback twice,
    iterated in the order of insertion. *)
Definition set_add (callback : nat) (set : list nat) : list nat :=
  if decide (callback ∈ set) then set else set ++ [callback].

(** [set.delete(callback)] *)
Definition set_delete (callback : nat) (set : list nat) : list nat :=
  filter (λ c, c ≠ callback) set.

Definition subscribe (eventType : string) (callback : nat)
    (subscribers : gmap string (list nat)) : gmap string (list nat) :=
  <[eventType := set_add callback (default [] (subscribers !! eventType))]> subscribers.

(** The function [subscribe] returns. *)
Definition unsubscribe (eventType : string) (callback : nat)
    (subscribers : gmap string (list nat)) : gmap string (list nat) :=
  match subscribers !! eventType with
  | Some set => <[eventType := set_delete callback set]> subscribers
  | None => subscribers
  end.

(** The callbacks [notifySubscribers] calls, in the order of the calls; an
    exception a callback throws is caught and the next one is called. The
    callbacks themselves are taken not to subscribe or unsubscribe. *)
Definition notifySubscribers (eventType : string)
    (subscribers : gmap string (list nat)) : list nat :=
  default [] (subscribers !! eventType).

Definition disconnect (subscribers : gmap string (list nat)) : gmap string (list nat) := ∅.

(** Every set of callbacks is a set. *)
Definition sets (subscribers : gmap string (list nat)) : Prop :=
  ∀ eventType set, subscribers !! eventType = Some set → NoDup set.

End Subscribers.

(** ** The state of the hook [useRealTimeTrading] *)
Module Hook.
Import Stats MarketData.

(** [setRecentTrades(prev => [trade, ...prev.slice(0, 99)])] *)
Definition on_trade_executed (prev : list transaction) (trade : transaction)
    : list transaction :=
  trade :: take 99 prev.

(** [setMarketData(prev => ({ ...prev, [data.credit_id]: data }))] *)
Definition on_market_data_updated (prev : gmap string market_row) (data : market_row)
    : gmap string market_row :=
  <[row_credit_id data := data]> prev.

(** The states after the notifications [trades] and [rows], first one
    first. *)
Definition recentTrades (trades : list transaction) : list transaction :=
  foldl on_trade_executed [] trades.

Definition marketData (rows : list market_row) : gmap string market_row :=
  foldl on_market_data_updated ∅ rows.

End Hook.

(** ** The worker pool ([WebWorkerPool]) *)
Module Pool.

(** A task; [task_id] is its field [id]. Its [resolve] and [reject] are
    those of the promise [executeTask] returns for it: calling them is the
    effect [resolve] or [reject] on the task. The payload [data] is passed
    on as it is. *)
Record task := {
  task_id : string;
  type : string;
  data : string;
  timestamp : Z;
}.

(** What a worker posts back: [{ taskId, result }] or [{ taskId, error }]. *)
Record message := {
  taskId : string;
  result : option string;
  error : option string;
}.

(** A worker is known by its identity, a number. *)
Inductive effect :=
| postMessage (w : nat) (taskId type data : string)
| resolve (t : task) (result : option string)
| reject (t : task) (message : string)
| terminate_worker (w : nat).

(** [activeTasks] is a JS [Map]: one entry per key, in the order of
    insertion. *)
Fixpoint map_get (k : string) (m : list (string * task)) : option task :=
  match m with
  | [] => None
  | e :: m' => if decide (e.1 = k) then Some e.2 else map_get k m'
  end.

Definition map_has (k : string) (m : list (string * task)) : bool :=
  bool_decide (is_Some (map_get k m)).

Definition map_set (k : string) (t : task) (m : list (string * task)) : list (string * task) :=
  if map_has k m then (λ e, if decide (e.1 = k) then (k, t) else e) <$> m
  else m ++ [(k, t)].

Definition map_delete (k : string) (m : list (string * task)) : list (string * task) :=
  filter (λ e, e.1 ≠ k) m.

Record pool := {
  workers : list nat;
  availableWorkers : list nat;
  taskQueue : list task;
  activeTasks : list (string * task);
}.

(** [created] are the workers [new Worker] gave; a worker whose creation
    threw is left out. *)
Definition initializeWorkers (created : list nat) : pool :=
  {| workers := created; availableWorkers := created;
     taskQueue := []; activeTasks := [] |}.

Definition dispatch (w : nat) (t : task) : effect :=
  postMessage w (task_id t) (type t) (data t).

(** The loop of [processQueue], on the queue. *)
Fixpoint processQueue_loop (queue : list task) (available : list nat)
    (active : list (string * task)) : list task * list nat * list (string * task) * list effect :=
  match queue, available with
  | t :: queue', w :: available' =>
      let '(q, a, m, effects) :=
        processQueue_loop queue' available' (map_set (task_id t) t active) in
      (q, a, m, dispatch w t :: effects)
  | _, _ => (queue, available, active, [])
  end.

Definition processQueue (p : pool) : pool * list effect :=
  let '(q, a, m, effects) :=
    processQueue_loop (taskQueue p) (availableWorkers p) (activeTasks p) in
  ({| workers := workers p; availableWorkers := a; taskQueue := q; activeTasks := m |},
   effects).

(** [executeTask], up to the timer it sets; [t] is the task it builds, with
    the id [generateTaskId] gave it. *)
Definition executeTask (t : task) (p : pool) : pool * list effect :=
  processQueue {| workers := workers p; availableWorkers := availableWorkers p;
                  taskQueue := taskQueue p ++ [t]; activeTasks := activeTasks p |}.

(** The timer of [executeTask] for the task [t] goes off. *)
Definition timeout (t : task) (p : pool) : pool * list effect :=
  if map_has (task_id t) (activeTasks p) then
    ({| workers := workers p; availableWorkers := availableWorkers p;
        taskQueue := taskQueue p; activeTasks := map_delete (task_id t) (activeTasks p) |},
     [reject t ("Task " +:+ task_id t +:+ " timed out")])
  else (p, []).

(** [if (error)]: an absent [error] and the empty string are falsy. *)
Definition truthy (error : option string) : option string :=
  match error with
  | Some e => if decide (e = "") then None else Some e
  | None => None
  end.

Definition handleWorkerMessage (w : nat) (m : message) (p : pool) : pool * list effect :=
  match map_get (taskId m) (activeTasks p) with
  | None => (p, [])
  | Some t =>
      let settle :=
        match truthy (error m) with
        | Some e => reject t e
        | None => resolve t (result m)
        end in
      let '(p', effects) :=
        processQueue {| workers := workers p;
                        availableWorkers := availableWorkers p ++ [w];
                        taskQueue := taskQueue p;
                        activeTasks := map_delete (taskId m) (activeTasks p) |} in
      (p', settle :: effects)
  end.

(** [splice(indexOf(w), 1)] *)
Fixpoint remove_worker (w : nat) (available : list nat) : list nat :=
  match available with
  | [] => []
  | x :: available' => if decide (x = w) then available' else x :: remove_worker w available'
  end.

(** [newWorker] is the replacement [new Worker] gave, if it did not throw. *)
Definition handleWorkerError (w : nat) (message : string) (newWorker : option nat)
    (p : pool) : pool * list effect :=
  ({| workers := workers p;
      availableWorkers := remove_worker w (availableWorkers p) ++ option_list newWorker;
      taskQueue := taskQueue p;
      activeTasks := [] |},
   (λ e, reject e.2 ("Worker error: " +:+ message)) <$> activeTasks p).

Record stats := {
  totalWorkers : nat;
  availableWorkers_count : nat;
  activeTasks_count : nat;
  queuedTasks : nat;
}.

Definition getStats (p : pool) : stats :=
  {| totalWorkers := length (workers p);
     availableWorkers_count := length (availableWorkers p);
     activeTasks_count := length (activeTasks p);
     queuedTasks := length (taskQueue p) |}.

Definition terminate (p : pool) : pool * list effect :=
  ({| workers := []; availableWorkers := []; taskQueue := []; activeTasks := [] |},
   terminate_worker <$> workers p).

(** What happens to a pool. *)
Inductive event :=
| ExecuteTask (t : task)
| Timeout (t : task)
| WorkerMessage (w : nat) (m : message)
| WorkerError (w : nat) (message : string) (newWorker : option nat)
| Terminate.

Definition step (e : event) (p : pool) : pool * list effect :=
  match e with
  | ExecuteTask t => executeTask t p
  | Timeout t => timeout t p
  | WorkerMessage w m => handleWorkerMessage w m p
  | WorkerError w message newWorker => handleWorkerError w message newWorker p
  | Terminate => terminate p
  end.

Fixpoint run (events : list event) (p : pool) : pool * list effect :=
  match events with
  | [] => (p, [])
  | e :: events' =>
      let '(p1, effects1) := step e p in
      let '(p2, effects2) := run events' p1 in
      (p2, effects1 ++ effects2)
  end.

Definition submitted (events : list event) : list task :=
  omap (λ e, match e with ExecuteTask t => Some t | _ => None end) events.

Definition timers (events : list event) : list task :=
  omap (λ e, match e with Timeout t => Some t | _ => None end) events.

(** The tasks whose promise was resolved or rejected, call by call. *)
Definition settled (effects : list effect) : list task :=
  omap (λ e, match e with resolve t _ | reject t _ => Some t | _ => None end) effects.

Definition posted (effects : list effect) : list string :=
  omap (λ e, match e with postMessage _ k _ _ => Some k | _ => None end) effects.

Definition is_worker_error (e : event) : bool :=
  match e with WorkerError _ _ _ => true | _ => false end.

Definition is_terminate (e : event) : bool :=
  match e with Terminate => true | _ => false end.

(** The keys and the values of the map, in its order. *)
Definition keys (m : list (string * task)) : list string := m.*1.
Definition values (m : list (string * task)) : list task := m.*2.

(** Every entry is stored under the id of its task. *)
Definition keyed (m : list (string * task)) : Prop :=
  Forall (λ e, e.1 = task_id e.2) m.

(** The tasks a pool holds. *)
Definition tasks_of (p : pool) : list task := taskQueue p ++ values (activeTasks p).

(** The map after [set(task.id, task)] for the tasks of [queue], first task
    first. *)
Definition set_all (queue : list task) (active : list (string * task)) :=
  foldl (λ m t, map_set (task_id t) t m) active queue.

Definition task1 : task :=
  {| task_id := "task_1"; type := "orderbook_analytics"; data := "{}"; timestamp := 1 |}.
Definition task2 : task :=
  {| task_id := "task_2"; type := "market_data_processing"; data := "[]"; timestamp := 2 |}.
Definition task3 : task :=
  {| task_id := "task_3"; type := "carbon_prediction"; data := "{}"; timestamp := 3 |}.

(** One worker and two tasks: the first one is answered. *)
Definition events1 : list event :=
  [ExecuteTask task1; ExecuteTask task2;
   WorkerMessage 0 {| taskId := "task_1"; result := Some "{}"; error := None |}].

(** One worker: the first task times out before the answer comes, then the
    worker fails and is replaced. *)
Definition events2 : list event :=
  [ExecuteTask task1; ExecuteTask task2; Timeout task1;
   WorkerMessage 0 {| taskId := "task_1"; result := Some "{}"; error := None |};
   WorkerError 0 "crash" (Some 1%nat); ExecuteTask task3].

End Pool.

(** * Properties *)

(** ** The sort *)
Section js_sort_facts.
Context {A : Type} (cmp : A → A → Z).

Lemma js_insert_perm x l : js_insert cmp x l ≡ₚ x :: l.
Proof.
  induction l as [|y l IH]; simpl; [done|].
  case_bool_decide; [|done].
  rewrite IH. apply Permutation_swap.
Qed.

Lemma js_sort_perm l : js_sort cmp l ≡ₚ l.
Proof.
  induction l as [|x l IH]; simpl; [done|].
  by rewrite js_insert_perm, IH.
Qed.

Lemma elem_of_js_sort x l : x ∈ js_sort cmp l ↔ x ∈ l.
Proof. by rewrite js_sort_perm. Qed.

Lemma length_js_sort l : length (js_sort cmp l) = length l.
Proof. by rewrite js_sort_perm. Qed.

(** Comparators of the form [key a - key b]. *)
Context (key : A → Z) (Hcmp : ∀ a b, cmp a b = key a - key b).

Lemma js_insert_sorted x l :
  StronglySorted (λ a b, key a ≤ key b) l →
  StronglySorted (λ a b, key a ≤ key b) (js_insert cmp x l).
Proof.
  induction 1 as [|y l Hl IH Hy]; simpl.
  - repeat constructor.
  - case_bool_decide as Hc; rewrite Hcmp in Hc.
    + constructor; [done|].
      rewrite js_insert_perm. constructor; [lia | done].
    + constructor; [by constructor|].
      constructor; [lia|].
      eapply Forall_impl; [exact Hy|]. simpl. intros; lia.
Qed.

Lemma js_sort_sorted l : StronglySorted (λ a b, key a ≤ key b) (js_sort cmp l).
Proof.
  induction l as [|x l IH]; simpl; [constructor|].
  by apply js_insert_sorted.
Qed.

(** A sorted array is left as it is: equal keys are never swapped. *)
Lemma js_sort_id l :
  StronglySorted (λ a b, key a ≤ key b) l → js_sort cmp l = l.
Proof.
  induction 1 as [|x l Hl IH Hx]; simpl; [done|].
  rewrite IH. destruct Hx as [|y l Hxy _]; simpl; [done|].
  rewrite bool_decide_eq_false_2; [done|].
  rewrite Hcmp. lia.
Qed.

(** With pairwise different keys the result is strictly increasing. *)
Lemma js_sort_strict l :
  NoDup (key <$> l) → StronglySorted (λ a b, key a < key b) (js_sort cmp l).
Proof.
  intros Hnd.
  assert (Hnd' : NoDup (key <$> js_sort cmp l)) by by rewrite js_sort_perm.
  pose proof (js_sort_sorted l) as Hs.
  induction Hs as [|x l' Hl IH Hx]; [constructor|].
  rewrite fmap_cons in Hnd'. apply NoDup_cons in Hnd' as [Hx' Hnd'].
  constructor; [by apply IH|].
  apply Forall_forall. intros y Hy.
  rewrite Forall_forall in Hx. specialize (Hx y Hy). simpl in Hx.
  assert (key x ≠ key y); [|lia].
  intros Heq. apply Hx'. rewrite Heq. by apply list_elem_of_fmap_2.
Qed.
End js_sort_facts.

Lemma StronglySorted_mono {A} (R1 R2 : A → A → Prop) l :
  (∀ x y, x ∈ l → y ∈ l → R1 x y → R2 x y) →
  StronglySorted R1 l → StronglySorted R2 l.
Proof.
  intros HR Hl. induction Hl as [|x l Hl IH Hx]; constructor.
  - apply IH. intros y z Hy Hz. apply HR; by right.
  - apply Forall_forall. rewrite Forall_forall in Hx.
    intros y Hy. apply HR; [by left|by right|auto].
Qed.

Lemma StronglySorted_filter {A} (R : A → A → Prop) (P : A → Prop)
    `{∀ x, Decision (P x)} l :
  StronglySorted R l → StronglySorted R (filter P l).
Proof.
  induction 1 as [|x l Hl IH Hx]; [constructor|].
  rewrite filter_cons. case_decide; [|done].
  constructor; [done|].
  apply Forall_forall. intros y [_ Hy]%list_elem_of_filter.
  rewrite Forall_forall in Hx. auto.
Qed.

(** The head of a strictly sorted list is related to every other element. *)
Lemma StronglySorted_head {A} (R : A → A → Prop) x l y :
  StronglySorted R (x :: l) → y ∈ x :: l → y = x ∨ R x y.
Proof.
  intros [Hx _]%StronglySorted_cons [->|Hy]%elem_of_cons; [by left|right].
  rewrite Forall_forall in Hx. auto.
Qed.


(** ** The order of binary64 numbers *)
Module FloatOrder.

Lemma compare_cont_Eq m1 m2 : Pos.compare_cont Eq m1 m2 = Pos.compare m1 m2.
Proof. done. Qed.

Ltac cmp_cases :=
  repeat (match goal with
  | |- context [PosDef.Pos.compare_cont Eq ?a ?b] =>
      change (PosDef.Pos.compare_cont Eq a b) with (Pos.compare a b) in *
  | H : context [PosDef.Pos.compare_cont Eq ?a ?b] |- _ =>
      change (PosDef.Pos.compare_cont Eq a b) with (Pos.compare a b) in *
  | |- context [Z.compare ?a ?b] => destruct (Z.compare_spec a b)
  | H : context [Z.compare ?a ?b] |- _ => destruct (Z.compare_spec a b)
  | |- context [Pos.compare ?a ?b] => destruct (Pos.compare_spec a b)
  | H : context [Pos.compare ?a ?b] |- _ => destruct (Pos.compare_spec a b)
  end; simpl in *; simplify_eq/=; try done; try lia).

Lemma SFcompare_Lt_trans x y z :
  SFcompare x y = Some Lt → SFcompare y z = Some Lt → SFcompare x z = Some Lt.
Proof.
  destruct x as [[]|[]| |[] m1 e1], y as [[]|[]| |[] m2 e2], z as [[]|[]| |[] m3 e3];
    simpl; try done; rewrite ?compare_cont_Eq; intros; cmp_cases.
Qed.

Lemma SFcompare_Eq_Lt_trans x y z :
  SFcompare x y = Some Eq → SFcompare y z = Some Lt → SFcompare x z = Some Lt.
Proof.
  destruct x as [[]|[]| |[] m1 e1], y as [[]|[]| |[] m2 e2], z as [[]|[]| |[] m3 e3];
    simpl; try done; rewrite ?compare_cont_Eq; intros; cmp_cases.
Qed.

Lemma SFcompare_Lt_Eq_trans x y z :
  SFcompare x y = Some Lt → SFcompare y z = Some Eq → SFcompare x z = Some Lt.
Proof.
  destruct x as [[]|[]| |[] m1 e1], y as [[]|[]| |[] m2 e2], z as [[]|[]| |[] m3 e3];
    simpl; try done; rewrite ?compare_cont_Eq; intros; cmp_cases.
Qed.

Lemma SFcompare_Eq_trans x y z :
  SFcompare x y = Some Eq → SFcompare y z = Some Eq → SFcompare x z = Some Eq.
Proof.
  destruct x as [[]|[]| |[] m1 e1], y as [[]|[]| |[] m2 e2], z as [[]|[]| |[] m3 e3];
    simpl; try done; rewrite ?compare_cont_Eq; intros; cmp_cases.
Qed.

Lemma SFcompare_Gt_Lt x y : SFcompare x y = Some Gt ↔ SFcompare y x = Some Lt.
Proof.
  destruct x as [[]|[]| |[] m1 e1], y as [[]|[]| |[] m2 e2];
    simpl; try done; split; intros; cmp_cases.
Qed.

Lemma SFcompare_refl x : x ≠ S754_nan → SFcompare x x = Some Eq.
Proof.
  destruct x as [[]|[]| |[] m1 e1]; simpl; try done; intros; cmp_cases.
Qed.

Lemma SFcompare_None x y : SFcompare x y = None ↔ x = S754_nan ∨ y = S754_nan.
Proof.
  destruct x as [[]|[]| |[] m1 e1], y as [[]|[]| |[] m2 e2]; simpl;
    split; try done; auto; by intros [?|?].
Qed.

Lemma ltb_Lt x y : (x <? y)%float = true ↔ SFcompare (Prim2SF x) (Prim2SF y) = Some Lt.
Proof.
  rewrite FloatAxioms.ltb_spec. unfold SFltb.
  destruct (SFcompare _ _) as [[]|]; split; done.
Qed.

Lemma eqb_Eq x y : (x =? y)%float = true ↔ SFcompare (Prim2SF x) (Prim2SF y) = Some Eq.
Proof.
  rewrite FloatAxioms.eqb_spec. unfold SFeqb.
  destruct (SFcompare _ _) as [[]|]; split; done.
Qed.

Lemma leb_Lt_Eq x y :
  (x <=? y)%float = true ↔
  SFcompare (Prim2SF x) (Prim2SF y) = Some Lt ∨ SFcompare (Prim2SF x) (Prim2SF y) = Some Eq.
Proof.
  rewrite FloatAxioms.leb_spec. unfold SFleb.
  destruct (SFcompare _ _) as [[]|]; split; try done; auto; by intros [?|?].
Qed.

Lemma is_nan_false x : is_nan x = false ↔ Prim2SF x ≠ S754_nan.
Proof.
  unfold is_nan. rewrite negb_false_iff, eqb_Eq. split.
  - intros H Hn. by rewrite Hn in H.
  - apply SFcompare_refl.
Qed.

Lemma ltb_trans x y z :
  (x <? y)%float = true → (y <? z)%float = true → (x <? z)%float = true.
Proof. rewrite !ltb_Lt. apply SFcompare_Lt_trans. Qed.

Lemma ltb_leb x y : (x <? y)%float = true → (x <=? y)%float = true.
Proof. rewrite ltb_Lt, leb_Lt_Eq. auto. Qed.

Lemma leb_refl x : is_nan x = false → (x <=? x)%float = true.
Proof. rewrite is_nan_false, leb_Lt_Eq. intros H. right. by apply SFcompare_refl. Qed.

Lemma leb_trans x y z :
  (x <=? y)%float = true → (y <=? z)%float = true → (x <=? z)%float = true.
Proof.
  rewrite !leb_Lt_Eq. intros [H1|H1] [H2|H2].
  - left. by eapply SFcompare_Lt_trans.
  - left. by eapply SFcompare_Lt_Eq_trans.
  - left. by eapply SFcompare_Eq_Lt_trans.
  - right. by eapply SFcompare_Eq_trans.
Qed.

(** Two numbers, neither of them NaN, compare one way or the other. *)
Lemma leb_total x y :
  is_nan x = false → is_nan y = false →
  (x <? y)%float = false → (y <=? x)%float = true.
Proof.
  rewrite !is_nan_false, leb_Lt_Eq. intros Hx Hy Hlt.
  destruct (SFcompare (Prim2SF x) (Prim2SF y)) as [[]|] eqn:Hc.
  - right. destruct (SFcompare (Prim2SF y) (Prim2SF x)) as [[]|] eqn:Hc'; [done|..].
    + pose proof (SFcompare_Lt_Eq_trans _ _ _ Hc' Hc) as H.
      rewrite SFcompare_refl in H; done.
    + apply SFcompare_Gt_Lt in Hc'. congruence.
    + apply SFcompare_None in Hc' as [?|?]; done.
  - apply ltb_Lt in Hc. congruence.
  - left. by apply SFcompare_Gt_Lt.
  - apply SFcompare_None in Hc as [?|?]; done.
Qed.


Lemma ltb_irrefl x : (x <? x)%float = false.
Proof.
  apply not_true_iff_false. rewrite ltb_Lt. intros H.
  destruct (Prim2SF x) as [[]|[]| |[] m e]; simpl in H; try done; cmp_cases.
Qed.

Lemma ltb_asym x y : (x <? y)%float = true → (y <? x)%float = false.
Proof.
  intros H. apply not_true_iff_false. intros H'.
  pose proof (ltb_trans _ _ _ H H') as Hxx. by rewrite ltb_irrefl in Hxx.
Qed.

End FloatOrder.

(** ** The sign of a binary64 difference *)
Module FloatSub.

Lemma fexp_val e : SpecFloat.fexp prec emax e = Z.max (e - 53) (-1074).
Proof. reflexivity. Qed.

Lemma digits2_size m : digits2_pos m = Pos.size m.
Proof. induction m; simpl; congruence. Qed.

(** [m] has [digits2_pos m] binary digits. *)
Lemma digits2_bounds m :
  Z.pow 2 (Zpos (digits2_pos m) - 1) ≤ Zpos m ∧ Zpos m < Z.pow 2 (Zpos (digits2_pos m)).
Proof.
  rewrite digits2_size. split.
  - assert (H : Z.pow 2 (Zpos (Pos.size m)) ≤ 2 * Zpos m).
    { rewrite <- Pos2Z.inj_pow. change (2 * Zpos m) with (Zpos m~0).
      apply Pos2Z.pos_le_pos, Pos.size_le. }
    replace (Zpos (Pos.size m)) with (Z.succ (Zpos (Pos.size m) - 1)) in H by lia.
    rewrite Z.pow_succ_r in H by lia. lia.
  - rewrite <- Pos2Z.inj_pow. apply Pos2Z.pos_lt_pos, Pos.size_gt.
Qed.

(** [shr_1] halves the mantissa. *)
Lemma shr_1_m r : 0 ≤ shr_m r → shr_m (shr_1 r) = Z.div2 (shr_m r).
Proof. destruct r as [[|[p|p|]|p] ? ?]; simpl; try done; lia. Qed.

Lemma iter_shr_1_m n r :
  0 ≤ shr_m r → shr_m (SpecFloat.iter_pos shr_1 n r) = Z.shiftr (shr_m r) (Zpos n).
Proof.
  revert r. induction n as [n IH|n IH|]; intros r Hr; simpl SpecFloat.iter_pos.
  - assert (0 ≤ shr_m (shr_1 r)) by (rewrite shr_1_m by done; apply Z.div2_nonneg; lia).
    assert (0 ≤ shr_m (SpecFloat.iter_pos shr_1 n (shr_1 r))).
    { rewrite IH by done. apply Z.shiftr_nonneg. done. }
    rewrite !IH, shr_1_m by done.
    rewrite Z.div2_spec, !Z.shiftr_shiftr by lia. f_equal. lia.
  - assert (0 ≤ shr_m (SpecFloat.iter_pos shr_1 n r)).
    { rewrite IH by done. apply Z.shiftr_nonneg. done. }
    rewrite !IH by done. rewrite Z.shiftr_shiftr by lia. f_equal. lia.
  - rewrite shr_1_m by done. by rewrite Z.div2_spec.
Qed.

Lemma shr_record_of_loc_m m l : shr_m (shr_record_of_loc m l) = m.
Proof. by destruct l as [|[]]. Qed.

(** Shifting a positive mantissa to its format leaves a positive mantissa. *)
Lemma shr_fexp_pos m e l :
  -1074 ≤ e →
  0 < shr_m (shr_fexp prec emax (Zpos m) e l).1 ∧
  -1074 ≤ (shr_fexp prec emax (Zpos m) e l).2.
Proof.
  intros He. unfold shr_fexp, shr. rewrite fexp_val. simpl Zdigits2.
  destruct (digits2_bounds m) as [Hlo Hhi].
  set (d := Zpos (digits2_pos m)) in *.
  destruct (Z.max (d + e - 53) (-1074) - e) as [|n|n] eqn:Hn; simpl;
    rewrite ?shr_record_of_loc_m; try (split; lia).
  rewrite iter_shr_1_m by (rewrite shr_record_of_loc_m; lia).
  rewrite shr_record_of_loc_m. split; [|lia].
  assert (Zpos n = d - 53) as -> by lia.
  rewrite Z.shiftr_div_pow2 by lia.
  apply Z.div_str_pos. split; [apply Z.pow_pos_nonneg; lia|].
  etrans; [|exact Hlo]. apply Z.pow_le_mono_r; lia.
Qed.

(** [r] is above 0. *)
Definition positive_SF (r : spec_float) : bool := SFltb (S754_zero false) r.

Lemma round_nearest_even_pos m l : 0 < m → 0 < round_nearest_even m l.
Proof.
  intros Hm. destruct l as [|[]]; simpl; try done; [|lia].
  destruct (Z.even m); lia.
Qed.

Lemma binary_round_aux_pos m e l :
  -1074 ≤ e → positive_SF (binary_round_aux prec emax false (Zpos m) e l) = true.
Proof.
  intros He. unfold binary_round_aux.
  pose proof (shr_fexp_pos m e l He) as [H1 H2].
  destruct (shr_fexp prec emax (Zpos m) e l) as [mrs' e']. simpl in H1, H2.
  pose proof (round_nearest_even_pos (shr_m mrs') (loc_of_shr_record mrs') H1) as Hr.
  destruct (round_nearest_even (shr_m mrs') (loc_of_shr_record mrs')) as [|m2|m2];
    try done.
  pose proof (shr_fexp_pos m2 e' loc_Exact H2) as [H3 H4].
  destruct (shr_fexp prec emax (Zpos m2) e' loc_Exact) as [mrs'' e'']. simpl in H3.
  destruct (shr_m mrs'') as [|m3|m3]; try done.
  by destruct (e'' <=? emax - prec).
Qed.

Lemma binary_round_aux_neg m e l :
  positive_SF (binary_round_aux prec emax true m e l) = false.
Proof.
  unfold binary_round_aux.
  destruct (shr_fexp prec emax m e l) as [mrs' e'].
  destruct (shr_fexp prec emax _ e' loc_Exact) as [mrs'' e''].
  destruct (shr_m mrs'') as [|m3|m3]; try done.
  by destruct (e'' <=? emax - prec).
Qed.

Lemma shl_align_e m e e' : -1074 ≤ e → -1074 ≤ e' → -1074 ≤ (shl_align m e e').2.
Proof. intros. unfold shl_align. by destruct (e' - e). Qed.

(** The number [binary_normalize] makes of the integer [D] is above 0
    exactly when [D] is. *)
Lemma binary_normalize_pos D e :
  -1074 ≤ e → positive_SF (binary_normalize prec emax D e false) = bool_decide (0 < D).
Proof.
  intros He. destruct D as [|m|m]; simpl; [done|..]; unfold binary_round.
  - pose proof (shl_align_e m e (SpecFloat.fexp prec emax (Zpos (digits2_pos m) + e)) He) as H.
    destruct (shl_align m e _) as [mz ez]. simpl in H.
    rewrite binary_round_aux_pos; [done|]. apply H. rewrite fexp_val. lia.
  - destruct (shl_align m e _) as [mz ez]. by rewrite binary_round_aux_neg.
Qed.

Lemma iter_xO m d : Zpos (Pos.iter xO m d) = Zpos m * Z.pow 2 (Zpos d).
Proof.
  induction d as [|d IH] using Pos.peano_ind.
  - simpl. lia.
  - rewrite Pos.iter_succ, Pos2Z.inj_xO, IH, Pos2Z.inj_succ, Z.pow_succ_r by lia. lia.
Qed.

Lemma shl_align_m m e e' :
  e' ≤ e → Zpos (shl_align m e e').1 = Zpos m * Z.pow 2 (e - e').
Proof.
  intros He. unfold shl_align. destruct (e' - e) as [|d|d] eqn:Hd; simpl.
  - replace (e - e') with 0 by lia. simpl. lia.
  - lia.
  - rewrite iter_xO. f_equal. f_equal. lia.
Qed.

(** A canonical mantissa has at most 53 digits, and exactly 53 above the
    lowest exponent. *)
Lemma bounded_canonical m e :
  bounded prec emax m e = true →
  -1074 ≤ e ∧ Zpos (digits2_pos m) ≤ 53 ∧ (-1074 < e → Zpos (digits2_pos m) = 53).
Proof.
  unfold bounded, canonical_mantissa. rewrite fexp_val.
  intros [H _]%andb_true_iff. apply Z.eqb_eq in H. lia.
Qed.

Lemma canonical_lt mx ex my ey :
  bounded prec emax mx ex = true → bounded prec emax my ey = true → ey < ex →
  Zpos my < Zpos mx * Z.pow 2 (ex - ey).
Proof.
  intros (Hex & Hdx & Hx)%bounded_canonical (Hey & Hdy & _)%bounded_canonical Hlt.
  destruct (digits2_bounds mx) as [Hmx _]. destruct (digits2_bounds my) as [_ Hmy].
  rewrite Hx in Hmx by lia.
  assert (Z.pow 2 (Zpos (digits2_pos my)) ≤ Z.pow 2 53) by (apply Z.pow_le_mono_r; lia).
  assert (Z.pow 2 1 ≤ Z.pow 2 (ex - ey)) by (apply Z.pow_le_mono_r; lia).
  change (Z.pow 2 (53 - 1)) with 4503599627370496 in Hmx.
  change (Z.pow 2 53) with 9007199254740992 in *.
  change (Z.pow 2 1) with 2 in *. nia.
Qed.

Ltac decide_sign :=
  first [rewrite bool_decide_eq_true_2 by lia | rewrite bool_decide_eq_false_2 by lia];
  done.

(** The difference of two numbers is above 0 exactly when the first is the
    larger. *)
Lemma SFsub_pos X Y :
  valid_binary prec emax X = true → valid_binary prec emax Y = true →
  positive_SF (SFsub prec emax X Y) = SFltb Y X.
Proof.
  destruct X as [[]|[]| |sx mx ex], Y as [[]|[]| |sy my ey];
    try (by destruct sx); try (by destruct sy); try done.
  simpl valid_binary. intros HX HY.
  pose proof (bounded_canonical _ _ HX) as (Hex & _ & _).
  pose proof (bounded_canonical _ _ HY) as (Hey & _ & _).
  unfold SFsub. rewrite binary_normalize_pos by lia.
  rewrite !shl_align_m by lia.
  unfold SFltb, SFcompare.
  change (PosDef.Pos.compare_cont Eq my mx) with (Pos.compare my mx).
  destruct (Z.compare_spec ey ex) as [Heq|Hlt|Hgt].
  - subst ey. rewrite Z.min_id, Z.sub_diag, Z.pow_0_r, !Z.mul_1_r.
    destruct (Pos.compare_spec my mx) as [->|?|?], sx, sy;
      unfold cond_Zopp; cbn beta iota; decide_sign.
  - pose proof (canonical_lt _ _ _ _ HX HY Hlt) as Hm.
    rewrite Z.min_r, Z.sub_diag, Z.pow_0_r, Z.mul_1_r by lia.
    destruct sx, sy; unfold cond_Zopp; cbn beta iota; decide_sign.
  - pose proof (canonical_lt _ _ _ _ HY HX Hgt) as Hm.
    rewrite Z.min_l, Z.sub_diag, Z.pow_0_r, Z.mul_1_r by lia.
    destruct sx, sy; unfold cond_Zopp; cbn beta iota; decide_sign.
Qed.

(** The sign of a binary64 difference tells the larger number: [p - q] is
    above 0 exactly when [q] is below [p]. *)
Lemma sub_pos (p q : float) : (0 <? p - q)%float = (q <? p)%float.
Proof.
  rewrite !FloatAxioms.ltb_spec, sub_spec.
  change (Prim2SF 0) with (S754_zero false).
  apply (SFsub_pos (Prim2SF p) (Prim2SF q)); apply Prim2SF_valid.
Qed.

End FloatSub.

(** ** The order book *)
Module BookProps.
Import Book.

(** *** Crossing levels and the scan of [findMatches] *)

Lemma isMatch_crosses o p : isMatch o p = true ↔ crosses o p.
Proof.
  unfold isMatch, crosses. destruct (is_buy o); apply bool_decide_eq_true.
Qed.

Lemma not_isMatch_crosses o p : isMatch o p = false ↔ ¬ crosses o p.
Proof. rewrite <- isMatch_crosses. destruct (isMatch o p); naive_solver. Qed.

(** A level that comes before a crossing level crosses too. *)
Lemma crosses_better o p q : better o p q → crosses o q → crosses o p.
Proof. unfold better, crosses. destruct (is_buy o); lia. Qed.

Lemma elem_of_sortedPrices o b p :
  p ∈ sortedPrices o b ↔ is_Some (oppositeMap o b !! p).
Proof.
  unfold sortedPrices. rewrite elem_of_js_sort, list_elem_of_fmap. split.
  - intros [[q orders] [-> Hin%elem_of_map_to_list]]. by exists orders.
  - intros [orders Hp]. exists (p, orders). by rewrite elem_of_map_to_list.
Qed.

Lemma sortedPrices_sorted o b : StronglySorted (better o) (sortedPrices o b).
Proof.
  unfold sortedPrices, better, by_priority.
  pose proof (NoDup_fst_map_to_list (oppositeMap o b)) as Hnd.
  destruct (is_buy o).
  - apply (js_sort_strict _ id); [done|]. by rewrite list_fmap_id.
  - eapply StronglySorted_mono;
      [|apply (js_sort_strict _ Z.opp); [intros; lia|]].
    + simpl. intros; lia.
    + apply NoDup_fmap_2; [|done]. intros x y ?; lia.
Qed.

(** The loop over sorted prices reads a prefix of crossing levels and
    breaks at the first level that does not cross; no later level crosses. *)
Lemma scan_sorted o m ps :
  StronglySorted (better o) ps →
  ∃ crossing rest,
    ps = crossing ++ rest ∧
    Forall (crosses o) crossing ∧
    Forall (λ p, ¬ crosses o p) rest ∧
    scan o m ps = crossing ≫= eligible_at m.
Proof.
  induction 1 as [|p ps Hps IH Hp]; [by exists [], []|].
  simpl. destruct (isMatch o p) eqn:Hm.
  - destruct IH as (crossing & rest & -> & Hc & Hr & ->).
    exists (p :: crossing), rest. split_and!; [done| |done|].
    + constructor; [by apply isMatch_crosses|done].
    + rewrite bind_cons. f_equal.
      unfold eligible_at, eligible. apply list_filter_iff.
      intros x. by rewrite bool_decide_eq_true.
  - apply not_isMatch_crosses in Hm.
    exists [], (p :: ps). split_and!; [done|constructor| |done].
    constructor; [done|].
    eapply Forall_impl; [exact Hp|]. simpl.
    intros q Hpq Hq. apply Hm. by eapply crosses_better.
Qed.

Lemma findMatches_split o b :
  ∃ crossing rest,
    sortedPrices o b = crossing ++ rest ∧
    Forall (crosses o) crossing ∧
    Forall (λ p, ¬ crosses o p) rest ∧
    findMatches o b = crossing ≫= eligible_at (oppositeMap o b).
Proof. apply scan_sorted, sortedPrices_sorted. Qed.

Lemma elem_of_eligible_at m p x :
  x ∈ eligible_at m p ↔
  ∃ orders, m !! p = Some orders ∧ x ∈ orders ∧ 0 < remaining_quantity x.
Proof.
  unfold eligible_at. rewrite list_elem_of_filter. split.
  - intros [Hx Hin]. destruct (m !! p) as [orders|]; simpl in Hin.
    + by exists orders.
    + by apply elem_of_nil in Hin.
  - intros (orders & -> & Hin & Hx). done.
Qed.

(** The matches are the eligible orders of the crossing levels. *)
Lemma elem_of_findMatches o b x :
  x ∈ findMatches o b ↔
  ∃ p orders, oppositeMap o b !! p = Some orders ∧ x ∈ orders ∧
    crosses o p ∧ 0 < remaining_quantity x.
Proof.
  destruct (findMatches_split o b) as (crossing & rest & Hsplit & Hc & Hr & ->).
  rewrite list_elem_of_bind. split.
  - intros (p & (orders & ? & ? & ?)%elem_of_eligible_at & Hp).
    exists p, orders. split_and!; try done.
    rewrite Forall_forall in Hc. auto.
  - intros (p & orders & Hp & Hx & Hcross & Hrem).
    exists p. split; [apply elem_of_eligible_at; eauto|].
    assert (p ∈ crossing ++ rest) as [?|Hin]%elem_of_app; [|done|].
    { rewrite <- Hsplit. apply elem_of_sortedPrices. by exists orders. }
    rewrite Forall_forall in Hr. by destruct (Hr p Hin).
Qed.

(** Price-time priority of the concatenation of the levels. *)
Lemma bind_price_time o (f : Z → list order) ps :
  StronglySorted (better o) ps →
  (∀ p x, x ∈ f p → price x = p) →
  (∀ p, fifo_level (f p)) →
  StronglySorted (price_time o) (ps ≫= f).
Proof.
  intros Hps Hprice Hfifo.
  induction Hps as [|p ps Hps IH Hp]; [constructor|].
  rewrite bind_cons. apply StronglySorted_app. split_and!; [|..|done].
  - intros x y Hx (q & Hy & Hq)%list_elem_of_bind. left.
    rewrite (Hprice _ _ Hx), (Hprice _ _ Hy).
    rewrite Forall_forall in Hp. auto.
  - eapply StronglySorted_mono; [|apply (Hfifo p)].
    intros x y Hx Hy Hxy. right.
    by rewrite (Hprice _ _ Hx), (Hprice _ _ Hy).
Qed.

Lemma findMatches_price_time o b :
  levels_keyed b → fifo b → StronglySorted (price_time o) (findMatches o b).
Proof.
  intros Hkeyed Hfifo.
  pose proof (sortedPrices_sorted o b) as Hsorted.
  destruct (findMatches_split o b) as (crossing & rest & Hsplit & _ & _ & ->).
  apply bind_price_time.
  - rewrite Hsplit in Hsorted. by apply StronglySorted_app_1_l in Hsorted.
  - intros p x (orders & Hp & Hx & _)%elem_of_eligible_at.
    assert (Forall (λ o, price o = p) orders) as Hall.
    { unfold oppositeMap in Hp. destruct Hkeyed as [Hb Hs].
      destruct (is_buy o);
        [apply Hs in Hp|apply Hb in Hp];
        (eapply Forall_impl; [exact Hp|]); simpl; by intros ? [? _]. }
    rewrite Forall_forall in Hall. auto.
  - intros p. unfold eligible_at. apply StronglySorted_filter.
    destruct (oppositeMap o b !! p) as [orders|] eqn:Hp; simpl; [|constructor].
    unfold oppositeMap in Hp. destruct Hfifo as [Hb Hs].
    destruct (is_buy o); [by apply (Hs p)|by apply (Hb p)].
Qed.

(** *** [addOrder] *)

Lemma addOrder_buy o b :
  is_buy o = true →
  addOrder o b =
    {| buyOrders :=
         <[price o := js_sort by_created_at (default [] (buyOrders b !! price o) ++ [o])]>
           (buyOrders b);
       sellOrders := sellOrders b;
       orderIndex := <[order_id o := o]> (orderIndex b) |}.
Proof. intros Hb. unfold addOrder, side_of, set_side, set_index. by rewrite Hb. Qed.

Lemma addOrder_sell o b :
  is_buy o = false →
  addOrder o b =
    {| buyOrders := buyOrders b;
       sellOrders :=
         <[price o := js_sort by_created_at (default [] (sellOrders b !! price o) ++ [o])]>
           (sellOrders b);
       orderIndex := <[order_id o := o]> (orderIndex b) |}.
Proof. intros Hb. unfold addOrder, side_of, set_side, set_index. by rewrite Hb. Qed.

Lemma addOrder_index o b :
  orderIndex (addOrder o b) = <[order_id o := o]> (orderIndex b).
Proof.
  destruct (is_buy o) eqn:Hside;
    [by rewrite addOrder_buy|by rewrite addOrder_sell].
Qed.

(** The order rests in the level of its price, on its side, next to the
    orders that were there. *)
Lemma addOrder_rests o b :
  ∃ orders,
    side_of o (addOrder o b) !! price o = Some orders ∧ o ∈ orders ∧
    orders ≡ₚ default [] (side_of o b !! price o) ++ [o].
Proof.
  unfold side_of. destruct (is_buy o) eqn:Hside;
    [rewrite addOrder_buy by done|rewrite addOrder_sell by done]; simpl;
    eexists; rewrite lookup_insert_eq; (split_and!; [done| |apply js_sort_perm]);
    rewrite js_sort_perm; set_solver.
Qed.

Lemma addOrder_other_levels o b p :
  p ≠ price o → side_of o (addOrder o b) !! p = side_of o b !! p.
Proof.
  intros Hp. unfold side_of. destruct (is_buy o) eqn:Hside;
    [rewrite addOrder_buy by done|rewrite addOrder_sell by done]; simpl;
    by rewrite lookup_insert_ne.
Qed.

Lemma addOrder_other_side o b :
  if is_buy o then sellOrders (addOrder o b) = sellOrders b
  else buyOrders (addOrder o b) = buyOrders b.
Proof.
  destruct (is_buy o) eqn:Hside;
    [by rewrite addOrder_buy|by rewrite addOrder_sell].
Qed.

Lemma addOrders_snoc os o b : addOrders (os ++ [o]) b = addOrder o (addOrders os b).
Proof. unfold addOrders. by rewrite foldl_snoc. Qed.

Lemma sorted_level_fifo orders : fifo_level (js_sort by_created_at orders).
Proof. by apply (js_sort_sorted _ created_at). Qed.

Lemma fifo_addOrder o b : fifo b → fifo (addOrder o b).
Proof.
  intros [Hbuy Hsell]. destruct (is_buy o) eqn:Hside;
    [rewrite addOrder_buy by done|rewrite addOrder_sell by done];
    (split; simpl; [|try done]; try done);
    intros p orders [[_ <-]|[_ ?]]%lookup_insert_Some;
    eauto using sorted_level_fifo.
Qed.

Lemma fifo_addOrders os b : fifo b → fifo (addOrders os b).
Proof.
  induction os as [|o os IH] using rev_ind; [done|].
  rewrite addOrders_snoc. auto using fifo_addOrder.
Qed.

Lemma fifo_empty : fifo empty.
Proof. split; intros p orders; simpl; by rewrite lookup_empty. Qed.

Lemma levels_keyed_addOrder o b : levels_keyed b → levels_keyed (addOrder o b).
Proof.
  intros [Hbuy Hsell]. destruct (is_buy o) eqn:Hside;
    [rewrite addOrder_buy by done|rewrite addOrder_sell by done];
    (split; simpl; [|try done]; try done);
    intros p orders [[<- <-]|[_ ?]]%lookup_insert_Some; eauto;
    rewrite js_sort_perm; apply Forall_app; (split; [|by repeat constructor]).
  - destruct (buyOrders b !! price o) eqn:Hl; simpl; eauto.
  - destruct (sellOrders b !! price o) eqn:Hl; simpl; eauto.
Qed.

Lemma levels_keyed_addOrders os b : levels_keyed b → levels_keyed (addOrders os b).
Proof.
  induction os as [|o os IH] using rev_ind; [done|].
  rewrite addOrders_snoc. auto using levels_keyed_addOrder.
Qed.

Lemma levels_keyed_empty : levels_keyed empty.
Proof. split; intros p orders; simpl; by rewrite lookup_empty. Qed.

(** *** [removeOrder] and the reachable books *)

Lemma remove_first_Some id orders rest :
  remove_first id orders = Some rest →
  ∃ l1 o l2, orders = l1 ++ o :: l2 ∧ rest = l1 ++ l2.
Proof.
  revert rest. induction orders as [|x orders IH]; intros rest; simpl; [done|].
  case_bool_decide.
  - intros [= <-]. by exists [], x, orders.
  - destruct (remove_first id orders) as [rest'|]; [|done].
    intros [= <-]. destruct (IH rest' eq_refl) as (l1 & o & l2 & -> & ->).
    by exists (x :: l1), o, l2.
Qed.

Lemma remove_first_Forall (P : order → Prop) id orders rest :
  remove_first id orders = Some rest → Forall P orders → Forall P rest.
Proof.
  intros (l1 & o & l2 & -> & ->)%remove_first_Some.
  rewrite !Forall_app, Forall_cons. tauto.
Qed.

Lemma remove_first_sorted (R : order → order → Prop) id orders rest :
  remove_first id orders = Some rest → StronglySorted R orders → StronglySorted R rest.
Proof.
  intros (l1 & o & l2 & -> & ->)%remove_first_Some.
  rewrite !StronglySorted_app, StronglySorted_cons.
  intros (H12 & H1 & _ & H2). split_and!; try done.
  intros x y Hx Hy. apply H12; [done|by right].
Qed.

(** A property of the levels that survives the removal of one order
    survives [removeOrder]. *)
Lemma removeOrder_levels (P : bool → Z → list order → Prop) o b :
  (∀ buy p orders rest,
     remove_first (order_id o) orders = Some rest → P buy p orders → P buy p rest) →
  (∀ p orders, buyOrders b !! p = Some orders → P true p orders) →
  (∀ p orders, sellOrders b !! p = Some orders → P false p orders) →
  (∀ p orders, buyOrders (removeOrder o b) !! p = Some orders → P true p orders) ∧
  (∀ p orders, sellOrders (removeOrder o b) !! p = Some orders → P false p orders).
Proof.
  intros HP Hbuy Hsell. unfold removeOrder, side_of, set_side, set_index. simpl.
  destruct (is_buy o) eqn:Hside; simpl.
  - destruct (buyOrders b !! price o) as [orders|] eqn:Hl; simpl; [|done].
    destruct (remove_first _ orders) as [[|x rest]|] eqn:Hr; simpl; [| |done].
    + split; [|done]. intros p l [_ ?]%lookup_delete_Some. eauto.
    + split; [|done]. intros p l [[<- <-]|[_ ?]]%lookup_insert_Some; eauto.
  - destruct (sellOrders b !! price o) as [orders|] eqn:Hl; simpl; [|done].
    destruct (remove_first _ orders) as [[|x rest]|] eqn:Hr; simpl; [| |done].
    + split; [done|]. intros p l [_ ?]%lookup_delete_Some. eauto.
    + split; [done|]. intros p l [[<- <-]|[_ ?]]%lookup_insert_Some; eauto.
Qed.

Lemma levels_keyed_removeOrder o b : levels_keyed b → levels_keyed (removeOrder o b).
Proof.
  intros [Hbuy Hsell].
  apply (removeOrder_levels (λ buy p, Forall (λ o, price o = p ∧ is_buy o = buy)));
    eauto using remove_first_Forall.
Qed.

Lemma fifo_removeOrder o b : fifo b → fifo (removeOrder o b).
Proof.
  intros [Hbuy Hsell].
  apply (removeOrder_levels (λ _ _, fifo_level)); [|done..].
  intros _ _ orders rest. apply remove_first_sorted.
Qed.

(** Both invariants hold of every book the mutators can build. *)
Lemma reachable_invariants b : reachable b → levels_keyed b ∧ fifo b.
Proof.
  induction 1 as [|o b _ [IHk IHf]|o b _ [IHk IHf]|o b _ [IHk IHf]].
  - split; [apply levels_keyed_empty|apply fifo_empty].
  - split; [by apply levels_keyed_addOrder|by apply fifo_addOrder].
  - unfold updateOrder. destruct (orderIndex b !! order_id o) as [existing|]; [|done].
    case_bool_decide;
      auto using levels_keyed_addOrder, fifo_addOrder,
                 levels_keyed_removeOrder, fifo_removeOrder.
  - split; [by apply levels_keyed_removeOrder|by apply fifo_removeOrder].
Qed.

Lemma reachable_addOrders os : reachable (addOrders os empty).
Proof.
  induction os as [|o os IH] using rev_ind; [constructor|].
  rewrite addOrders_snoc. by constructor.
Qed.

(** C3. For every order book [b] and every incoming order, [findMatches]
    returns exactly the resting orders of the opposite side, the asks for an
    incoming buy and the bids otherwise, whose level crosses the incoming
    limit (ask price ≤ buy price for an incoming buy, bid price ≥ sell price
    otherwise) and whose remaining quantity is positive: the sorted prices
    of the opposite side are its price levels in strict price priority; they
    split into the levels that cross, which are scanned, and the rest, none
    of which crosses, so the scan stops at the first level that does not
    cross; the result lists the eligible orders of the crossing levels level
    by level, each level in its stored order; and in every book built by
    [addOrder], [updateOrder] and [removeOrder] (more generally whenever
    every order rests at its own price and side and every level is in
    arrival order) the matches are orders of the other side than the
    incoming order's and the result is in price-time priority. *)
Theorem findMatches_spec (newOrder : order) (b : OrderBook) :
  let opposite :=
    if bool_decide (order_type newOrder = "buy"%string)
    then sellOrders b else buyOrders b in
  ∃ crossing rest : list Z,
    sortedPrices newOrder b = crossing ++ rest ∧
    (∀ p, p ∈ crossing ++ rest ↔ is_Some (opposite !! p)) ∧
    StronglySorted (better newOrder) (crossing ++ rest) ∧
    Forall (crosses newOrder) crossing ∧
    Forall (λ p, ¬ crosses newOrder p) rest ∧
    findMatches newOrder b = crossing ≫= eligible_at opposite ∧
    (∀ x, x ∈ findMatches newOrder b ↔
       ∃ p orders, opposite !! p = Some orders ∧ x ∈ orders ∧
         crosses newOrder p ∧ 0 < remaining_quantity x) ∧
    (order_type newOrder = "buy"%string →
       ∀ x, x ∈ findMatches newOrder b ↔
         ∃ p orders, sellOrders b !! p = Some orders ∧ x ∈ orders ∧
           p ≤ price newOrder ∧ 0 < remaining_quantity x) ∧
    (order_type newOrder ≠ "buy"%string →
       ∀ x, x ∈ findMatches newOrder b ↔
         ∃ p orders, buyOrders b !! p = Some orders ∧ x ∈ orders ∧
           price newOrder ≤ p ∧ 0 < remaining_quantity x) ∧
    (levels_keyed b →
       ∀ x, x ∈ findMatches newOrder b →
         is_buy x = negb (is_buy newOrder) ∧
         (if is_buy newOrder then price x ≤ price newOrder
          else price newOrder ≤ price x)) ∧
    (levels_keyed b → fifo b →
       StronglySorted (price_time newOrder) (findMatches newOrder b)) ∧
    (reachable b →
       StronglySorted (price_time newOrder) (findMatches newOrder b)).
Proof.
  intros opposite.
  change opposite with (oppositeMap newOrder b). clear opposite.
  destruct (findMatches_split newOrder b) as (crossing & rest & Hsplit & Hc & Hr & Hfind).
  exists crossing, rest. rewrite <- Hsplit.
  split_and!; try done.
  - intros p. apply elem_of_sortedPrices.
  - apply sortedPrices_sorted.
  - apply elem_of_findMatches.
  - intros Hbuy x. rewrite elem_of_findMatches.
    unfold oppositeMap, crosses, is_buy. by rewrite bool_decide_eq_true_2.
  - intros Hsell x. rewrite elem_of_findMatches.
    unfold oppositeMap, crosses, is_buy. by rewrite bool_decide_eq_false_2.
  - intros [Hbuys Hsells] x (p & orders & Hp & Hx & Hcross & _)%elem_of_findMatches.
    unfold oppositeMap, crosses in *.
    destruct (is_buy newOrder).
    + specialize (Hsells p orders Hp). rewrite Forall_forall in Hsells.
      destruct (Hsells x Hx) as [-> ->]. done.
    + specialize (Hbuys p orders Hp). rewrite Forall_forall in Hbuys.
      destruct (Hbuys x Hx) as [-> ->]. done.
  - apply findMatches_price_time.
  - intros [? ?]%reachable_invariants. by apply findMatches_price_time.
Qed.

Lemma findMatches_spec_witness :
  order_id <$> findMatches incoming1 book1 = ["d"; "c"]%string ∧
  order_id <$> findMatches (mk "s" "sell" 24 5 10) book1 = ["a"]%string ∧
  mk "a" "buy" 25 10 1 ∈ findMatches (mk "s" "sell" 24 5 10) book1 ∧
  StronglySorted (price_time incoming1) (findMatches incoming1 book1) ∧
  StronglySorted (price_time incoming1)
    (findMatches incoming1 (removeOrder (mk "c" "sell" 24 3 3) book1)).
Proof.
  split; [reflexivity|split; [reflexivity|split; [|split]]].
  - destruct (findMatches_spec (mk "s" "sell" 24 5 10) book1)
      as (crossing & rest & _ & _ & _ & _ & _ & _ & _ & _ & H & _).
    apply H; [done|]. exists 25, [mk "a" "buy" 25 10 1].
    split_and!; [reflexivity|left|simpl; lia|simpl; lia].
  - destruct (findMatches_spec incoming1 book1)
      as (crossing & rest & _ & _ & _ & _ & _ & _ & _ & _ & _ & _ & H & _).
    apply H.
    + apply levels_keyed_addOrders, levels_keyed_empty.
    + apply fifo_addOrders, fifo_empty.
  - destruct (findMatches_spec incoming1 (removeOrder (mk "c" "sell" 24 3 3) book1))
      as (crossing & rest & _ & _ & _ & _ & _ & _ & _ & _ & _ & _ & _ & H).
    apply H. constructor. apply reachable_addOrders.
Defined.

(** Two cases of the repository's tests of the book, with prices in
    cents. *)
Example test_add_orders :
  buyLevels (getSnapshot (addOrder (mk "1" "buy" 2550 100 0) empty))
  = [{| lv_price := 2550; orderCount := 1 |}].
Proof. reflexivity. Qed.

Example test_find_matching_orders :
  price <$> findMatches (mk "2" "buy" 2600 30 1) (addOrder (mk "1" "sell" 2500 50 0) empty)
  = [2500].
Proof. reflexivity. Qed.

(** *** Arrival order *)

Lemma arrivals_snoc buy p os o :
  arrivals buy p (os ++ [o]) =
    arrivals buy p os ++ (if decide (is_buy o = buy ∧ price o = p) then [o] else []).
Proof. unfold arrivals. by rewrite filter_app. Qed.

(** In a sequence of arrivals with ascending timestamps every level holds
    its arrivals, in their order, and no level is stored empty. *)
Lemma addOrders_arrivals os :
  StronglySorted (λ x y, created_at x ≤ created_at y) os →
  ∀ p,
    default [] (buyOrders (addOrders os empty) !! p) = arrivals true p os ∧
    default [] (sellOrders (addOrders os empty) !! p) = arrivals false p os ∧
    buyOrders (addOrders os empty) !! p ≠ Some [] ∧
    sellOrders (addOrders os empty) !! p ≠ Some [].
Proof.
  induction os as [|o os IH] using rev_ind; intros Hs p.
  { simpl. by rewrite !lookup_empty. }
  apply StronglySorted_app in Hs as (Hlast & Hos & _).
  specialize (IH Hos).
  assert (Hkeep : ∀ buy, js_sort by_created_at (arrivals buy (price o) os ++ [o])
                         = arrivals buy (price o) os ++ [o]).
  { intros buy. apply (js_sort_id _ created_at); [done|].
    apply StronglySorted_app. split_and!.
    - intros x y [_ Hx]%list_elem_of_filter ->%list_elem_of_singleton.
      apply Hlast; [done|by left].
    - by apply StronglySorted_filter.
    - repeat constructor. }
  rewrite addOrders_snoc, !arrivals_snoc.
  destruct (IH p) as (Hb & Hsl & Hbn & Hsn).
  destruct (is_buy o) eqn:Hside;
    [rewrite addOrder_buy by done|rewrite addOrder_sell by done]; simpl;
    (destruct (decide (price o = p)) as [<-|Hne];
     [rewrite lookup_insert_eq; simpl;
      destruct (IH (price o)) as (-> & -> & _ & _); rewrite Hkeep
     |rewrite lookup_insert_ne by done]).
  - rewrite decide_True, app_nil_r by done. split_and!; try done.
    intros [=Heq]. by destruct (arrivals true (price o) os).
  - rewrite decide_False by (by intros [_ ?]). by rewrite !app_nil_r.
  - rewrite decide_True, app_nil_r by done. split_and!; try done.
    intros [=Heq]. by destruct (arrivals false (price o) os).
  - rewrite decide_False by (by intros [_ ?]). by rewrite !app_nil_r.
Qed.

(** C5. The order of a price level by creation timestamp is an invariant
    that every [addOrder] preserves, hence every sequence of [addOrder]
    calls; and after a sequence of [addOrder] calls with strictly increasing
    creation timestamps, starting from the empty book, every price level is
    strictly ascending in creation timestamp and holds the orders of its side
    and price in the order of the calls (strict FIFO). *)
Theorem addOrder_keeps_fifo :
  (∀ o b, fifo b → fifo (addOrder o b)) ∧
  (∀ os b, fifo b → fifo (addOrders os b)) ∧
  (∀ os,
     StronglySorted (λ x y, created_at x < created_at y) os →
     ∀ p orders,
       (buyOrders (addOrders os empty) !! p = Some orders →
          strict_fifo_level orders ∧ orders = arrivals true p os) ∧
       (sellOrders (addOrders os empty) !! p = Some orders →
          strict_fifo_level orders ∧ orders = arrivals false p os)).
Proof.
  split_and!; [apply fifo_addOrder|apply fifo_addOrders|].
  intros os Hos p orders.
  assert (Hle : StronglySorted (λ x y, created_at x ≤ created_at y) os).
  { eapply StronglySorted_mono; [|done]. simpl. intros; lia. }
  destruct (addOrders_arrivals os Hle p) as (Hb & Hs & _ & _).
  split; intros Hp; rewrite Hp in *; simpl in *; subst orders;
    (split; [|done]); by apply StronglySorted_filter.
Qed.

Lemma addOrder_keeps_fifo_witness :
  strict_fifo_level [mk "d" "sell" 24 4 2; mk "c" "sell" 24 3 3] ∧
  fifo book1.
Proof.
  destruct addOrder_keeps_fifo as (_ & Hfifo & Harrivals).
  split; [|apply Hfifo, fifo_empty].
  apply (Harrivals [mk "a" "buy" 25 10 1; mk "d" "sell" 24 4 2; mk "c" "sell" 24 3 3]
           ltac:(repeat constructor) 24).
  reflexivity.
Defined.

(** C4, as the code has it. [addOrder] validates nothing: for every order,
    whatever its price, quantity and side, it completes, records the order
    in the order index under its id, and puts it into the level of its price
    on the buy side when its side is ['buy'] and on the sell side otherwise,
    next to the orders already there; the other levels of that side and the
    other side are left as they were. *)
Theorem addOrder_inserts (o : order) (b : OrderBook) :
  let b' := addOrder o b in
  orderIndex b' = <[order_id o := o]> (orderIndex b) ∧
  orderIndex b' !! order_id o = Some o ∧
  (∃ orders,
     side_of o b' !! price o = Some orders ∧ o ∈ orders ∧
     orders ≡ₚ default [] (side_of o b !! price o) ++ [o]) ∧
  (∀ p, p ≠ price o → side_of o b' !! p = side_of o b !! p) ∧
  (if is_buy o then sellOrders b' = sellOrders b else buyOrders b' = buyOrders b).
Proof.
  simpl. split_and!.
  - apply addOrder_index.
  - rewrite addOrder_index. apply lookup_insert_eq.
  - apply addOrder_rests.
  - intros p. apply addOrder_other_levels.
  - apply addOrder_other_side.
Qed.

(** C4 fails: an order with price 0, quantity -5 and the side ['hold'] is
    not rejected; the book changes, the order is in the index and rests on
    the sell side at price 0. *)
Lemma addOrder_accepts_invalid_order :
  let o := mk "bad" "hold" 0 (-5) 1 in
  (price o ≤ 0 ∧ quantity o ≤ 0 ∧
   order_type o ≠ "buy"%string ∧ order_type o ≠ "sell"%string) ∧
  addOrder o empty ≠ empty ∧
  orderIndex (addOrder o empty) !! "bad"%string = Some o ∧
  sellOrders (addOrder o empty) !! 0 = Some [o].
Proof. split_and!; done. Qed.

(** *** [getSnapshot] *)

Lemma elem_of_levels (m : gmap Z (list order)) l :
  l ∈ to_level <$> map_to_list m ↔ aggregates m l.
Proof.
  rewrite list_elem_of_fmap. unfold aggregates. split.
  - intros [[p orders] [-> Hin%elem_of_map_to_list]]. by exists orders.
  - intros (orders & Hp & Hn). exists (lv_price l, orders).
    rewrite elem_of_map_to_list. split; [|done].
    destruct l. unfold to_level. simpl in *. by rewrite Hn.
Qed.

Lemma elem_of_buyLevels b l : l ∈ buyLevels (getSnapshot b) ↔ aggregates (buyOrders b) l.
Proof. simpl. by rewrite elem_of_js_sort, elem_of_levels. Qed.

Lemma elem_of_sellLevels b l : l ∈ sellLevels (getSnapshot b) ↔ aggregates (sellOrders b) l.
Proof. simpl. by rewrite elem_of_js_sort, elem_of_levels. Qed.

End BookProps.

(** ** The matching pass *)
Module MatchingProps.
Import Book Matching.

Lemma executeMatch_Some insert_ok buyOrder sellOrder e :
  executeMatch insert_ok buyOrder sellOrder = Some e →
  ex_buyOrder e = buyOrder ∧ ex_sellOrder e = sellOrder ∧
  price_per_ton (ex_transaction e) = price buyOrder ∧
  tx_quantity (ex_transaction e) =
    Z.min (remaining_quantity buyOrder) (remaining_quantity sellOrder) ∧
  buyer_id (ex_transaction e) = user_id buyOrder ∧
  seller_id (ex_transaction e) = user_id sellOrder.
Proof.
  unfold executeMatch. destruct (insert_ok _); [|done].
  by intros [= <-].
Qed.

Lemma elem_of_attemptOrderMatching insert_ok newOrder b e :
  e ∈ attemptOrderMatching insert_ok newOrder b ↔
  ∃ m, m ∈ findMatches newOrder b ∧ executeMatch insert_ok newOrder m = Some e.
Proof. apply list_elem_of_omap. Qed.

(** Every match is executed when the database accepts every insert. *)
Lemma attemptOrderMatching_all insert_ok newOrder b :
  (∀ tx, insert_ok tx = true) →
  ex_sellOrder <$> attemptOrderMatching insert_ok newOrder b = findMatches newOrder b.
Proof.
  intros Hok. unfold attemptOrderMatching.
  induction (findMatches newOrder b) as [|m ms IH]; [done|].
  simpl. unfold executeMatch at 1. rewrite Hok. simpl. f_equal. apply IH.
Qed.

(** A resting order that matches an incoming buy asks no more than the
    buyer's limit. *)
Lemma match_price_buy newOrder b m :
  is_buy newOrder = true → levels_keyed b → m ∈ findMatches newOrder b →
  price m ≤ price newOrder.
Proof.
  intros Hbuy [_ Hkeyed] (p & orders & Hp & Hm & Hc & _)%BookProps.elem_of_findMatches.
  unfold oppositeMap in Hp. unfold crosses in Hc. rewrite Hbuy in *.
  apply Hkeyed in Hp. rewrite Forall_forall in Hp.
  destruct (Hp m Hm) as [-> _]. done.
Qed.

(** C1, as the code has it. In a matching pass over an incoming buy order
    every executed trade pairs the incoming order with one of its matches
    and is priced at the buyer's limit, which is the limit of the incoming
    order and not that of the resting order; the resting sell order never
    asked for more than this price. *)
Theorem buy_pass_price (insert_ok : transaction → bool)
    (newOrder : order) (b : OrderBook) (e : execution) :
  is_buy newOrder = true →
  e ∈ attemptOrderMatching insert_ok newOrder b →
  ex_buyOrder e = newOrder ∧
  ex_sellOrder e ∈ findMatches newOrder b ∧
  price_per_ton (ex_transaction e) = price newOrder ∧
  (levels_keyed b → price (ex_sellOrder e) ≤ price_per_ton (ex_transaction e)).
Proof.
  intros Hbuy (m & Hm & He)%elem_of_attemptOrderMatching.
  apply executeMatch_Some in He as (Hb & Hs & Hp & _).
  rewrite Hb, Hs, Hp. split_and!; try done.
  intros Hkeyed. by apply match_price_buy with b.
Qed.

Lemma buy_pass_price_witness :
  let e := execution1 in
  ex_buyOrder e = taker1 ∧
  ex_sellOrder e ∈ findMatches taker1 (addOrder taker1 (addOrder maker1 empty)) ∧
  price_per_ton (ex_transaction e) = price taker1 ∧
  (levels_keyed (addOrder taker1 (addOrder maker1 empty)) →
   price (ex_sellOrder e) ≤ price_per_ton (ex_transaction e)).
Proof.
  apply (buy_pass_price accept_all taker1 _ execution1); [reflexivity|].
  vm_compute. apply list_elem_of_here.
Defined.

(** C1 fails: a sell order rests at 24 and a buy order comes in at 25; the
    one trade of the pass is against the resting order and is priced 25, the
    limit of the incoming order, not 24, the limit of the resting order. *)
Lemma incoming_buy_trades_at_its_own_price :
  let pass := (handleOrderUpdate accept_all (INSERT taker1) (addOrder maker1 empty)).2 in
  ex_sellOrder <$> pass = [maker1] ∧
  (price_per_ton ∘ ex_transaction) <$> pass = [25] ∧
  price maker1 = 24 ∧ price taker1 = 25.
Proof. done. Qed.

(** The same book with the sides exchanged: the incoming sell order is
    passed as [buyOrder], so the row has the seller's limit as its price and
    the seller as its buyer. *)
Lemma incoming_sell_is_passed_as_buyOrder :
  let maker := mk "b1" "buy" 25 10 1 in
  let taker := mk "s1" "sell" 24 6 2 in
  let pass := (handleOrderUpdate accept_all (INSERT taker) (addOrder maker empty)).2 in
  ex_transaction <$> pass =
    [{| buyer_id := user_id taker; seller_id := user_id maker;
        tx_credit_id := "credit"; tx_quantity := 6; price_per_ton := 24 |}].
Proof. done. Qed.

(** C2, as the code has it. The incoming order is inserted into the book
    before the pass and rests there after it; every executed trade pairs it
    with one of the matches found in that book, for a quantity that is the
    minimum of its [remaining_quantity] as submitted and the
    [remaining_quantity] of the resting order; and when the database accepts
    every insert, one trade is executed against every match, in the order of
    the matches, however much has been executed before. *)
Theorem insert_pass_spec (insert_ok : transaction → bool)
    (newOrder : order) (b : OrderBook) :
  let r := handleOrderUpdate insert_ok (INSERT newOrder) b in
  r.1 = addOrder newOrder b ∧
  orderIndex r.1 !! order_id newOrder = Some newOrder ∧
  (∃ orders, side_of newOrder r.1 !! price newOrder = Some orders ∧ newOrder ∈ orders) ∧
  (∀ e, e ∈ r.2 →
     ex_buyOrder e = newOrder ∧
     ex_sellOrder e ∈ findMatches newOrder r.1 ∧
     tx_quantity (ex_transaction e) =
       Z.min (remaining_quantity newOrder) (remaining_quantity (ex_sellOrder e))) ∧
  ((∀ tx, insert_ok tx = true) → ex_sellOrder <$> r.2 = findMatches newOrder r.1).
Proof.
  simpl. destruct (BookProps.addOrder_rests newOrder b) as (orders & Ho & Hin & _).
  split_and!; try done.
  - rewrite BookProps.addOrder_index. apply lookup_insert_eq.
  - by exists orders.
  - intros e (m & Hm & He)%elem_of_attemptOrderMatching.
    apply executeMatch_Some in He as (Hb & Hs & _ & Hq & _).
    by rewrite Hb, Hs, Hq.
  - apply attemptOrderMatching_all.
Qed.

Lemma insert_pass_spec_witness :
  let r := handleOrderUpdate accept_all (INSERT taker1) (addOrder maker1 empty) in
  ex_sellOrder <$> r.2 = findMatches taker1 r.1.
Proof.
  destruct (insert_pass_spec accept_all taker1 (addOrder maker1 empty))
    as (_ & _ & _ & _ & H).
  by apply H.
Defined.

(** C2 fails: two sell orders of 5 and 4 rest at 24 and a buy order of 5
    comes in at 25. The first trade is for 5 and marks the incoming order
    completed; a second trade, for 4, is executed against it all the same,
    and the incoming order rests on the buy side of the book. *)
Lemma pass_goes_on_after_the_order_is_filled :
  let s1 := mk "s1" "sell" 24 5 1 in
  let s2 := mk "s2" "sell" 24 4 2 in
  let incoming := mk "b1" "buy" 25 5 3 in
  let r := handleOrderUpdate accept_all (INSERT incoming) (addOrders [s1; s2] empty) in
  remaining_quantity incoming = 5 ∧
  ex_sellOrder <$> r.2 = [s1; s2] ∧
  (tx_quantity ∘ ex_transaction) <$> r.2 = [5; 4] ∧
  head (ex_updates <$> r.2) =
    Some [("b1"%string, Completed 5); ("s1"%string, Completed 5)] ∧
  orderIndex r.1 !! "b1"%string = Some incoming ∧
  buyOrders r.1 !! 25 = Some [incoming].
Proof. done. Qed.

End MatchingProps.

(** ** Market statistics *)
Module StatsProps.
Import Stats.

Lemma foldl_fmap_add {A} (f : A → float) (l : list A) (a : float) :
  foldl (λ sum x, (sum + f x)%float) a l = foldl PrimFloat.add a (f <$> l).
Proof. revert a. induction l as [|x l IH]; intros a; simpl; [done|apply IH]. Qed.








(** The quotient is rounded as the code rounds it: the product of the price
    94906267 and the quantity 94906267 is above 2^53 and is rounded down, so
    the average of this one trade is the number just below its price. *)
Example vwap_in_binary64 :
  getVWAP 100 "c" 50 engine6 = Some (next_down 94906267).
Proof. done. Qed.



(** The percentage is rounded as the code rounds it: from the price 10 to
    the price 21 the change is 11 and the percentage 11 / 10 * 100, which is
    the number just above 110. *)
Example price_change_in_binary64 :
  getPriceChange 100 "c" 50 engine5 = Some (PriceChange 11 (next_up 110)).
Proof. done. Qed.

End StatsProps.

(** ** The snapshot over the numbers of the code *)
Module LevelsProps.
Import Levels.

(** The sort under a comparator that orders the elements of the array. *)
Section js_sort_by.
Context {A : Type} (cmp : A → A → Z) (lt : A → A → Prop).
Context (lt_trans : ∀ a b c, lt a b → lt b c → lt a c).

Lemma js_insert_by x l :
  (∀ y, y ∈ l → (0 < cmp x y ↔ lt y x)) →
  Forall (λ y, lt x y ∨ lt y x) l →
  StronglySorted lt l → StronglySorted lt (js_insert cmp x l).
Proof.
  intros Hcmp Hxl Hl. induction Hl as [|y l Hl IH Hy]; simpl.
  - repeat constructor.
  - apply Forall_cons in Hxl as [Hxy Hxl].
    case_bool_decide as Hc.
    + apply Hcmp in Hc; [|left]. constructor.
      * apply IH; [|done]. intros z Hz. apply Hcmp. by right.
      * rewrite js_insert_perm. by constructor.
    + assert (lt x y) as Hlt.
      { destruct Hxy as [?|Hyx]; [done|]. destruct Hc. apply Hcmp; [left|done]. }
      constructor; [by constructor|]. constructor; [done|].
      eapply Forall_impl; [exact Hy|]. simpl. intros z Hz. by eapply lt_trans.
Qed.

Lemma js_sort_by l :
  (∀ x y, x ∈ l → y ∈ l → (0 < cmp x y ↔ lt y x)) →
  StronglySorted (λ x y, lt x y ∨ lt y x) l →
  StronglySorted lt (js_sort cmp l).
Proof.
  intros Hcmp Hl. induction Hl as [|x l Hl IH Hx]; simpl; [constructor|].
  apply js_insert_by.
  - intros y Hy%elem_of_js_sort. apply Hcmp; [left|by right].
  - by rewrite js_sort_perm.
  - apply IH. intros y z Hy Hz. apply Hcmp; by right.
Qed.
End js_sort_by.

Lemma StronglySorted_of_fmap {A B} (f : A → B) (R : B → B → Prop) (l : list A) :
  StronglySorted R (f <$> l) → StronglySorted (λ x y, R (f x) (f y)) l.
Proof.
  induction l as [|x l IH]; simpl; [constructor|].
  intros [Hx Hl]%StronglySorted_cons. constructor; [by apply IH|].
  rewrite Forall_forall in Hx. apply Forall_forall. intros y Hy.
  apply Hx. by apply list_elem_of_fmap_2.
Qed.

Lemma total_remaining_total orders :
  total_remaining orders = Stats.total (remaining_quantity <$> orders).
Proof. apply (StatsProps.foldl_fmap_add remaining_quantity). Qed.

(** Numbers that compare equal are the same number, or the two zeros. *)
Lemma SFcompare_Eq_eq x y :
  SFcompare x y = Some Eq → x = y ∨ ∃ s1 s2, x = S754_zero s1 ∧ y = S754_zero s2.
Proof.
  destruct x as [[]|[]| |[] m1 e1], y as [[]|[]| |[] m2 e2]; simpl; try done;
    try (by left); try (right; by eauto); intros; FloatOrder.cmp_cases; by left.
Qed.

Lemma zero_cases p s : Prim2SF p = S754_zero s → p = 0%float ∨ p = (-0)%float.
Proof.
  intros H. rewrite <- (SF2Prim_Prim2SF p), H. destruct s; [by right|by left].
Qed.

Lemma eqb_eq p q :
  p ≠ (-0)%float → q ≠ (-0)%float → (p =? q)%float = true → p = q.
Proof.
  intros Hp Hq [H|(s1 & s2 & H1 & H2)]%FloatOrder.eqb_Eq%SFcompare_Eq_eq.
  - by apply Prim2SF_inj.
  - apply zero_cases in H1 as [->|?]; [|done].
    apply zero_cases in H2 as [->|?]; done.
Qed.

Lemma parseFloat_toString_id p : p ≠ (-0)%float → parseFloat_toString p = p.
Proof.
  intros Hp. unfold parseFloat_toString.
  destruct (p =? 0)%float eqn:H; [|done]. symmetry. by apply eqb_eq.
Qed.

(** Two different prices compare strictly, one way or the other. *)
Lemma price_keys_compare p q :
  p ≠ (-0)%float ∧ is_nan p = false → q ≠ (-0)%float ∧ is_nan q = false → p ≠ q →
  (p <? q)%float = true ∨ (q <? p)%float = true.
Proof.
  intros [Hp Hpn] [Hq Hqn] Hne.
  destruct (p <? q)%float eqn:Hlt; [by left|right].
  apply (FloatOrder.leb_total p q Hpn Hqn) in Hlt.
  apply FloatOrder.leb_Lt_Eq in Hlt as [?|He]; [by apply FloatOrder.ltb_Lt|].
  destruct Hne. symmetry. apply eqb_eq; [done..|]. by apply FloatOrder.eqb_Eq.
Qed.

Lemma price_keys_sorted ps :
  price_keys ps → StronglySorted (λ p q, (p <? q)%float = true ∨ (q <? p)%float = true) ps.
Proof.
  intros [Hnd Hall]. induction Hnd as [|p ps Hp Hnd IH]; [constructor|].
  apply Forall_cons in Hall as [Hpk Hall]. constructor; [by apply IH|].
  apply Forall_forall. intros q Hq. rewrite Forall_forall in Hall.
  apply price_keys_compare; [done|by apply Hall|]. by intros ->.
Qed.

Lemma to_level_price m :
  price_keys (prices m) → lv_price <$> (to_level <$> m) = prices m.
Proof.
  intros [_ Hall]. unfold prices in *. rewrite <- list_fmap_compose.
  apply list_fmap_ext. intros i [p orders] Hi. simpl.
  apply parseFloat_toString_id.
  rewrite Forall_forall in Hall. apply (Hall p).
  apply list_elem_of_fmap. exists (p, orders). split; [done|].
  by eapply list_elem_of_lookup_2.
Qed.

Lemma sign_pos v : 0 < sign v ↔ (0 <? v)%float = true.
Proof.
  unfold sign. destruct (v <? 0)%float eqn:Hneg.
  - apply FloatOrder.ltb_asym in Hneg. rewrite Hneg. split; [lia|done].
  - destruct (0 <? v)%float; split; done || lia.
Qed.

(** Every level aggregates an entry of the map, and every entry is
    aggregated. *)
Lemma elem_of_sorted_levels (cmp : level → level → Z) m l :
  price_keys (prices m) →
  l ∈ js_sort cmp (to_level <$> m) ↔ aggregates m l.
Proof.
  intros [_ Hall]. rewrite elem_of_js_sort, list_elem_of_fmap. unfold aggregates.
  assert (Hid : ∀ p orders, (p, orders) ∈ m → parseFloat_toString p = p).
  { intros p orders Hin. apply parseFloat_toString_id.
    rewrite Forall_forall in Hall. apply (Hall p).
    apply list_elem_of_fmap. by exists (p, orders). }
  split.
  - intros [[p orders] [-> Hin]]. exists orders. simpl.
    rewrite (Hid p orders Hin). by rewrite total_remaining_total.
  - intros (orders & Hin & Hq & Hn). exists (lv_price l, orders). split; [|done].
    destruct l. unfold to_level. simpl in *.
    by rewrite (Hid _ _ Hin), total_remaining_total, Hq, Hn.
Qed.

Lemma sellLevels_sorted m :
  price_keys (prices m) →
  StronglySorted (λ x y, (lv_price x <? lv_price y)%float = true)
    (js_sort ascending (to_level <$> m)).
Proof.
  intros Hk. apply js_sort_by.
  - intros a b c. apply FloatOrder.ltb_trans.
  - intros x y _ _. unfold ascending. by rewrite sign_pos, FloatSub.sub_pos.
  - apply (StronglySorted_of_fmap lv_price
             (λ p q, (p <? q)%float = true ∨ (q <? p)%float = true)).
    rewrite to_level_price by done. by apply price_keys_sorted.
Qed.

Lemma buyLevels_sorted m :
  price_keys (prices m) →
  StronglySorted (λ x y, (lv_price y <? lv_price x)%float = true)
    (js_sort descending (to_level <$> m)).
Proof.
  intros Hk. apply (js_sort_by _ (λ x y, (lv_price y <? lv_price x)%float = true)).
  - intros a b c H1 H2. by eapply FloatOrder.ltb_trans.
  - intros x y _ _. unfold descending. by rewrite sign_pos, FloatSub.sub_pos.
  - apply (StronglySorted_of_fmap lv_price
             (λ p q, (q <? p)%float = true ∨ (p <? q)%float = true)).
    rewrite to_level_price by done.
    eapply StronglySorted_mono; [|by apply price_keys_sorted]. simpl. tauto.
Qed.

Lemma levels_nonempty (cmp : level → level → Z) (m : list (float * list order)) :
  m ≠ [] → js_sort cmp (to_level <$> m) ≠ [].
Proof.
  intros Hm Hnil. apply (f_equal length) in Hnil.
  rewrite length_js_sort, length_fmap in Hnil. by destruct m.
Qed.

Lemma aggregates_price m l : aggregates m l → lv_price l ∈ prices m.
Proof.
  intros (orders & Hin & _). apply list_elem_of_fmap. by exists (lv_price l, orders).
Qed.

Lemma price_aggregated (cmp : level → level → Z) m p :
  price_keys (prices m) → p ∈ prices m →
  ∃ l, l ∈ js_sort cmp (to_level <$> m) ∧ lv_price l = p.
Proof.
  intros Hk ([p' orders] & -> & Hin)%list_elem_of_fmap. simpl.
  exists {| lv_price := p'; lv_quantity := Stats.total (remaining_quantity <$> orders);
            orderCount := length orders |}.
  split; [|done]. apply elem_of_sorted_levels; [done|]. by exists orders.
Qed.

Lemma spread_eq b :
  spread (getSnapshot b) =
    match sellLevels (getSnapshot b), buyLevels (getSnapshot b) with
    | ask :: _, bid :: _ => (lv_price ask - lv_price bid)%float
    | _, _ => 0%float
    end.
Proof. done. Qed.

Lemma price_keys_not_nan ps p : price_keys ps → p ∈ ps → is_nan p = false.
Proof. intros [_ H] Hp. rewrite Forall_forall in H. by apply H. Qed.

(** C6. For every order book whose price maps hold every price once, as a
    [Map] does, and no price NaN, the snapshot has, on each side, exactly
    one level per price of that side,
    carrying the sum of the remaining quantities of the orders at that
    price, added in binary64 in their stored order, and the number of these
    orders; the buy levels are strictly descending in price and the sell
    levels strictly ascending; the spread is 0 when either side is empty,
    and the best ask (the lowest sell price) minus the best bid (the highest
    buy price), subtracted in binary64, when both sides are non-empty. *)
Theorem getSnapshot_spec (b : OrderBook) :
  price_keys (prices (buyOrders b)) → price_keys (prices (sellOrders b)) →
  let s := getSnapshot b in
  (∀ l, l ∈ buyLevels s ↔ aggregates (buyOrders b) l) ∧
  (∀ l, l ∈ sellLevels s ↔ aggregates (sellOrders b) l) ∧
  StronglySorted (λ x y, (lv_price y <? lv_price x)%float = true) (buyLevels s) ∧
  StronglySorted (λ x y, (lv_price x <? lv_price y)%float = true) (sellLevels s) ∧
  (buyOrders b = [] ∨ sellOrders b = [] → spread s = 0%float) ∧
  (buyOrders b ≠ [] → sellOrders b ≠ [] →
     ∃ bid ask, best_bid b bid ∧ best_ask b ask ∧ spread s = (ask - bid)%float).
Proof.
  intros Hkb Hks s.
  pose proof (buyLevels_sorted _ Hkb) as Hbs.
  pose proof (sellLevels_sorted _ Hks) as Hss.
  pose proof (λ l, elem_of_sorted_levels descending (buyOrders b) l Hkb) as Hbe.
  pose proof (λ l, elem_of_sorted_levels ascending (sellOrders b) l Hks) as Hse.
  split_and!; try done.
  - unfold s. rewrite spread_eq. unfold getSnapshot. cbn [buyLevels sellLevels].
    intros [-> | ->]; [by destruct (js_sort ascending _)|done].
  - intros Hb Hsl. unfold s. rewrite spread_eq. unfold getSnapshot.
    cbn [buyLevels sellLevels].
    destruct (js_sort descending (to_level <$> buyOrders b)) as [|bid bids] eqn:Hbl.
    { by apply levels_nonempty in Hbl. }
    destruct (js_sort ascending (to_level <$> sellOrders b)) as [|ask asks] eqn:Hsll.
    { by apply levels_nonempty in Hsll. }
    exists (lv_price bid), (lv_price ask). split_and!; [| |done].
    + split; [apply aggregates_price, Hbe; by left|].
      apply Forall_forall. intros q Hq.
      destruct (price_aggregated descending _ _ Hkb Hq) as (l & Hl & <-).
      rewrite Hbl in Hl.
      destruct (StronglySorted_head _ _ _ _ Hbs Hl) as [->|?].
      * apply FloatOrder.leb_refl, (price_keys_not_nan _ _ Hkb).
        apply aggregates_price, Hbe. by left.
      * by apply FloatOrder.ltb_leb.
    + split; [apply aggregates_price, Hse; by left|].
      apply Forall_forall. intros q Hq.
      destruct (price_aggregated ascending _ _ Hks Hq) as (l & Hl & <-).
      rewrite Hsll in Hl.
      destruct (StronglySorted_head _ _ _ _ Hss Hl) as [->|?].
      * apply FloatOrder.leb_refl, (price_keys_not_nan _ _ Hks).
        apply aggregates_price, Hse. by left.
      * by apply FloatOrder.ltb_leb.
Qed.

(** Two floats differ when they differ as triples of sign, mantissa and
    exponent. *)
Ltac float_neq := intros Heq; apply (f_equal Prim2SF) in Heq; by vm_compute in Heq.

Lemma price_keys_book2 :
  price_keys (prices (buyOrders book2)) ∧ price_keys (prices (sellOrders book2)).
Proof.
  split; (split; [|repeat constructor; float_neq]);
    repeat (constructor;
            [rewrite ?not_elem_of_cons; split_and?; try apply not_elem_of_nil; float_neq|]);
    constructor.
Qed.

#[warnings="-inexact-float"]
Lemma getSnapshot_spec_witness :
  buyLevels (getSnapshot book2)
  = [Level 24.5 (0 + 0.1 + 0.2) 2; Level 24 5 1] ∧
  spread (getSnapshot book2) = (25.4 - 24.5)%float ∧
  (spread (getSnapshot book2) <? 0.9)%float = true ∧
  (0.3 <? 0 + 0.1 + 0.2)%float = true ∧
  (∃ bid ask, best_bid book2 bid ∧ best_ask book2 ask ∧
     spread (getSnapshot book2) = (ask - bid)%float).
Proof.
  split_and!; [reflexivity..|].
  destruct (getSnapshot_spec book2) as (_ & _ & _ & _ & _ & H).
  - apply price_keys_book2.
  - apply price_keys_book2.
  - by apply H.
Defined.

(** Two cases of the repository's tests of the snapshot: one bid of 100 at
    25.50 gives one buy level; a bid at 24.50 and an ask at 25.50 give the
    spread 1. *)
Example test_snapshot_level :
  buyLevels (getSnapshot {| buyOrders := [(25.5%float, [mk "1" "buy" 25.5 100 0])];
                            sellOrders := [] |})
  = [Level 25.5 100 1].
Proof. reflexivity. Qed.

Example test_spread :
  spread (getSnapshot {| buyOrders := [(24.5%float, [mk "1" "buy" 24.5 100 0])];
                         sellOrders := [(25.5%float, [mk "2" "sell" 25.5 100 1])] |})
  = 1%float.
Proof. reflexivity. Qed.

End LevelsProps.

(** ** The analytics worker *)
Module WorkerProps.
Import Worker.

Lemma length_of_fmap {A B} (f : A → B) (l : list A) : length_of (f <$> l) = length_of l.
Proof. unfold length_of. by rewrite length_fmap. Qed.

(** The slice that [processMarketData] takes at [index] is the last
    [min 5 (index + 1)] points of the series up to [index]. *)
Lemma window_at_trailing (rawData : list market_data) (i : nat) :
  (i < length rawData)%nat →
  window_at rawData i = trailing (Nat.min 5 (i + 1)) (take (i + 1) rawData).
Proof.
  intros Hi. unfold window_at, slice, trailing.
  rewrite length_take_le by lia.
  replace (Z.to_nat (Z.max 0 (Z.of_nat i - Z.min 5 (Z.of_nat i + 1) + 1)))
    with (i + 1 - Nat.min 5 (i + 1))%nat by lia.
  rewrite take_drop_commute. do 2 f_equal. lia.
Qed.

Lemma length_window (rawData : list market_data) (i : nat) :
  (i < length rawData)%nat →
  length (trailing (Nat.min 5 (i + 1)) (take (i + 1) rawData)) = Nat.min 5 (i + 1).
Proof.
  intros Hi. unfold trailing. rewrite length_drop, length_take_le by lia. lia.
Qed.

Lemma squared_deviations_sum (mean : float) (prices : list float) :
  squared_deviations mean prices
  = sum ((λ p, ((p - mean) * (p - mean))%float) <$> prices).
Proof.
  unfold squared_deviations, sum. generalize 0%float.
  induction prices as [|p prices IH]; intros a; [done|].
  rewrite fmap_cons. simpl. apply IH.
Qed.

Lemma calculateVolatility_population (prices : list float) :
  (2 ≤ length prices)%nat → calculateVolatility prices = population_std_dev prices.
Proof.
  intros Hn. unfold calculateVolatility.
  rewrite bool_decide_eq_false_2 by lia.
  by rewrite squared_deviations_sum.
Qed.

(** C9, as the code has it. On every window of at least 2 prices
    [calculateVolatility] is the standard deviation with divisor [n] (the
    population standard deviation); and for every point [i] of a series,
    [processMarketData] reports, rounded to two decimals, the arithmetic mean
    and the volatility of the window made of the last [min 5 (i + 1)] prices
    up to that point. *)
Theorem volatility_and_moving_average :
  (∀ prices : list float,
     (2 ≤ length prices)%nat →
     calculateVolatility prices = population_std_dev prices) ∧
  (∀ (rawData : list market_data) (i : nat) (r : processed),
     processMarketData rawData !! i = Some r →
     let w := price <$> trailing (Nat.min 5 (i + 1)) (take (i + 1) rawData) in
     length w = Nat.min 5 (i + 1) ∧
     movingAverage r = round2 (arithmetic_mean w) ∧
     volatility r = round2 (calculateVolatility w)).
Proof.
  split; [apply calculateVolatility_population|].
  intros rawData i r Hr w. unfold processMarketData in Hr.
  case_bool_decide; [done|].
  rewrite list_lookup_imap in Hr.
  destruct (rawData !! i) as [it|] eqn:Hit; [|done].
  apply lookup_lt_Some in Hit. injection Hr as <-.
  unfold process_item; simpl. rewrite window_at_trailing by done. fold w.
  split_and!; [|by unfold arithmetic_mean, w; rewrite length_of_fmap|done].
  unfold w. rewrite length_fmap. by apply length_window.
Qed.

Lemma volatility_and_moving_average_witness :
  calculateVolatility [1; 3; 5]%float = population_std_dev [1; 3; 5]%float ∧
  movingAverage processed1 = round2 (arithmetic_mean [1; 3]%float) ∧
  volatility processed1 = round2 (calculateVolatility [1; 3]%float).
Proof.
  destruct volatility_and_moving_average as [Hv Hp].
  split; [apply Hv; simpl; lia|].
  apply (Hp [MarketData 1 10; MarketData 3 10] 1%nat processed1). reflexivity.
Defined.

(** C9 fails: on the window 1, 3 the volatility is 1, the square root of
    the variance ((1-2)² + (3-2)²) / 2, where the sample standard deviation
    is the square root of 2; [processMarketData] reports 1 for the second
    point, and the sample standard deviation rounds to more than 1. *)
Lemma volatility_divides_by_n :
  calculateVolatility [1; 3]%float = 1%float ∧
  sample_std_dev [1; 3]%float = PrimFloat.sqrt 2 ∧
  PrimFloat.ltb (calculateVolatility [1; 3]%float) (sample_std_dev [1; 3]%float) = true ∧
  volatility <$> processMarketData [MarketData 1 10; MarketData 3 10] = [0; 1]%float ∧
  PrimFloat.ltb 1 (round2 (sample_std_dev [1; 3]%float)) = true.
Proof. vm_compute. done. Qed.

(** C10 fails on the code: for an order book whose buy and sell levels are
    both empty (or absent) the two depths are 0, the divisor
    [buyDepth + sellDepth] is 0, and the imbalance is 0 / 0 - 0.5, which is
    NaN. *)
Lemma imbalance_of_an_empty_book :
  let r := calculateOrderBookAnalytics {| buyLevels := Some []; sellLevels := Some [] |} in
  let r' := calculateOrderBookAnalytics {| buyLevels := None; sellLevels := None |} in
  depth_buy r = 0%float ∧ depth_total r = 0%float ∧
  imbalance r = PrimFloat.nan ∧ PrimFloat.is_nan (imbalance r) = true ∧
  imbalance r' = PrimFloat.nan.
Proof. vm_compute. done. Qed.

End WorkerProps.

(** ** The book and its index *)
Module RestingProps.
Import Book Resting BookProps.

Lemma side_of_buy o b : is_buy o = true → side_of o b = buyOrders b.
Proof. unfold side_of. by intros ->. Qed.

Lemma side_of_sell o b : is_buy o = false → side_of o b = sellOrders b.
Proof. unfold side_of. by intros ->. Qed.

Lemma rests_default o b : rests o b ↔ o ∈ default [] (side_of o b !! price o).
Proof.
  unfold rests. destruct (side_of o b !! price o) as [orders|]; simpl.
  - split; [by intros (? & [= <-] & ?)|eauto].
  - split; [by intros (? & ? & _)|by intros ?%elem_of_nil].
Qed.

(** The orders that rest after [addOrder]: the new one and the old ones. *)
Lemma rests_addOrder x o b : rests x (addOrder o b) ↔ x = o ∨ rests x b.
Proof.
  rewrite !rests_default. unfold side_of.
  destruct (is_buy o) eqn:Ho, (is_buy x) eqn:Hx;
    [rewrite addOrder_buy by done|rewrite addOrder_buy by done
    |rewrite addOrder_sell by done|rewrite addOrder_sell by done]; simpl.
  - destruct (decide (price o = price x)) as [Hp|Hp].
    + rewrite <- Hp, lookup_insert_eq. simpl.
      rewrite elem_of_js_sort, elem_of_app, list_elem_of_singleton. tauto.
    + rewrite lookup_insert_ne by done. split; [tauto|].
      intros [->|?]; [done|done].
  - split; [tauto|]. intros [->|?]; [congruence|done].
  - split; [tauto|]. intros [->|?]; [congruence|done].
  - destruct (decide (price o = price x)) as [Hp|Hp].
    + rewrite <- Hp, lookup_insert_eq. simpl.
      rewrite elem_of_js_sort, elem_of_app, list_elem_of_singleton. tauto.
    + rewrite lookup_insert_ne by done. split; [tauto|].
      intros [->|?]; [done|done].
Qed.

(** *** [removeOrder], level by level *)

Lemma remove_first_spec id l :
  match remove_first id l with
  | Some rest =>
      ∃ l1 y l2, l = l1 ++ y :: l2 ∧ rest = l1 ++ l2 ∧ order_id y = id ∧
        Forall (λ z, order_id z ≠ id) l1
  | None => Forall (λ z, order_id z ≠ id) l
  end.
Proof.
  induction l as [|x l IH]; simpl; [constructor|].
  case_bool_decide as Hx.
  - by exists [], x, l.
  - destruct (remove_first id l) as [rest|]; simpl.
    + destruct IH as (l1 & y & l2 & -> & -> & Hy & Hl1).
      exists (x :: l1), y, l2. split_and!; try done. by constructor.
    + by constructor.
Qed.

Lemma without_elem_of id l x : x ∈ without id l → x ∈ l.
Proof.
  unfold without. pose proof (remove_first_spec id l) as H.
  destruct (remove_first id l) as [rest|]; simpl; [|done].
  destruct H as (l1 & y & l2 & -> & -> & _). set_solver.
Qed.

Lemma elem_of_without id l x : x ∈ l → order_id x ≠ id → x ∈ without id l.
Proof.
  unfold without. pose proof (remove_first_spec id l) as H.
  destruct (remove_first id l) as [rest|]; simpl; [|done].
  destruct H as (l1 & y & l2 & -> & -> & Hy & _).
  rewrite !elem_of_app, elem_of_cons. intros [?|[->|?]] Hx; by eauto.
Qed.

Lemma without_id id l : Forall (λ z, order_id z ≠ id) l → without id l = l.
Proof.
  unfold without. pose proof (remove_first_spec id l) as H.
  destruct (remove_first id l) as [rest|]; simpl; [|done].
  destruct H as (l1 & y & l2 & -> & -> & Hy & _).
  rewrite Forall_app, Forall_cons. by intros (_ & ? & _).
Qed.

Lemma without_NoDup id l : NoDup l → NoDup (without id l).
Proof.
  unfold without. pose proof (remove_first_spec id l) as H.
  destruct (remove_first id l) as [rest|]; simpl; [|done].
  destruct H as (l1 & y & l2 & -> & -> & _).
  rewrite !NoDup_app, NoDup_cons. set_solver.
Qed.

Lemma without_sorted (R : order → order → Prop) id l :
  StronglySorted R l → StronglySorted R (without id l).
Proof.
  unfold without. destruct (remove_first id l) as [rest|] eqn:Hr; simpl; [|done].
  by apply remove_first_sorted with id.
Qed.

Lemma without_Forall (P : order → Prop) id l : Forall P l → Forall P (without id l).
Proof.
  unfold without. destruct (remove_first id l) as [rest|] eqn:Hr; simpl; [|done].
  by apply remove_first_Forall with id.
Qed.

(** When the orders of a level have pairwise different ids, none with the
    removed id is left. *)
Lemma without_gone id l x :
  NoDup l → (∀ y z, y ∈ l → z ∈ l → order_id y = order_id z → y = z) →
  x ∈ without id l → order_id x ≠ id.
Proof.
  unfold without. pose proof (remove_first_spec id l) as H.
  destruct (remove_first id l) as [rest|]; simpl.
  - destruct H as (l1 & y & l2 & -> & -> & Hy & _).
    intros Hnd Huniq Hx Hid.
    assert (x = y) as ->.
    { apply Huniq; [set_solver|set_solver|congruence]. }
    apply NoDup_app in Hnd as (_ & Hnd1 & [Hnd2 _]%NoDup_cons).
    apply elem_of_app in Hx as [Hx|Hx]; [|done].
    apply (Hnd1 _ Hx). by left.
  - intros _ _ Hx. rewrite Forall_forall in H. auto.
Qed.

Lemma removeOrder_index o b :
  orderIndex (removeOrder o b) = delete (order_id o) (orderIndex b).
Proof.
  unfold removeOrder, side_of, set_side, set_index. simpl.
  destruct (is_buy o); simpl;
    repeat (match goal with |- context [match ?x with _ => _ end] => destruct x end);
    done.
Qed.

Lemma removeOrder_other_side o b :
  if is_buy o then sellOrders (removeOrder o b) = sellOrders b
  else buyOrders (removeOrder o b) = buyOrders b.
Proof.
  unfold removeOrder, side_of, set_side, set_index. simpl.
  destruct (is_buy o) eqn:Ho; simpl;
    repeat (match goal with |- context [match ?x with _ => _ end] => destruct x end);
    done.
Qed.

(** The side of the removed order, as a map. *)
Lemma removeOrder_side o b :
  side_of o (removeOrder o b) =
    match without (order_id o) (default [] (side_of o b !! price o)) with
    | [] => delete (price o) (side_of o b)
    | rest => <[price o := rest]> (side_of o b)
    end ∨
  (side_of o (removeOrder o b) = side_of o b ∧
   without (order_id o) (default [] (side_of o b !! price o))
     = default [] (side_of o b !! price o)).
Proof.
  unfold removeOrder, without, side_of, set_side, set_index. simpl.
  destruct (is_buy o) eqn:Ho; simpl.
  - destruct (buyOrders b !! price o) as [orders|] eqn:Hl; simpl; [|by right].
    destruct (remove_first _ orders) as [[|x rest]|]; simpl; rewrite ?Ho; simpl; auto.
  - destruct (sellOrders b !! price o) as [orders|] eqn:Hl; simpl; [|by right].
    destruct (remove_first _ orders) as [[|x rest]|]; simpl; rewrite ?Ho; simpl; auto.
Qed.

(** The levels of the side of the removed order. *)
Lemma removeOrder_level o b p :
  default [] (side_of o (removeOrder o b) !! p) =
    if decide (p = price o) then without (order_id o) (default [] (side_of o b !! p))
    else default [] (side_of o b !! p).
Proof.
  destruct (removeOrder_side o b) as [Hs|[Hs Hw]]; rewrite Hs.
  - destruct (without _ _) as [|x rest] eqn:Hw.
    + destruct (decide (p = price o)) as [->|?].
      * by rewrite lookup_delete_eq, Hw.
      * by rewrite lookup_delete_ne.
    + destruct (decide (p = price o)) as [->|?].
      * by rewrite lookup_insert_eq, Hw.
      * by rewrite lookup_insert_ne.
  - destruct (decide (p = price o)) as [->|?]; [by rewrite Hw|done].
Qed.

Lemma side_of_eq x o b : is_buy x = is_buy o → side_of x b = side_of o b.
Proof. unfold side_of. by intros ->. Qed.

Lemma side_of_other x o b :
  is_buy x ≠ is_buy o → side_of x (removeOrder o b) = side_of x b.
Proof.
  intros Hne. pose proof (removeOrder_other_side o b) as H.
  unfold side_of. destruct (is_buy o), (is_buy x); done.
Qed.

(** An order rests after [removeOrder] when it rested before, and, in the
    level the removal touches, is still there. *)
Lemma rests_removeOrder x o b :
  rests x (removeOrder o b) ↔
    if decide (is_buy x = is_buy o ∧ price x = price o)
    then x ∈ without (order_id o) (default [] (side_of o b !! price o))
    else rests x b.
Proof.
  rewrite (rests_default x (removeOrder o b)). case_decide as H.
  - destruct H as [Hs Hp]. rewrite (side_of_eq x o) by done.
    rewrite removeOrder_level. case_decide; [|contradiction]. by rewrite Hp.
  - rewrite (rests_default x b).
    destruct (decide (is_buy x = is_buy o)) as [Hs|Hs].
    + rewrite !(side_of_eq x o) by done. rewrite removeOrder_level.
      case_decide as Hp; [|done]. by destruct H.
    + by rewrite side_of_other.
Qed.

Lemma rests_removeOrder_1 x o b : rests x (removeOrder o b) → rests x b.
Proof.
  rewrite rests_removeOrder. case_decide as H; [|done].
  destruct H as [Hs Hp]. intros Hx%without_elem_of.
  apply rests_default. by rewrite (side_of_eq x o), Hp.
Qed.

Lemma rests_removeOrder_2 x o b :
  rests x b → order_id x ≠ order_id o → rests x (removeOrder o b).
Proof.
  intros Hx Hid. rewrite rests_removeOrder. case_decide as H; [|done].
  destruct H as [Hs Hp]. apply elem_of_without; [|done].
  apply rests_default in Hx. by rewrite (side_of_eq x o), Hp in Hx.
Qed.

(** [removeOrder] reads the id, the side and the price of its argument and
    nothing else. *)
Lemma removeOrder_ext o o' b :
  order_id o = order_id o' → is_buy o = is_buy o' → price o = price o' →
  removeOrder o b = removeOrder o' b.
Proof.
  intros Hid Hs Hp. unfold removeOrder, side_of, set_side, set_index.
  by rewrite Hid, Hs, Hp.
Qed.

Lemma book_eq (b1 b2 : OrderBook) :
  buyOrders b1 = buyOrders b2 → sellOrders b1 = sellOrders b2 →
  orderIndex b1 = orderIndex b2 → b1 = b2.
Proof. destruct b1, b2. simpl. by intros -> -> ->. Qed.

(** An order of a level rests there. *)
Lemma level_rests b x p orders :
  levels_keyed b →
  buyOrders b !! p = Some orders ∨ sellOrders b !! p = Some orders →
  x ∈ orders → rests x b.
Proof.
  intros [Hb Hs] [Hl|Hl] Hx.
  - apply Hb in Hl as Hall. rewrite Forall_forall in Hall.
    destruct (Hall x Hx) as [<- Hside]. exists orders. by rewrite side_of_buy.
  - apply Hs in Hl as Hall. rewrite Forall_forall in Hall.
    destruct (Hall x Hx) as [<- Hside]. exists orders. by rewrite side_of_sell.
Qed.

(** *** Levels are never stored empty *)

Lemma no_empty_level_empty : no_empty_level empty.
Proof. split; intros p; simpl; by rewrite lookup_empty. Qed.

Lemma js_sort_nonempty {A} (cmp : A → A → Z) l x : js_sort cmp (l ++ [x]) ≠ [].
Proof.
  intros H. apply (f_equal length) in H.
  rewrite length_js_sort, length_app in H. simpl in H. lia.
Qed.

Lemma no_empty_level_addOrder o b : no_empty_level b → no_empty_level (addOrder o b).
Proof.
  intros [Hb Hs]. destruct (is_buy o) eqn:Ho;
    [rewrite addOrder_buy by done|rewrite addOrder_sell by done];
    (split; simpl; [|try done]; try done);
    intros p; (destruct (decide (p = price o)) as [->|?];
      [rewrite lookup_insert_eq; intros [= H]; by apply js_sort_nonempty in H
      |by rewrite lookup_insert_ne]).
Qed.

Lemma no_empty_level_removeOrder o b : no_empty_level b → no_empty_level (removeOrder o b).
Proof.
  intros [Hb Hs]. unfold removeOrder, side_of, set_side, set_index. simpl.
  destruct (is_buy o) eqn:Ho; simpl.
  - destruct (buyOrders b !! price o) as [orders|] eqn:Hl; simpl; [|done].
    destruct (remove_first _ orders) as [[|x rest]|]; simpl; [| |done].
    + split; [|done]. simpl. intros p [_ ?]%lookup_delete_Some. by eapply Hb.
    + split; [|done]. simpl. intros p [[_ ?]|[_ ?]]%lookup_insert_Some; [done|by eapply Hb].
  - destruct (sellOrders b !! price o) as [orders|] eqn:Hl; simpl; [|done].
    destruct (remove_first _ orders) as [[|x rest]|]; simpl; [| |done].
    + split; [done|]. simpl. intros p [_ ?]%lookup_delete_Some. by eapply Hs.
    + split; [done|]. simpl. intros p [[_ ?]|[_ ?]]%lookup_insert_Some; [done|by eapply Hs].
Qed.

Lemma no_empty_level_updateOrder o b : no_empty_level b → no_empty_level (updateOrder o b).
Proof.
  intros H. unfold updateOrder. destruct (orderIndex b !! order_id o); [|done].
  case_bool_decide; auto using no_empty_level_addOrder, no_empty_level_removeOrder.
Qed.

(** *** Indexed orders rest on the book *)

Lemma index_rests_empty : index_rests empty.
Proof. intros id o. simpl. by rewrite lookup_empty. Qed.

Lemma index_rests_addOrder o b : index_rests b → index_rests (addOrder o b).
Proof.
  intros H id x. rewrite addOrder_index.
  intros [[<- <-]|[_ Hx]]%lookup_insert_Some.
  - split; [done|]. apply rests_addOrder. by left.
  - destruct (H _ _ Hx). split; [done|]. apply rests_addOrder. by right.
Qed.

Lemma index_rests_removeOrder o b : index_rests b → index_rests (removeOrder o b).
Proof.
  intros H id x. rewrite removeOrder_index.
  intros [Hne Hx]%lookup_delete_Some. destruct (H _ _ Hx) as [Hid Hr].
  split; [done|]. apply rests_removeOrder_2; [done|congruence].
Qed.

Lemma index_rests_updateOrder o b : index_rests b → index_rests (updateOrder o b).
Proof.
  intros H. unfold updateOrder. destruct (orderIndex b !! order_id o); [|done].
  case_bool_decide; auto using index_rests_addOrder, index_rests_removeOrder.
Qed.

Lemma reachable_no_empty_level b : reachable b → no_empty_level b.
Proof.
  induction 1;
    auto using no_empty_level_empty, no_empty_level_addOrder,
               no_empty_level_updateOrder, no_empty_level_removeOrder.
Qed.

Lemma reachable_index_rests b : reachable b → index_rests b.
Proof.
  induction 1;
    auto using index_rests_empty, index_rests_addOrder,
               index_rests_updateOrder, index_rests_removeOrder.
Qed.

Lemma aggregates_count m l :
  (∀ p, m !! p ≠ Some []) → aggregates m l → (1 ≤ orderCount l)%nat.
Proof.
  intros Hne (orders & Hl & ->). destruct orders; [by apply Hne in Hl|simpl; lia].
Qed.

(** X1. In every book built from the empty book by [addOrder],
    [updateOrder] and [removeOrder], no price level is stored empty (a level
    is deleted when its last order is removed), so every level of a snapshot
    counts at least one order; and every order of the index is indexed under
    its own id and rests in the level of its price on its side. *)
Theorem reachable_levels_and_index (b : OrderBook) :
  reachable b →
  no_empty_level b ∧
  index_rests b ∧
  (∀ l, l ∈ buyLevels (getSnapshot b) ∨ l ∈ sellLevels (getSnapshot b) →
     (1 ≤ orderCount l)%nat).
Proof.
  intros Hr. pose proof (reachable_no_empty_level b Hr) as [Hb Hs].
  split_and!; [done|by apply reachable_index_rests|].
  intros l [Hl%elem_of_buyLevels|Hl%elem_of_sellLevels];
    [by apply (aggregates_count (buyOrders b))|by apply (aggregates_count (sellOrders b))].
Qed.

Lemma reachable_levels_and_index_witness :
  no_empty_level (removeOrder (mk "a" "buy" 25 10 1) book1) ∧
  index_rests (removeOrder (mk "a" "buy" 25 10 1) book1) ∧
  (∀ l, l ∈ buyLevels (getSnapshot (removeOrder (mk "a" "buy" 25 10 1) book1))
        ∨ l ∈ sellLevels (getSnapshot (removeOrder (mk "a" "buy" 25 10 1) book1)) →
     (1 ≤ orderCount l)%nat).
Proof.
  apply reachable_levels_and_index. constructor. apply reachable_addOrders.
Defined.

(** *** The index and the levels agree *)

Lemma well_indexed_empty : well_indexed empty.
Proof.
  split.
  - apply levels_keyed_empty.
  - apply index_rests_empty.
  - intros o (orders & Hl & _). unfold side_of in Hl. simpl in Hl.
    destruct (is_buy o); by rewrite lookup_empty in Hl.
  - intros p orders. simpl. rewrite !lookup_empty. by intros [?|?].
Qed.

Lemma well_indexed_unique b x y :
  well_indexed b → rests x b → rests y b → order_id x = order_id y → x = y.
Proof.
  intros Hwi Hx%(wi_rests b Hwi) Hy%(wi_rests b Hwi) Hid.
  rewrite Hid in Hx. congruence.
Qed.

(** The orders of the level of [o] rest on the book. *)
Lemma own_level_rests b o z :
  levels_keyed b → z ∈ default [] (side_of o b !! price o) → rests z b.
Proof.
  intros Hk Hz. destruct (side_of o b !! price o) as [orders|] eqn:Hl; simpl in Hz.
  - apply (level_rests b z (price o) orders); [done| |done].
    unfold side_of in Hl. destruct (is_buy o); auto.
  - by apply elem_of_nil in Hz.
Qed.

Lemma own_level_NoDup b o :
  well_indexed b → NoDup (default [] (side_of o b !! price o)).
Proof.
  intros Hwi. destruct (side_of o b !! price o) as [orders|] eqn:Hl; simpl.
  - apply (wi_nodup b Hwi (price o)).
    unfold side_of in Hl. destruct (is_buy o); auto.
  - constructor.
Qed.

(** No order of the level of [o] has the id of [o] when that id is not
    indexed. *)
Lemma own_level_fresh b o :
  well_indexed b → orderIndex b !! order_id o = None →
  Forall (λ z, order_id z ≠ order_id o) (default [] (side_of o b !! price o)).
Proof.
  intros Hwi Hfresh. apply Forall_forall. intros z Hz Hid.
  apply own_level_rests in Hz; [|by apply wi_keyed].
  apply (wi_rests b Hwi) in Hz. congruence.
Qed.

Lemma well_indexed_addOrder o b :
  well_indexed b → orderIndex b !! order_id o = None → well_indexed (addOrder o b).
Proof.
  intros Hwi Hfresh. split.
  - apply levels_keyed_addOrder, Hwi.
  - apply index_rests_addOrder, Hwi.
  - intros x [->|Hx]%rests_addOrder; rewrite addOrder_index.
    + apply lookup_insert_eq.
    + apply (wi_rests b Hwi) in Hx as Hix.
      rewrite lookup_insert_ne; [done|congruence].
  - assert (Hnew : NoDup (js_sort by_created_at
                            (default [] (side_of o b !! price o) ++ [o]))).
    { rewrite js_sort_perm. apply NoDup_app. split_and!.
      - by apply own_level_NoDup.
      - intros z Hz ->%list_elem_of_singleton.
        pose proof (own_level_fresh b o Hwi Hfresh) as Hall.
        rewrite Forall_forall in Hall. by apply (Hall o).
      - apply NoDup_singleton. }
    intros p orders. unfold side_of in Hnew. destruct (is_buy o) eqn:Ho;
      [rewrite addOrder_buy by done|rewrite addOrder_sell by done]; simpl;
      intros [Hl|Hl];
      try (by apply (wi_nodup b Hwi p); auto);
      apply lookup_insert_Some in Hl as [[_ <-]|[_ Hl]]; try done;
      by apply (wi_nodup b Hwi p); auto.
Qed.

Lemma well_indexed_removeOrder o b :
  well_indexed b → orderIndex b !! order_id o = Some o → well_indexed (removeOrder o b).
Proof.
  intros Hwi Hix.
  destruct (wi_index b Hwi _ _ Hix) as [_ Ho].
  split.
  - apply levels_keyed_removeOrder, Hwi.
  - apply index_rests_removeOrder, Hwi.
  - intros x Hx. pose proof (rests_removeOrder_1 _ _ _ Hx) as Hxb.
    rewrite removeOrder_index, lookup_delete_ne; [by apply (wi_rests b Hwi)|].
    intros Hid. apply rests_removeOrder in Hx. case_decide as Hsame.
    + revert Hx. intros Hx. eapply without_gone in Hx; [by apply Hx| |].
      * by apply own_level_NoDup.
      * intros y z Hy Hz. apply (well_indexed_unique b); [done|..];
          by eapply own_level_rests; [apply Hwi|].
    + assert (x = o) as -> by by apply (well_indexed_unique b).
      by apply Hsame.
  - pose proof (wi_nodup b Hwi) as Hnd.
    destruct (removeOrder_levels (λ _ _ l, NoDup l) o b) as [Hb Hs].
    + intros _ _ orders rest Hr Hl.
      pose proof (without_NoDup (order_id o) orders Hl) as H.
      unfold without in H. by rewrite Hr in H.
    + intros p orders ?. apply (Hnd p). auto.
    + intros p orders ?. apply (Hnd p). auto.
    + intros p orders [?|?]; eauto.
Qed.

(** Removing an order whose id is not indexed changes nothing. *)
Lemma removeOrder_absent o b :
  well_indexed b → no_empty_level b → orderIndex b !! order_id o = None →
  removeOrder o b = b.
Proof.
  intros Hwi [Hneb Hnes] Hfresh.
  pose proof (without_id _ _ (own_level_fresh b o Hwi Hfresh)) as Hw.
  assert (Hside : side_of o (removeOrder o b) = side_of o b).
  { destruct (removeOrder_side o b) as [Hs|[Hs _]]; [|done].
    rewrite Hs, Hw. destruct (side_of o b !! price o) as [[|x l]|] eqn:Hl; simpl.
    - unfold side_of in Hl. destruct (is_buy o); [by apply Hneb in Hl|by apply Hnes in Hl].
    - by apply insert_id.
    - by apply delete_id. }
  pose proof (removeOrder_other_side o b) as Hother.
  unfold side_of in Hside.
  apply book_eq.
  - by destruct (is_buy o).
  - by destruct (is_buy o).
  - rewrite removeOrder_index. by apply delete_id.
Qed.

Lemma consistent_empty : consistent empty.
Proof. split_and!; [apply well_indexed_empty|apply fifo_empty|apply no_empty_level_empty]. Qed.

Lemma consistent_addOrder o b :
  consistent b → orderIndex b !! order_id o = None → consistent (addOrder o b).
Proof.
  intros (Hwi & Hf & Hne) Hfresh.
  split_and!; [by apply well_indexed_addOrder|by apply fifo_addOrder
              |by apply no_empty_level_addOrder].
Qed.

Lemma consistent_removeOrder o b :
  consistent b →
  match orderIndex b !! order_id o with
  | Some o' => is_buy o' = is_buy o ∧ price o' = price o
  | None => True
  end →
  consistent (removeOrder o b).
Proof.
  intros (Hwi & Hf & Hne) Hkey.
  destruct (orderIndex b !! order_id o) as [o'|] eqn:Hix.
  - destruct Hkey as [Hs Hp].
    destruct (wi_index b Hwi _ _ Hix) as [Hid _].
    rewrite (removeOrder_ext o o') by done. rewrite <- Hid in Hix.
    split_and!; [by apply well_indexed_removeOrder|by apply fifo_removeOrder
                |by apply no_empty_level_removeOrder].
  - by rewrite removeOrder_absent.
Qed.

Lemma consistent_updateOrder o b : consistent b → consistent (updateOrder o b).
Proof.
  intros Hc. unfold updateOrder.
  destruct (orderIndex b !! order_id o) as [existing|] eqn:Hix; [|done].
  destruct Hc as (Hwi & Hf & Hne).
  destruct (wi_index b Hwi _ _ Hix) as [Hid _].
  assert (Hrm : consistent (removeOrder existing b)).
  { apply consistent_removeOrder; [done|]. by rewrite Hid, Hix. }
  case_bool_decide; [|done].
  apply consistent_addOrder; [done|].
  rewrite removeOrder_index, Hid. apply lookup_delete_eq.
Qed.

Lemma rests_indexed_id b x id :
  well_indexed b → rests x b → orderIndex b !! id = None → order_id x ≠ id.
Proof. intros Hwi Hx%(wi_rests b Hwi) Hid <-. congruence. Qed.

Lemma findMatches_rests newOrder b m :
  levels_keyed b → m ∈ findMatches newOrder b → rests m b.
Proof.
  intros Hk (p & orders & Hl & Hm & _)%elem_of_findMatches.
  apply (level_rests b m p orders); [done| |done].
  unfold oppositeMap in Hl. destruct (is_buy newOrder); auto.
Qed.

Lemma consistent_addOrders os b :
  consistent b → NoDup (order_id <$> os) →
  Forall (λ o, orderIndex b !! order_id o = None) os →
  consistent (addOrders os b).
Proof.
  revert b. induction os as [|o os IH]; intros b Hc Hnd Hfresh; [done|].
  rewrite fmap_cons in Hnd. apply NoDup_cons in Hnd as [Ho Hnd].
  apply Forall_cons in Hfresh as [Hfo Hfresh].
  simpl. apply IH; [by apply consistent_addOrder|done|].
  apply Forall_forall. intros x Hx. rewrite addOrder_index.
  rewrite lookup_insert_ne.
  - rewrite Forall_forall in Hfresh. auto.
  - intros Heq. apply Ho. rewrite Heq. by apply list_elem_of_fmap_2.
Qed.

Lemma consistent_book1 : consistent book1.
Proof.
  apply consistent_addOrders; [apply consistent_empty| |repeat constructor].
  apply (bool_decide_unpack _). by vm_compute.
Qed.

(** X2. The book starts, and stays, consistent: the index and the levels
    hold the same orders, each once and each in the level of its price and
    side, the levels are in arrival order and none is stored empty. This is
    true of the empty book and is preserved by [addOrder] of an order whose
    id is not indexed, by every [updateOrder], and by [removeOrder] of an
    order whose id is not indexed or is indexed with the same side and
    price. *)
Theorem consistent_preserved :
  consistent empty ∧
  (∀ o b, consistent b → orderIndex b !! order_id o = None →
     consistent (addOrder o b)) ∧
  (∀ o b, consistent b → consistent (updateOrder o b)) ∧
  (∀ o b, consistent b →
     match orderIndex b !! order_id o with
     | Some o' => is_buy o' = is_buy o ∧ price o' = price o
     | None => True
     end →
     consistent (removeOrder o b)).
Proof.
  split_and!.
  - apply consistent_empty.
  - apply consistent_addOrder.
  - apply consistent_updateOrder.
  - apply consistent_removeOrder.
Qed.

Lemma consistent_preserved_witness :
  consistent (addOrder incoming1 book1) ∧
  consistent (updateOrder (mk "c" "sell" 24 1 3) book1) ∧
  consistent (removeOrder (mk "c" "sell" 24 3 3) book1).
Proof.
  destruct consistent_preserved as (_ & Hadd & Hupd & Hrem).
  split_and!.
  - apply Hadd; [apply consistent_book1|reflexivity].
  - apply Hupd, consistent_book1.
  - apply Hrem; [apply consistent_book1|]. by vm_compute.
Defined.

(** X3. [loadOrderBook] on orders with pairwise different ids gives a
    consistent book, whatever the book held before. *)
Theorem loadOrderBook_consistent (orders : list order) (b : OrderBook) :
  NoDup (order_id <$> orders) → consistent (loadOrderBook orders b).
Proof.
  intros Hnd. apply consistent_addOrders; [apply consistent_empty|done|].
  apply Forall_forall. intros o _. apply lookup_empty.
Qed.

Lemma loadOrderBook_consistent_witness :
  consistent (loadOrderBook [mk "a" "buy" 25 10 1; mk "b" "sell" 26 10 2] book1).
Proof.
  apply loadOrderBook_consistent. apply (bool_decide_unpack _). by vm_compute.
Defined.

Lemma remove_first_app id l1 y l2 :
  Forall (λ z, order_id z ≠ id) l1 → order_id y = id →
  remove_first id (l1 ++ y :: l2) = Some (l1 ++ l2).
Proof.
  intros Hl1 Hy. induction Hl1 as [|x l1 Hx Hl1 IH]; simpl.
  - by rewrite bool_decide_eq_true_2.
  - rewrite bool_decide_eq_false_2 by done. by rewrite IH.
Qed.

(** A new order is inserted into a level in arrival order without moving
    the orders that are there. *)
Lemma js_sort_snoc_split l o :
  fifo_level l →
  ∃ l1 l2, l = l1 ++ l2 ∧ js_sort by_created_at (l ++ [o]) = l1 ++ o :: l2.
Proof.
  induction 1 as [|x l Hl IH Hx]; [by exists [], []|].
  destruct IH as (l1 & l2 & -> & Hsort). simpl. rewrite Hsort.
  destruct l1 as [|y l1]; simpl in *.
  - case_bool_decide.
    + exists [], (x :: l2). split; [done|]. simpl. f_equal.
      destruct l2 as [|z l2]; simpl; [done|].
      apply Forall_cons in Hx as [Hz _].
      rewrite bool_decide_eq_false_2; [done|]. unfold by_created_at. lia.
    + by exists [x], l2.
  - apply Forall_cons in Hx as [Hy _].
    rewrite bool_decide_eq_false_2 by (unfold by_created_at; lia).
    by exists (x :: y :: l1), l2.
Qed.

(** X4. In a consistent book, adding an order whose id is not indexed and
    removing it again gives the book back. *)
Theorem removeOrder_addOrder (o : order) (b : OrderBook) :
  consistent b → orderIndex b !! order_id o = None →
  removeOrder o (addOrder o b) = b.
Proof.
  intros (Hwi & Hf & [Hneb Hnes]) Hfresh.
  pose proof (own_level_fresh b o Hwi Hfresh) as Hids.
  assert (Hlevel : fifo_level (default [] (side_of o b !! price o))).
  { destruct (side_of o b !! price o) as [orders|] eqn:Hl; simpl; [|constructor].
    unfold side_of in Hl. destruct Hf as [Hfb Hfs].
    destruct (is_buy o); [by apply (Hfb (price o))|by apply (Hfs (price o))]. }
  destruct (js_sort_snoc_split _ o Hlevel) as (l1 & l2 & Hl & Hsort).
  assert (Hrm : remove_first (order_id o)
                  (js_sort by_created_at (default [] (side_of o b !! price o) ++ [o]))
                = Some (default [] (side_of o b !! price o))).
  { rewrite Hsort, Hl. apply remove_first_app; [|done].
    rewrite Hl in Hids. by apply Forall_app in Hids as [? _]. }
  unfold side_of in Hrm.
  destruct (is_buy o) eqn:Ho;
    [rewrite addOrder_buy by done|rewrite addOrder_sell by done];
    unfold removeOrder, side_of, set_side, set_index; simpl; rewrite Ho; simpl;
    rewrite lookup_insert_eq, Hrm, (delete_insert_id (orderIndex b)) by done.
  - destruct (buyOrders b !! price o) as [[|x l]|] eqn:Hlk; simpl.
    + by apply Hneb in Hlk.
    + rewrite insert_insert_eq, insert_id by done. by destruct b.
    + rewrite delete_insert_id by done. by destruct b.
  - destruct (sellOrders b !! price o) as [[|x l]|] eqn:Hlk; simpl.
    + by apply Hnes in Hlk.
    + rewrite insert_insert_eq, insert_id by done. by destruct b.
    + rewrite delete_insert_id by done. by destruct b.
Qed.

Lemma removeOrder_addOrder_witness :
  removeOrder incoming1 (addOrder incoming1 book1) = book1.
Proof. apply removeOrder_addOrder; [apply consistent_book1|reflexivity]. Defined.

(** X5. In a consistent book, [removeOrder] of an order whose id is not
    indexed leaves the book as it is. *)
Theorem removeOrder_unknown_id (o : order) (b : OrderBook) :
  consistent b → orderIndex b !! order_id o = None → removeOrder o b = b.
Proof. intros (Hwi & _ & Hne). by apply removeOrder_absent. Qed.

Lemma removeOrder_unknown_id_witness : removeOrder incoming1 book1 = book1.
Proof. apply removeOrder_unknown_id; [apply consistent_book1|reflexivity]. Defined.

Lemma rests_updateOrder_other o b x :
  order_id x ≠ order_id o → index_rests b →
  rests x (updateOrder o b) ↔ rests x b.
Proof.
  intros Hid Hix. unfold updateOrder.
  destruct (orderIndex b !! order_id o) as [existing|] eqn:Hl; [|done].
  destruct (Hix _ _ Hl) as [Hide _].
  assert (rests x (removeOrder existing b) ↔ rests x b) as Hrm.
  { split; [apply rests_removeOrder_1|].
    intros ?. apply rests_removeOrder_2; [done|congruence]. }
  case_bool_decide; [|done].
  rewrite rests_addOrder, Hrm. split; [|tauto].
  intros [->|?]; [done|done].
Qed.

(** X6. In a consistent book, an update that carries a status other than
    ['pending'] takes the order off the book: its id is no longer indexed,
    no order with that id rests on the book or is returned by [findMatches]
    for any incoming order, and the orders with other ids rest as before. *)
Theorem updateOrder_closed_order (o : order) (b : OrderBook) :
  consistent b → status o ≠ "pending"%string →
  let b' := updateOrder o b in
  orderIndex b' !! order_id o = None ∧
  (∀ x, rests x b' → order_id x ≠ order_id o) ∧
  (∀ newOrder m, m ∈ findMatches newOrder b' → order_id m ≠ order_id o) ∧
  (∀ x, order_id x ≠ order_id o → (rests x b' ↔ rests x b)).
Proof.
  intros Hc Hst b'.
  pose proof (consistent_updateOrder o b Hc) as (Hwi' & _ & _). fold b' in Hwi'.
  assert (Hgone : orderIndex b' !! order_id o = None).
  { unfold b', updateOrder.
    destruct (orderIndex b !! order_id o) as [existing|] eqn:Hl; [|done].
    rewrite bool_decide_eq_false_2 by done.
    destruct Hc as (Hwi & _). destruct (wi_index b Hwi _ _ Hl) as [<- _].
    rewrite removeOrder_index. apply lookup_delete_eq. }
  split_and!; [done|..].
  - intros x Hx. by apply (rests_indexed_id b').
  - intros newOrder m Hm. apply (rests_indexed_id b'); [done| |done].
    apply (findMatches_rests newOrder); [apply Hwi'|done].
  - intros x Hx. apply rests_updateOrder_other; [done|]. apply Hc.
Qed.

Lemma updateOrder_closed_order_witness :
  orderIndex (updateOrder completed1 book1) !! "c"%string = None ∧
  order_id <$> findMatches incoming1 (updateOrder completed1 book1) = ["d"]%string.
Proof.
  destruct (updateOrder_closed_order completed1 book1) as (H & _);
    [apply consistent_book1|done|].
  split; [exact H|reflexivity].
Defined.

(** X7. In a consistent book, an update that carries the status ['pending']
    is ignored when the id of the order is not indexed; when it is, the book
    holds the new version of the order and no other order with that id; in
    both cases the orders with other ids rest as before. *)
Theorem updateOrder_pending_order (o : order) (b : OrderBook) :
  consistent b → status o = "pending"%string →
  let b' := updateOrder o b in
  (orderIndex b !! order_id o = None → b' = b) ∧
  (is_Some (orderIndex b !! order_id o) →
     orderIndex b' !! order_id o = Some o ∧ rests o b' ∧
     (∀ x, rests x b' → order_id x = order_id o → x = o)) ∧
  (∀ x, order_id x ≠ order_id o → (rests x b' ↔ rests x b)).
Proof.
  intros Hc Hst b'.
  pose proof (consistent_updateOrder o b Hc) as (Hwi' & _ & _). fold b' in Hwi'.
  split_and!.
  - intros Hl. unfold b', updateOrder. by rewrite Hl.
  - intros [existing Hl].
    assert (Hb' : b' = addOrder o (removeOrder existing b)).
    { unfold b', updateOrder. rewrite Hl. by rewrite bool_decide_eq_true_2. }
    assert (Hr : rests o b') by (rewrite Hb'; apply rests_addOrder; by left).
    split_and!; [|done|].
    + rewrite Hb', addOrder_index. apply lookup_insert_eq.
    + intros x Hx Hid. by apply (well_indexed_unique b').
  - intros x Hx. apply rests_updateOrder_other; [done|]. apply Hc.
Qed.

Lemma updateOrder_pending_order_witness :
  orderIndex (updateOrder (mk "c" "sell" 24 1 3) book1) !! "c"%string
    = Some (mk "c" "sell" 24 1 3) ∧
  rests (mk "c" "sell" 24 1 3) (updateOrder (mk "c" "sell" 24 1 3) book1).
Proof.
  destruct (updateOrder_pending_order (mk "c" "sell" 24 1 3) book1)
    as (_ & H & _); [apply consistent_book1|done|].
  destruct H as (H1 & H2 & _); [by eexists|]. by split.
Defined.

End RestingProps.

(** ** More on the matching pass *)
Module PassProps.
Import Book Matching BookProps MatchingProps.

Lemma oppositeMap_addOrder o b : oppositeMap o (addOrder o b) = oppositeMap o b.
Proof.
  pose proof (addOrder_other_side o b) as H. unfold oppositeMap.
  by destruct (is_buy o).
Qed.

(** X8. Inserting the incoming order into the book does not change what
    [findMatches] returns for it: the pass that [handleOrderUpdate] runs
    after [addOrder] executes against the matches of the book as it was
    before the order arrived. *)
Theorem findMatches_after_insert (insert_ok : transaction → bool)
    (newOrder : order) (b : OrderBook) :
  findMatches newOrder (addOrder newOrder b) = findMatches newOrder b ∧
  (handleOrderUpdate insert_ok (INSERT newOrder) b).2
    = attemptOrderMatching insert_ok newOrder b.
Proof.
  assert (H : findMatches newOrder (addOrder newOrder b) = findMatches newOrder b).
  { unfold findMatches, sortedPrices. by rewrite oppositeMap_addOrder. }
  split; [done|]. simpl. unfold attemptOrderMatching. by rewrite H.
Qed.

(** The scan under a more generous limit goes at least as far. *)
Lemma scan_prefix o1 o2 m ps :
  (∀ p, isMatch o1 p = true → isMatch o2 p = true) →
  scan o1 m ps `prefix_of` scan o2 m ps.
Proof.
  intros Hm. induction ps as [|p ps IH]; simpl; [done|].
  destruct (isMatch o1 p) eqn:H1; [|apply prefix_nil].
  rewrite (Hm p H1). by apply prefix_app.
Qed.

(** X9. Of two incoming orders on the same side, the one with the more
    generous limit (the higher limit for a buy, the lower for a sell) gets
    the matches of the other one, in the same order, followed by further
    matches. *)
Theorem findMatches_monotone (o1 o2 : order) (b : OrderBook) :
  is_buy o1 = is_buy o2 →
  (if is_buy o1 then price o1 ≤ price o2 else price o2 ≤ price o1) →
  findMatches o1 b `prefix_of` findMatches o2 b.
Proof.
  intros Hside Hlimit. unfold findMatches, sortedPrices, oppositeMap, by_priority.
  rewrite <- Hside. apply scan_prefix. intros p.
  unfold isMatch. rewrite <- Hside. destruct (is_buy o1);
    rewrite !bool_decide_eq_true; lia.
Qed.

Lemma findMatches_monotone_witness :
  findMatches (mk "y" "buy" 24 5 10) book1 `prefix_of` findMatches (mk "z" "buy" 26 5 11) book1.
Proof. apply findMatches_monotone; [reflexivity|simpl; lia]. Defined.

(** X10. An executed trade is for no more than either order has left, and
    marks at least one of the two orders completed; in a matching pass over
    an order with a positive remaining quantity every executed trade has a
    positive quantity. *)
Theorem execution_settles_an_order (insert_ok : transaction → bool) :
  (∀ buyOrder sellOrder e,
     executeMatch insert_ok buyOrder sellOrder = Some e →
     tx_quantity (ex_transaction e) ≤ remaining_quantity buyOrder ∧
     tx_quantity (ex_transaction e) ≤ remaining_quantity sellOrder ∧
     ((order_id buyOrder, Completed (quantity buyOrder)) ∈ ex_updates e ∨
      (order_id sellOrder, Completed (quantity sellOrder)) ∈ ex_updates e)) ∧
  (∀ newOrder b e,
     0 < remaining_quantity newOrder →
     e ∈ attemptOrderMatching insert_ok newOrder b →
     0 < tx_quantity (ex_transaction e)).
Proof.
  split.
  - intros buyOrder sellOrder e. unfold executeMatch.
    destruct (insert_ok _); [|done]. intros [= <-]. simpl.
    split_and!; [lia..|].
    unfold updateOrderQuantities, update_for.
    destruct (Z.min_spec (remaining_quantity buyOrder) (remaining_quantity sellOrder))
      as [[_ ->]|[_ ->]].
    + left. rewrite bool_decide_eq_true_2 by lia. by left.
    + right. rewrite (bool_decide_eq_true_2
               (remaining_quantity sellOrder - remaining_quantity sellOrder ≤ 0)) by lia.
      right. by left.
  - intros newOrder b e Hpos (m & Hm & He)%elem_of_attemptOrderMatching.
    apply elem_of_findMatches in Hm as (_ & _ & _ & _ & _ & Hrem).
    apply executeMatch_Some in He as (_ & _ & _ & -> & _). lia.
Qed.

Lemma execution_settles_an_order_witness :
  0 < tx_quantity (ex_transaction execution1) ∧
  tx_quantity (ex_transaction execution1) ≤ remaining_quantity taker1.
Proof.
  destruct (execution_settles_an_order accept_all) as [H1 H2]. split.
  - apply (H2 taker1 (addOrder maker1 empty)); [done|].
    vm_compute. apply list_elem_of_here.
  - by apply (H1 taker1 maker1 execution1).
Defined.

End PassProps.

(** ** Sequences of trades *)
Module TradesProps.
Import Stats Trades StatsProps.

Lemma slice_last_all {A} (n : nat) (l : list A) :
  (length l ≤ n)%nat → slice_last n l = l.
Proof.
  intros H. unfold slice_last. by replace (length l - n)%nat with 0%nat by lia.
Qed.

Lemma length_slice_last {A} (n : nat) (l : list A) :
  length (slice_last n l) = Nat.min n (length l).
Proof. unfold slice_last. rewrite length_drop. lia. Qed.

Lemma slice_last_snoc {A} (n : nat) (l : list A) (x : A) :
  (1 ≤ n)%nat → slice_last n (slice_last n l ++ [x]) = slice_last n (l ++ [x]).
Proof.
  intros Hn. destruct (decide (length l ≤ n)%nat) as [Hl|Hl].
  { by rewrite (slice_last_all n l). }
  unfold slice_last. rewrite !length_app, length_drop. simpl.
  replace (length l - (length l - n) + 1 - n)%nat with 1%nat by lia.
  rewrite drop_app_le by (rewrite length_drop; lia).
  rewrite drop_drop, drop_app_le by lia.
  do 2 f_equal. lia.
Qed.

Lemma recentTrades_addTrade tx pe :
  recentTrades (addTrade tx pe) = slice_last 1000 (recentTrades pe ++ [trade_of tx]).
Proof.
  unfold addTrade. simpl. fold (trade_of tx).
  case_bool_decide as H; [done|]. by rewrite slice_last_all by lia.
Qed.

Lemma addTrades_snoc txs tx pe : addTrades (txs ++ [tx]) pe = addTrade tx (addTrades txs pe).
Proof. unfold addTrades. by rewrite foldl_snoc. Qed.

(** X11. After any sequence of trades, [recentTrades] holds the last 1000 of
    them (all of them when there are fewer), in their order; it never holds
    more than 1000. *)
Theorem recentTrades_last_1000 (txs : list transaction) :
  recentTrades (addTrades txs empty) = slice_last 1000 (trade_of <$> txs) ∧
  (length (recentTrades (addTrades txs empty)) ≤ 1000)%nat ∧
  recentTrades (addTrades txs empty) `suffix_of` (trade_of <$> txs).
Proof.
  assert (H : recentTrades (addTrades txs empty) = slice_last 1000 (trade_of <$> txs)).
  { induction txs as [|tx txs IH] using rev_ind; [done|].
    rewrite addTrades_snoc, recentTrades_addTrade, IH, fmap_app. simpl.
    apply slice_last_snoc. lia. }
  rewrite H. split_and!; [done| |apply suffix_drop].
  rewrite length_slice_last. lia.
Qed.

Lemma priceHistory_addTrade tx pe id :
  default [] (priceHistory (addTrade tx pe) !! id)
  = default [] (priceHistory pe !! id) ++ of_credit id [trade_of tx].
Proof.
  unfold addTrade, of_credit. simpl. fold (trade_of tx).
  rewrite filter_cons, filter_nil. destruct (decide (creditId (trade_of tx) = id)) as [<-|Hne].
  - by rewrite lookup_insert_eq.
  - rewrite lookup_insert_ne by done. by rewrite app_nil_r.
Qed.

Lemma priceHistory_nonempty txs id :
  priceHistory (addTrades txs empty) !! id ≠ Some [].
Proof.
  induction txs as [|tx txs IH] using rev_ind; [simpl; by rewrite lookup_empty|].
  rewrite addTrades_snoc. unfold addTrade at 1. simpl.
  destruct (decide (credit_id tx = id)) as [<-|Hne].
  - rewrite lookup_insert_eq. intros [= H]. by apply app_nil in H as [_ ?].
  - by rewrite lookup_insert_ne.
Qed.

Lemma priceHistory_addTrades txs id :
  default [] (priceHistory (addTrades txs empty) !! id) = of_credit id (trade_of <$> txs).
Proof.
  induction txs as [|tx txs IH] using rev_ind; [simpl; by rewrite lookup_empty|].
  rewrite addTrades_snoc, priceHistory_addTrade, IH, fmap_app.
  unfold of_credit. by rewrite filter_app.
Qed.

(** X12. After any sequence of trades, the price history of a credit holds
    exactly the trades of that credit, in their order, and is absent when
    there is none; [getLastPrice] is the price of the last trade of the
    credit, and [null] when there is none. *)
Theorem priceHistory_by_credit (txs : list transaction) (id : string) :
  let pe := addTrades txs empty in
  let history := of_credit id (trade_of <$> txs) in
  priceHistory pe !! id = (if decide (history = []) then None else Some history) ∧
  getLastPrice id pe = price <$> last history.
Proof.
  intros pe history.
  pose proof (priceHistory_addTrades txs id) as H. fold pe history in H.
  pose proof (priceHistory_nonempty txs id) as Hne. fold pe in Hne.
  unfold getLastPrice.
  destruct (priceHistory pe !! id) as [h|] eqn:Hl; simpl in H; subst history.
  - rewrite <- H. rewrite decide_False by (by intros ->). done.
  - by rewrite <- H.
Qed.

End TradesProps.

(** ** Hourly market data *)
Module MarketDataProps.
Import Stats MarketData.

Lemma hour_of_snoc hourStart txs tx :
  hour_of hourStart (txs ++ [tx])
  = row_after (hour_of hourStart txs)
      (updateMarketData hourStart (hour_of hourStart txs) tx).
Proof. unfold hour_of. by rewrite foldl_snoc. Qed.

Lemma Math_max_spec a b :
  is_nan a = false → is_nan b = false →
  (Math_max a b = a ∨ Math_max a b = b) ∧
  (a <=? Math_max a b)%float = true ∧ (b <=? Math_max a b)%float = true.
Proof.
  intros Ha Hb. unfold Math_max. rewrite Ha, Hb. simpl.
  destruct (a <? b)%float eqn:Hab.
  { split_and!; [by right|by apply FloatOrder.ltb_leb|by apply FloatOrder.leb_refl]. }
  destruct (b <? a)%float eqn:Hba.
  { split_and!; [by left|by apply FloatOrder.leb_refl|by apply FloatOrder.ltb_leb]. }
  pose proof (FloatOrder.leb_total a b Ha Hb Hab).
  pose proof (FloatOrder.leb_total b a Hb Ha Hba).
  destruct (get_sign a); split_and!; auto using FloatOrder.leb_refl.
Qed.

Lemma Math_min_spec a b :
  is_nan a = false → is_nan b = false →
  (Worker.Math_min a b = a ∨ Worker.Math_min a b = b) ∧
  (Worker.Math_min a b <=? a)%float = true ∧ (Worker.Math_min a b <=? b)%float = true.
Proof.
  intros Ha Hb. unfold Worker.Math_min. rewrite Ha, Hb. simpl.
  destruct (a <? b)%float eqn:Hab.
  { split_and!; [by left|by apply FloatOrder.leb_refl|by apply FloatOrder.ltb_leb]. }
  destruct (b <? a)%float eqn:Hba.
  { split_and!; [by right|by apply FloatOrder.ltb_leb|by apply FloatOrder.leb_refl]. }
  pose proof (FloatOrder.leb_total a b Ha Hb Hab).
  pose proof (FloatOrder.leb_total b a Hb Ha Hba).
  destruct (get_sign a); split_and!; auto using FloatOrder.leb_refl.
Qed.

Lemma highest_snoc h ps p :
  Forall (λ p, is_nan p = false) (ps ++ [p]) →
  highest h ps → highest (Math_max h p) (ps ++ [p]).
Proof.
  intros [Hps Hp]%Forall_app [Hin Hall]. rewrite Forall_singleton in Hp.
  assert (Hh : is_nan h = false).
  { rewrite Forall_forall in Hps. by apply Hps. }
  destruct (Math_max_spec h p Hh Hp) as ([-> | ->] & H1 & H2); split.
  - rewrite elem_of_app. by left.
  - apply Forall_app. split; [done|by constructor].
  - rewrite elem_of_app. right. left.
  - apply Forall_app. split; [|by constructor].
    eapply Forall_impl; [exact Hall|]. simpl. intros q Hq.
    by apply (FloatOrder.leb_trans q h p).
Qed.

Lemma lowest_snoc l ps p :
  Forall (λ p, is_nan p = false) (ps ++ [p]) →
  lowest l ps → lowest (Worker.Math_min l p) (ps ++ [p]).
Proof.
  intros [Hps Hp]%Forall_app [Hin Hall]. rewrite Forall_singleton in Hp.
  assert (Hl : is_nan l = false).
  { rewrite Forall_forall in Hps. by apply Hps. }
  destruct (Math_min_spec l p Hl Hp) as ([-> | ->] & H1 & H2); split.
  - rewrite elem_of_app. by left.
  - apply Forall_app. split; [done|by constructor].
  - rewrite elem_of_app. right. left.
  - apply Forall_app. split; [|by constructor].
    eapply Forall_impl; [exact Hall|]. simpl. intros q Hq.
    by apply (FloatOrder.leb_trans p l q).
Qed.

(** X14. When the trades of one hour are recorded one after the other, each
    call finding the row the call before it left, the row of the hour has
    the price of the first trade as its opening price, the price of the last
    trade as its price and closing price, and as its volume the quantities
    added in binary64 in the order of the trades; when no price is NaN, its
    high is the highest and its low the lowest of the prices, so the low is
    at most the opening and the closing price, and the high at least. *)
Theorem hour_of_trades (hourStart : Z) (tx : transaction) (txs : list transaction) :
  let prices := price_per_ton <$> tx :: txs in
  ∃ row,
    hour_of hourStart (tx :: txs) = Some row ∧
    row_credit_id row = credit_id tx ∧
    row_timestamp row = hourStart ∧
    opening_price row = price_per_ton tx ∧
    Some (closing_price row) = last prices ∧
    row_price row = closing_price row ∧
    row_volume row = foldl PrimFloat.add (tx_quantity tx) (tx_quantity <$> txs) ∧
    (Forall (λ p, is_nan p = false) prices →
       highest (high_price row) prices ∧ lowest (low_price row) prices ∧
       (low_price row <=? opening_price row)%float = true ∧
       (opening_price row <=? high_price row)%float = true ∧
       (low_price row <=? closing_price row)%float = true ∧
       (closing_price row <=? high_price row)%float = true).
Proof.
  intros prices. unfold prices. clear prices.
  assert (Hmain : ∃ row,
    hour_of hourStart (tx :: txs) = Some row ∧
    row_credit_id row = credit_id tx ∧
    row_timestamp row = hourStart ∧
    opening_price row = price_per_ton tx ∧
    Some (closing_price row) = last (price_per_ton <$> tx :: txs) ∧
    row_price row = closing_price row ∧
    row_volume row = foldl PrimFloat.add (tx_quantity tx) (tx_quantity <$> txs) ∧
    (Forall (λ p, is_nan p = false) (price_per_ton <$> tx :: txs) →
       highest (high_price row) (price_per_ton <$> tx :: txs) ∧
       lowest (low_price row) (price_per_ton <$> tx :: txs))).
  { induction txs as [|tx' txs IH] using rev_ind.
    - eexists. split; [done|]. simpl. split_and!; try done.
      intros [Hp _]%Forall_cons.
      split; (split; [left|constructor; [by apply FloatOrder.leb_refl|constructor]]).
    - destruct IH as (row & Hrow & Hc & Ht & Ho & Hcl & Hp & Hv & Hhl).
      rewrite app_comm_cons, hour_of_snoc, Hrow. simpl.
      eexists. split; [done|]. simpl.
      rewrite !fmap_app.
      change (price_per_ton <$> [tx']) with [price_per_ton tx'].
      change (tx_quantity <$> [tx']) with [tx_quantity tx'].
      simpl in Hcl, Hhl. rewrite !app_comm_cons, last_snoc, foldl_snoc.
      split_and!; try done; [congruence|].
      intros Hall.
      assert (Hall' := Hall). apply Forall_app in Hall' as [Hall' _].
      destruct (Hhl Hall') as [Hh Hl].
      split; [by apply (highest_snoc _ (_ :: _))|by apply (lowest_snoc _ (_ :: _))]. }
  destruct Hmain as (row & Hrow & Hc & Ht & Ho & Hcl & Hp & Hv & Hhl).
  exists row. split_and!; try done. intros Hall.
  destruct (Hhl Hall) as [Hhigh Hlow].
  pose proof Hhigh as [_ Hh]. pose proof Hlow as [_ Hl].
  rewrite Forall_forall in Hh, Hl.
  assert (Hopen : opening_price row ∈ price_per_ton <$> tx :: txs).
  { rewrite Ho. left. }
  assert (Hclose : closing_price row ∈ price_per_ton <$> tx :: txs).
  { by apply last_Some_elem_of. }
  split_and!; auto.
Qed.

(** The volume of three trades of the quantities 0.1, 0.2 and 0.3 is the
    number 0.1 + 0.2 + 0.3 of binary64, which is above 0.6. *)
#[warnings="-inexact-float"]
Example hour_of_three_trades :
  ∃ row, hour_of 0 hour1 = Some row ∧
    row_volume row = (0.1 + 0.2 + 0.3)%float ∧ (0.6 <? row_volume row)%float = true ∧
    opening_price row = 25.5%float ∧ closing_price row = 26%float ∧
    high_price row = 26%float ∧ low_price row = 24%float.
Proof. by eexists. Qed.

End MarketDataProps.

(** ** The records of [processMarketData] *)
Module RecordsProps.
Import Worker WorkerProps.

Lemma window_at_app rawData more index :
  (index < length rawData)%nat →
  window_at (rawData ++ more) index = window_at rawData index.
Proof.
  intros Hi. unfold window_at, slice.
  set (start := Z.to_nat _). rewrite drop_app.
  rewrite take_app.
  assert (Hlen : (index + 1 - start - length (drop start rawData) = 0)%nat).
  { rewrite length_drop. lia. }
  rewrite Hlen, take_0, app_nil_r. done.
Qed.

Lemma process_item_app rawData more index it :
  (index < length rawData)%nat →
  process_item (rawData ++ more) index it = process_item rawData index it.
Proof. intros Hi. unfold process_item. by rewrite window_at_app. Qed.

Lemma item_imap rawData (l : list market_data) :
  item <$> imap (process_item rawData) l = l.
Proof.
  rewrite fmap_imap. simpl.
  rewrite <- (list_fmap_id l) at 2. rewrite <- imap_const. done.
Qed.

(** X15. [processMarketData] gives one record per point, in the order of the
    input and with the point itself unchanged; the record of a point only
    depends on the points up to it, so that points added at the end leave
    the records before them as they are; the first record has volatility
    0. *)
Theorem processMarketData_records (rawData more : list market_data) :
  item <$> processMarketData rawData = rawData ∧
  length (processMarketData rawData) = length rawData ∧
  processMarketData rawData `prefix_of` processMarketData (rawData ++ more) ∧
  (∀ first, head (processMarketData rawData) = Some first →
     volatility first = 0%float).
Proof.
  assert (Hitem : item <$> processMarketData rawData = rawData).
  { unfold processMarketData. case_bool_decide as H.
    - by destruct rawData.
    - apply item_imap. }
  split_and!; [done| | |].
  - by rewrite <- Hitem at 2; rewrite length_fmap.
  - unfold processMarketData. case_bool_decide as H; [apply prefix_nil|].
    rewrite bool_decide_false by (rewrite length_app; lia).
    rewrite imap_app. eexists. f_equal.
    apply imap_ext. intros i x Hi. apply lookup_lt_Some in Hi.
    by rewrite process_item_app.
  - intros first. unfold processMarketData. case_bool_decide as H; [done|].
    destruct rawData as [|x rawData]; [done|]. simpl. intros [= <-]. reflexivity.
Qed.

End RecordsProps.

(** ** Subscriptions *)
Module SubscribersProps.
Import Subscribers.

Lemma set_add_NoDup c set : NoDup set → NoDup (set_add c set).
Proof.
  intros H. unfold set_add. case_decide; [done|].
  apply NoDup_app. split_and!; [done| |apply NoDup_singleton].
  by intros x Hx ->%list_elem_of_singleton.
Qed.

Lemma set_delete_id c set : c ∉ set → set_delete c set = set.
Proof.
  unfold set_delete. induction set as [|x set IH]; [done|].
  intros [Hx Hset]%not_elem_of_cons.
  rewrite filter_cons_True by congruence. by rewrite IH.
Qed.

Lemma set_delete_add c set : c ∉ set → set_delete c (set_add c set) = set.
Proof.
  intros H. unfold set_add. case_decide; [done|].
  pose proof (set_delete_id c set H) as Hid.
  unfold set_delete in *. rewrite filter_app, Hid.
  rewrite filter_cons_False by (intros Hc; by apply Hc).
  by rewrite filter_nil, app_nil_r.
Qed.

Lemma notify_sets subscribers eventType :
  sets subscribers → NoDup (notifySubscribers eventType subscribers).
Proof.
  intros H. unfold notifySubscribers.
  destruct (subscribers !! eventType) as [set|] eqn:Hl; simpl; [by eapply H|constructor].
Qed.

(** X16. Subscribing keeps every set of callbacks free of duplicates; a
    subscribed callback is called exactly once per notification of its event
    type however often it was subscribed, after the callbacks subscribed
    before it; the callbacks of the other event types are as before. *)
Theorem subscribe_once (eventType : string) (callback : nat)
    (subscribers : gmap string (list nat)) :
  sets subscribers →
  let s := subscribe eventType callback subscribers in
  sets s ∧
  subscribe eventType callback s = s ∧
  (∃ rest, notifySubscribers eventType s = notifySubscribers eventType subscribers ++ rest ∧
           (rest = [] ∨ rest = [callback])) ∧
  callback ∈ notifySubscribers eventType s ∧
  (∀ other, other ≠ eventType →
     notifySubscribers other s = notifySubscribers other subscribers).
Proof.
  intros Hsets s. pose proof (notify_sets subscribers eventType Hsets) as Hnd.
  unfold s, subscribe, notifySubscribers in *.
  set (old := default [] (subscribers !! eventType)) in *.
  split_and!.
  - intros e set [[<- <-]|[_ ?]]%lookup_insert_Some; [by apply set_add_NoDup|by eapply Hsets].
  - rewrite lookup_insert_eq, insert_insert_eq. simpl. f_equal.
    unfold set_add at 1. case_decide as H; [done|].
    destruct H. unfold set_add. case_decide; set_solver.
  - rewrite lookup_insert_eq. simpl. unfold set_add. case_decide.
    + exists []. by rewrite app_nil_r; auto.
    + exists [callback]. auto.
  - rewrite lookup_insert_eq. simpl. unfold set_add. case_decide; set_solver.
  - intros other Hne. by rewrite lookup_insert_ne.
Qed.

Lemma subscribe_once_witness :
  notifySubscribers "trade_executed"
    (subscribe "trade_executed" 7 (subscribe "trade_executed" 7 (subscribe "trade_executed" 3 ∅)))
  = [3; 7]%nat ∧
  sets (subscribe "trade_executed" 7 ∅).
Proof.
  split; [reflexivity|].
  apply (subscribe_once "trade_executed" 7 ∅). intros e set. by rewrite lookup_empty.
Defined.

(** X17. Unsubscribing a callback takes it out of the notifications of its
    event type, leaves the other callbacks of that type in their order and
    the other event types untouched; unsubscribing right after a first
    subscription gives the notifications from before the subscription.
    After [disconnect] nothing is notified and unsubscribing does nothing. *)
Theorem unsubscribe_removes (eventType : string) (callback : nat)
    (subscribers : gmap string (list nat)) :
  let s := unsubscribe eventType callback subscribers in
  (callback ∉ notifySubscribers eventType s) ∧
  notifySubscribers eventType s
    = filter (λ c, c ≠ callback) (notifySubscribers eventType subscribers) ∧
  (∀ other, other ≠ eventType →
     notifySubscribers other s = notifySubscribers other subscribers) ∧
  (sets subscribers → sets s) ∧
  (callback ∉ notifySubscribers eventType subscribers →
   notifySubscribers eventType
     (unsubscribe eventType callback (subscribe eventType callback subscribers))
   = notifySubscribers eventType subscribers) ∧
  unsubscribe eventType callback (disconnect subscribers) = disconnect subscribers ∧
  notifySubscribers eventType (disconnect subscribers) = [].
Proof.
  intros s.
  assert (Heq : notifySubscribers eventType s
                = filter (λ c, c ≠ callback) (notifySubscribers eventType subscribers)).
  { unfold s, unsubscribe, notifySubscribers.
    destruct (subscribers !! eventType) as [set|] eqn:Hl.
    - simpl. by rewrite lookup_insert_eq.
    - by rewrite Hl. }
  split_and!; [|done|..].
  - rewrite Heq. intros [H _]%list_elem_of_filter. by apply H.
  - intros other Hne. unfold s, unsubscribe, notifySubscribers.
    destruct (subscribers !! eventType) as [set|]; [|done].
    by rewrite lookup_insert_ne.
  - intros Hsets e set. unfold s, unsubscribe.
    destruct (subscribers !! eventType) as [old|] eqn:Hl; [|by apply Hsets].
    intros [[<- <-]|[_ ?]]%lookup_insert_Some; [|by eapply Hsets].
    apply NoDup_filter. by eapply Hsets.
  - intros Hnew. unfold unsubscribe, subscribe, notifySubscribers in *.
    rewrite lookup_insert_eq, lookup_insert_eq. simpl.
    by apply set_delete_add.
  - unfold unsubscribe, disconnect. by rewrite lookup_empty.
  - unfold notifySubscribers, disconnect. by rewrite lookup_empty.
Qed.

End SubscribersProps.

(** ** The state of the hook *)
Module HookProps.
Import Stats MarketData Hook.

Lemma recentTrades_snoc trades trade :
  recentTrades (trades ++ [trade]) = trade :: take 99 (recentTrades trades).
Proof. unfold recentTrades. by rewrite foldl_snoc. Qed.

Lemma recentTrades_take trades : recentTrades trades = take 100 (reverse trades).
Proof.
  induction trades as [|trade trades IH] using rev_ind; [done|].
  rewrite recentTrades_snoc, IH, reverse_snoc, take_take. done.
Qed.

Lemma marketData_snoc rows data :
  marketData (rows ++ [data]) = <[row_credit_id data := data]> (marketData rows).
Proof. unfold marketData. by rewrite foldl_snoc. Qed.

Lemma marketData_last rows id :
  marketData rows !! id = last (filter (λ r, row_credit_id r = id) rows).
Proof.
  induction rows as [|data rows IH] using rev_ind; [done|].
  rewrite marketData_snoc, filter_app.
  destruct (decide (row_credit_id data = id)) as [<-|Hne].
  - rewrite lookup_insert_eq, filter_cons_True by done.
    by rewrite filter_nil, last_snoc.
  - rewrite lookup_insert_ne by done.
    rewrite filter_cons_False by done. by rewrite filter_nil, app_nil_r.
Qed.

(** X18. The hook keeps the 100 latest trades it was notified of, the
    newest first, and for every credit the latest market data row it was
    notified of. *)
Theorem hook_state (trades : list transaction) (rows : list market_row) :
  recentTrades trades = take 100 (reverse trades) ∧
  (length (recentTrades trades) ≤ 100)%nat ∧
  (∀ id, marketData rows !! id = last (filter (λ r, row_credit_id r = id) rows)).
Proof.
  split_and!.
  - apply recentTrades_take.
  - rewrite recentTrades_take, length_take. lia.
  - apply marketData_last.
Qed.

End HookProps.

(** ** The worker pool *)
Module PoolProps.
Import Pool.

Lemma filter_Forall_id {A} (P : A → Prop) `{!∀ x, Decision (P x)} (l : list A) :
  Forall P l → filter P l = l.
Proof.
  induction 1 as [|x l Hx Hl IH]; [done|].
  by rewrite filter_cons_True, IH.
Qed.

Lemma map_get_Some k m t : map_get k m = Some t → (k, t) ∈ m.
Proof.
  induction m as [|[k' t'] m IH]; simpl; [done|].
  case_decide; simplify_eq/=; [intros [= ->]; left|right; auto].
Qed.

Lemma map_get_None k m : map_get k m = None ↔ k ∉ keys m.
Proof.
  unfold keys. induction m as [|[k' t'] m IH]; simpl.
  - split; [intros _; apply not_elem_of_nil|done].
  - case_decide; simplify_eq/=.
    + split; [done|]. intros []. left.
    + rewrite IH, not_elem_of_cons. naive_solver.
Qed.

Lemma map_has_keys k m : map_has k m = true ↔ k ∈ keys m.
Proof.
  unfold map_has. rewrite bool_decide_eq_true.
  destruct (map_get k m) as [t|] eqn:H.
  - split; [intros _|by eauto]. apply dec_stable. intros Hn.
    apply map_get_None in Hn. congruence.
  - apply map_get_None in H. split; [by intros [? ?]|done].
Qed.

Lemma map_has_false k m : map_has k m = false ↔ k ∉ keys m.
Proof. rewrite <- map_has_keys. by destruct (map_has k m). Qed.

Lemma map_get_NoDup k m t : NoDup (keys m) → (k, t) ∈ m → map_get k m = Some t.
Proof.
  unfold keys. induction m as [|[k' t'] m IH]; simpl.
  - by intros _ ?%elem_of_nil.
  - intros [Hk Hnd]%NoDup_cons [[= <- <-]|Hin]%elem_of_cons.
    + by rewrite decide_True.
    + rewrite decide_False; [auto|]. intros ->. apply Hk.
      apply list_elem_of_fmap. by exists (k, t).
Qed.

Lemma map_set_fresh k t m : k ∉ keys m → map_set k t m = m ++ [(k, t)].
Proof. intros H%map_has_false. unfold map_set. by rewrite H. Qed.

Lemma keys_map_set k t m :
  keys (map_set k t m) = if map_has k m then keys m else keys m ++ [k].
Proof.
  unfold map_set, keys. destruct (map_has k m).
  - rewrite <- list_fmap_compose. apply list_fmap_ext. intros i [k' t'] _. simpl.
    by case_decide; simplify_eq/=.
  - by rewrite fmap_app.
Qed.

Lemma map_has_set k' k t m :
  map_has k' (map_set k t m) = true ↔ k' = k ∨ map_has k' m = true.
Proof.
  rewrite !map_has_keys, keys_map_set. destruct (map_has k m) eqn:H.
  - apply map_has_keys in H. naive_solver.
  - rewrite elem_of_app, list_elem_of_singleton. tauto.
Qed.

Lemma keys_map_delete k m : keys (map_delete k m) = filter (λ k', k' ≠ k) (keys m).
Proof.
  unfold keys, map_delete. induction m as [|[k' t'] m IH]; [done|].
  rewrite fmap_cons. simpl.
  destruct (decide (k' = k)) as [->|Hne].
  - rewrite !filter_cons_False by (intros Hc; by apply Hc). done.
  - rewrite !filter_cons_True by done. by rewrite fmap_cons, IH.
Qed.

Lemma map_get_delete k m : map_get k (map_delete k m) = None.
Proof.
  apply map_get_None. rewrite keys_map_delete.
  intros [H _]%list_elem_of_filter. by apply H.
Qed.

Lemma keyed_map_delete k m : keyed m → keyed (map_delete k m).
Proof.
  unfold keyed, map_delete. rewrite !Forall_forall.
  intros H e [_ He]%list_elem_of_filter. by apply H.
Qed.

Lemma keyed_keys m : keyed m → keys m = task_id <$> values m.
Proof.
  unfold keyed, keys, values. intros H. rewrite <- list_fmap_compose.
  apply list_fmap_ext. intros i e Hi. simpl.
  by apply (Forall_lookup_1 _ _ _ _ H Hi).
Qed.

Lemma values_map_delete k t m :
  NoDup (keys m) → map_get k m = Some t → values m ≡ₚ t :: values (map_delete k m).
Proof.
  unfold keys, values, map_delete. induction m as [|[k' t'] m IH]; simpl; [done|].
  intros [Hk Hnd]%NoDup_cons. case_decide as Hd; simplify_eq/=.
  - intros [= ->]. rewrite filter_cons_False by (intros Hc; by apply Hc).
    rewrite filter_Forall_id; [done|].
    apply Forall_forall. intros [k2 t2] Hin. simpl. intros ->. apply Hk.
    apply list_elem_of_fmap. by exists (k, t2).
  - intros Hget. rewrite filter_cons_True by done. rewrite fmap_cons. simpl.
    rewrite (IH Hnd Hget). apply perm_swap.
Qed.

(** *** [processQueue] *)

Lemma processQueue_loop_spec queue available active :
  let k := (length queue `min` length available)%nat in
  processQueue_loop queue available active
  = (drop k queue, drop k available, set_all (take k queue) active,
     zip_with dispatch (take k available) (take k queue)).
Proof.
  revert available active.
  induction queue as [|t queue IH]; intros available active; simpl.
  - by rewrite drop_0.
  - destruct available as [|w available]; simpl; [done|].
    by rewrite IH.
Qed.

Lemma processQueue_fields p :
  let k := (length (taskQueue p) `min` length (availableWorkers p))%nat in
  processQueue p
  = ({| workers := workers p;
        availableWorkers := drop k (availableWorkers p);
        taskQueue := drop k (taskQueue p);
        activeTasks := set_all (take k (taskQueue p)) (activeTasks p) |},
     zip_with dispatch (take k (availableWorkers p)) (take k (taskQueue p))).
Proof. unfold processQueue. by rewrite processQueue_loop_spec. Qed.

Lemma map_has_set_all key queue active :
  map_has key (set_all queue active) = true
  ↔ map_has key active = true ∨ key ∈ task_id <$> queue.
Proof.
  unfold set_all. revert active.
  induction queue as [|t queue IH]; intros active; simpl.
  - rewrite elem_of_nil. tauto.
  - rewrite IH, map_has_set, elem_of_cons. tauto.
Qed.

Lemma processQueue_idle p :
  taskQueue (processQueue p).1 = [] ∨ availableWorkers (processQueue p).1 = [].
Proof.
  rewrite processQueue_fields. simpl.
  destruct (Nat.min_spec (length (taskQueue p)) (length (availableWorkers p)))
    as [[_ ->]|[_ ->]]; [left|right]; by apply drop_all.
Qed.

Lemma settled_dispatch ws ts : settled (zip_with dispatch ws ts) = [].
Proof.
  revert ts. induction ws as [|w ws IH]; intros [|t ts]; simpl; auto.
Qed.

Lemma set_all_fresh queue active :
  keyed active → NoDup (task_id <$> (queue ++ values active)) →
  set_all queue active = active ++ ((λ t, (task_id t, t)) <$> queue).
Proof.
  unfold set_all. revert active.
  induction queue as [|t queue IH]; intros active Hk Hnd; simpl.
  - by rewrite app_nil_r.
  - simpl in Hnd. apply NoDup_cons in Hnd as [Hfresh Hnd].
    assert (Hnew : task_id t ∉ keys active).
    { rewrite keyed_keys by done. intros Hin. apply Hfresh.
      rewrite fmap_app, elem_of_app. by right. }
    rewrite map_set_fresh by done. rewrite IH.
    + by rewrite <- app_assoc.
    + apply Forall_app. split; [done|]. by repeat constructor.
    + unfold values. rewrite fmap_app. simpl.
      rewrite !fmap_app in *. simpl.
      apply NoDup_app in Hnd as (Hq & Hqa & Ha).
      rewrite not_elem_of_app in Hfresh. destruct Hfresh as [Hfq Hfa].
      apply NoDup_app. split_and!; [done| |].
      * intros x Hx [?| ->%list_elem_of_singleton]%elem_of_app; [by eapply Hqa|done].
      * apply NoDup_app. split_and!; [done| |apply NoDup_singleton].
        by intros x Hx ->%list_elem_of_singleton.
Qed.

Lemma values_pairs queue : values ((λ t, (task_id t, t)) <$> queue) = queue.
Proof.
  unfold values. rewrite <- list_fmap_compose. simpl.
  induction queue; simpl; by f_equal.
Qed.

Lemma keyed_pairs queue : keyed ((λ t, (task_id t, t)) <$> queue).
Proof. unfold keyed. apply Forall_fmap, Forall_true. done. Qed.

Lemma processQueue_tasks p :
  keyed (activeTasks p) → NoDup (task_id <$> tasks_of p) →
  tasks_of (processQueue p).1 ≡ₚ tasks_of p ∧
  keyed (activeTasks (processQueue p).1) ∧
  settled (processQueue p).2 = [].
Proof.
  intros Hk Hnd. rewrite processQueue_fields. simpl. unfold tasks_of in *. simpl.
  set (k := (length (taskQueue p) `min` length (availableWorkers p))%nat).
  pose proof (take_drop k (taskQueue p)) as Hq.
  remember (take k (taskQueue p)) as q1 eqn:E1.
  remember (drop k (taskQueue p)) as q2 eqn:E2. clear E1 E2.
  rewrite <- Hq in *. clear Hq.
  rewrite <- app_assoc, !fmap_app in Hnd.
  apply NoDup_app in Hnd as (H1 & H12 & H23).
  apply NoDup_app in H23 as (H2 & H23 & H3).
  rewrite set_all_fresh; [|done|].
  - split_and!.
    + unfold values. rewrite fmap_app. fold (values (activeTasks p)).
      fold (values ((λ t, (task_id t, t)) <$> q1)).
      rewrite values_pairs. solve_Permutation.
    + apply Forall_app. split; [done|apply keyed_pairs].
    + apply settled_dispatch.
  - rewrite fmap_app. apply NoDup_app. split_and!; [done| |done].
    intros x Hx Hin. apply (H12 x Hx). rewrite elem_of_app. by right.
Qed.

(** *** No task is lost and none is settled twice *)

Lemma NoDup_fmap_eq {A B} (f : A → B) (l : list A) x y :
  NoDup (f <$> l) → x ∈ l → y ∈ l → f x = f y → x = y.
Proof.
  induction l as [|z l IH]; simpl; [by intros _ ?%elem_of_nil|].
  intros [Hz Hnd]%NoDup_cons [->|Hx]%elem_of_cons [->|Hy]%elem_of_cons Hf; auto.
  - destruct Hz. rewrite Hf. by apply list_elem_of_fmap_2.
  - destruct Hz. rewrite <- Hf. by apply list_elem_of_fmap_2.
Qed.

Lemma submitted_cons e events : submitted (e :: events) = submitted [e] ++ submitted events.
Proof. unfold submitted. simpl. by destruct e. Qed.

Lemma timers_cons e events : timers (e :: events) = timers [e] ++ timers events.
Proof. unfold timers. simpl. by destruct e. Qed.

Lemma settled_app effects1 effects2 :
  settled (effects1 ++ effects2) = settled effects1 ++ settled effects2.
Proof. unfold settled. apply omap_app. Qed.

Lemma settled_rejects message active :
  settled ((λ e : string * task, reject e.2 message) <$> active) = values active.
Proof. unfold settled, values. induction active; simpl; by f_equal. Qed.

Lemma NoDup_keys p :
  keyed (activeTasks p) → NoDup (task_id <$> tasks_of p) → NoDup (keys (activeTasks p)).
Proof.
  intros Hk Hnd. rewrite keyed_keys by done. unfold tasks_of in Hnd.
  rewrite fmap_app in Hnd. by apply NoDup_app in Hnd as (_ & _ & ?).
Qed.

Lemma run_cons e events p :
  run (e :: events) p
  = ((run events (step e p).1).1, (step e p).2 ++ (run events (step e p).1).2).
Proof. simpl. destruct (step e p) as [p1 e1]. simpl. by destruct (run events p1). Qed.

Lemma handleWorkerMessage_Some w m p t :
  map_get (taskId m) (activeTasks p) = Some t →
  let p' := {| workers := workers p;
               availableWorkers := availableWorkers p ++ [w];
               taskQueue := taskQueue p;
               activeTasks := map_delete (taskId m) (activeTasks p) |} in
  (handleWorkerMessage w m p).1 = (processQueue p').1 ∧
  settled (handleWorkerMessage w m p).2 = t :: settled (processQueue p').2.
Proof.
  intros Hget p'. unfold handleWorkerMessage. rewrite Hget. fold p'.
  destruct (processQueue p') as [p2 effects]. simpl.
  split; [done|]. by destruct (truthy (error m)).
Qed.

Lemma step_tasks U e p :
  NoDup (task_id <$> U) →
  tasks_of p ⊆ U → timers [e] ⊆ U →
  keyed (activeTasks p) →
  NoDup (task_id <$> (tasks_of p ++ submitted [e])) →
  is_terminate e = false →
  tasks_of p ++ submitted [e] ≡ₚ tasks_of (step e p).1 ++ settled (step e p).2 ∧
  keyed (activeTasks (step e p).1).
Proof.
  intros HU Hp Ht Hk Hnd Hterm.
  destruct e as [t|t|w m|w message newWorker|]; simpl in *; try done.
  - (* executeTask *)
    unfold executeTask.
    set (p' := {| workers := workers p; availableWorkers := availableWorkers p;
                  taskQueue := taskQueue p ++ [t]; activeTasks := activeTasks p |}).
    assert (Hperm : tasks_of p' ≡ₚ tasks_of p ++ [t]).
    { unfold tasks_of, p'. simpl. solve_Permutation. }
    destruct (processQueue_tasks p') as (H1 & H2 & H3); [done| |].
    { by rewrite Hperm. }
    split; [|done]. by rewrite H3, app_nil_r, H1, Hperm.
  - (* the timer *)
    rewrite app_nil_r in Hnd. unfold timeout.
    destruct (map_has (task_id t) (activeTasks p)) eqn:Hhas; simpl;
      [|by rewrite !app_nil_r].
    unfold map_has in Hhas. apply bool_decide_eq_true in Hhas as [t' Hget].
    pose proof (NoDup_keys p Hk Hnd) as Hkeys.
    assert (t' = t) as ->.
    { pose proof (map_get_Some _ _ _ Hget) as Hin.
      apply (NoDup_fmap_eq task_id U); [done| |set_solver|].
      - apply Hp. unfold tasks_of. rewrite elem_of_app. right.
        unfold values. apply list_elem_of_fmap. by exists (task_id t, t').
      - symmetry. unfold keyed in Hk. rewrite Forall_forall in Hk.
        apply (Hk _ Hin). }
    split; [|by apply keyed_map_delete].
    unfold tasks_of. simpl. rewrite app_nil_r.
    rewrite (values_map_delete _ _ _ Hkeys Hget) at 1. solve_Permutation.
  - (* a message of a worker *)
    rewrite app_nil_r in Hnd |- *.
    destruct (map_get (taskId m) (activeTasks p)) as [t|] eqn:Hget.
    + pose proof (NoDup_keys p Hk Hnd) as Hkeys.
      destruct (handleWorkerMessage_Some w m p t Hget) as [-> ->].
      set (p' := {| workers := workers p; availableWorkers := availableWorkers p ++ [w];
                    taskQueue := taskQueue p;
                    activeTasks := map_delete (taskId m) (activeTasks p) |}).
      assert (Hperm : tasks_of p ≡ₚ t :: tasks_of p').
      { unfold tasks_of, p'. simpl.
        rewrite (values_map_delete _ _ _ Hkeys Hget) at 1. solve_Permutation. }
      destruct (processQueue_tasks p') as (H1 & H2 & H3).
      { by apply keyed_map_delete. }
      { rewrite Hperm in Hnd. simpl in Hnd. by apply NoDup_cons in Hnd as [_ ?]. }
      split; [|done]. rewrite H3, H1, Hperm. solve_Permutation.
    + unfold handleWorkerMessage. rewrite Hget. simpl. by rewrite app_nil_r.
  - (* an error of a worker *)
    rewrite app_nil_r. unfold tasks_of. simpl. rewrite settled_rejects.
    split; [|constructor]. unfold values. simpl. by rewrite app_nil_r.
Qed.

Lemma run_tasks U events p :
  NoDup (task_id <$> U) →
  tasks_of p ⊆ U → submitted events ⊆ U → timers events ⊆ U →
  keyed (activeTasks p) →
  NoDup (task_id <$> (tasks_of p ++ submitted events)) →
  forallb (λ e, negb (is_terminate e)) events = true →
  tasks_of p ++ submitted events
  ≡ₚ tasks_of (run events p).1 ++ settled (run events p).2.
Proof.
  intros HU. revert p.
  induction events as [|e events IH]; intros p Hp Hs Ht Hk Hnd Hterm.
  - simpl. by rewrite !app_nil_r.
  - rewrite run_cons. simpl fst. simpl snd.
    rewrite submitted_cons in Hs, Hnd |- *. rewrite timers_cons in Ht.
    simpl in Hterm. apply andb_true_iff in Hterm as [He Hterm].
    apply negb_true_iff in He.
    rewrite app_assoc in Hnd.
    destruct (step_tasks U e p) as [Hstep Hk1]; [done|done|set_solver|done| |done|].
    { rewrite fmap_app in Hnd. by apply NoDup_app in Hnd as (? & _ & _). }
    rewrite Hstep in Hnd.
    assert (Hsub : tasks_of (step e p).1 ⊆ U).
    { intros x Hx. assert (x ∈ tasks_of p ++ submitted [e]) as Hin.
      { rewrite Hstep, elem_of_app. by left. }
      set_solver. }
    assert (IH' : tasks_of (step e p).1 ++ submitted events
                  ≡ₚ tasks_of (run events (step e p).1).1
                     ++ settled (run events (step e p).1).2).
    { apply IH; [done|set_solver|set_solver|done| |done].
      rewrite !fmap_app in Hnd |- *.
      apply NoDup_app in Hnd as (H1 & H12 & H2).
      rewrite fmap_app in H1, H12.
      apply NoDup_app in H1 as (H1 & _ & _).
      apply NoDup_app. split_and!; [done| |done].
      intros x Hx. apply H12. rewrite elem_of_app. by left. }
    rewrite settled_app.
    trans ((tasks_of (step e p).1 ++ settled (step e p).2) ++ submitted events).
    { rewrite <- Hstep. solve_Permutation. }
    trans ((tasks_of (step e p).1 ++ submitted events) ++ settled (step e p).2);
      [solve_Permutation|].
    rewrite IH'. solve_Permutation.
Qed.

(** *** Idle workers and waiting tasks *)

Lemma step_idle e p :
  is_worker_error e = false →
  taskQueue p = [] ∨ availableWorkers p = [] →
  taskQueue (step e p).1 = [] ∨ availableWorkers (step e p).1 = [].
Proof.
  intros He Hp. destruct e as [t|t|w m|w message newWorker|]; simpl in *; try done.
  - apply processQueue_idle.
  - unfold timeout. by destruct (map_has _ _).
  - unfold handleWorkerMessage.
    destruct (map_get (taskId m) (activeTasks p)) as [t|]; [|done].
    match goal with |- context [processQueue ?q] =>
      pose proof (processQueue_idle q) as H; destruct (processQueue q) end.
    done.
  - by left.
Qed.

Lemma run_idle events p :
  forallb (λ e, negb (is_worker_error e)) events = true →
  taskQueue p = [] ∨ availableWorkers p = [] →
  taskQueue (run events p).1 = [] ∨ availableWorkers (run events p).1 = [].
Proof.
  revert p. induction events as [|e events IH]; intros p Hev Hp; [done|].
  rewrite run_cons. simpl fst. simpl in Hev.
  apply andb_true_iff in Hev as [He Hev]. apply negb_true_iff in He.
  apply IH; [done|]. by apply step_idle.
Qed.

Lemma elem_of_remove_worker x w available :
  x ∈ remove_worker w available → x ∈ available.
Proof.
  induction available as [|y available IH]; simpl; [done|].
  case_decide; rewrite !elem_of_cons; [by right|]. naive_solver.
Qed.

Lemma step_dead e p :
  is_worker_error e = false →
  availableWorkers p = [] → activeTasks p = [] →
  settled (step e p).2 = [] ∧ posted (step e p).2 = [] ∧
  availableWorkers (step e p).1 = [] ∧ activeTasks (step e p).1 = [].
Proof.
  intros He Ha Hm. destruct e as [t|t|w m|w message newWorker|]; simpl in *; try done.
  - unfold executeTask. rewrite processQueue_fields. simpl.
    rewrite Ha, Hm. simpl. by rewrite Nat.min_0_r.
  - unfold timeout. by rewrite Hm.
  - unfold handleWorkerMessage. by rewrite Hm.
  - split_and!; try done. unfold settled. by induction (workers p).
    unfold posted. by induction (workers p).
Qed.

Lemma posted_app effects1 effects2 :
  posted (effects1 ++ effects2) = posted effects1 ++ posted effects2.
Proof. unfold posted. apply omap_app. Qed.

(** X19. [processQueue] hands the first [k] waiting tasks to the first [k]
    available workers, in this order, where [k] is the smaller of the two
    numbers: it posts one message per pair, records the tasks as active,
    and leaves the queue empty or no worker available. *)
Theorem processQueue_spec (p : pool) :
  let k := (length (taskQueue p) `min` length (availableWorkers p))%nat in
  let p' := (processQueue p).1 in
  (processQueue p).2
    = zip_with dispatch (take k (availableWorkers p)) (take k (taskQueue p)) ∧
  taskQueue p' = drop k (taskQueue p) ∧
  availableWorkers p' = drop k (availableWorkers p) ∧
  workers p' = workers p ∧
  (taskQueue p' = [] ∨ availableWorkers p' = []) ∧
  (∀ key, map_has key (activeTasks p') = true
          ↔ map_has key (activeTasks p) = true
            ∨ key ∈ task_id <$> take k (taskQueue p)).
Proof.
  intros k p'. pose proof (processQueue_idle p) as Hidle. unfold p'.
  rewrite processQueue_fields in *. simpl in *.
  split_and!; try done. intros key. apply map_has_set_all.
Qed.

(** X20. As long as no worker fails, a task waits in the queue only when no
    worker is available. A failure of a worker breaks this: it rejects every
    active task, also those of the other workers, makes the replacement
    available and posts nothing, so the queued tasks go on waiting. *)
Theorem queue_waits_for_workers (created : list nat) (events : list event) :
  forallb (λ e, negb (is_worker_error e)) events = true →
  let p := (run events (initializeWorkers created)).1 in
  (taskQueue p = [] ∨ availableWorkers p = []) ∧
  (∀ w message newWorker,
     let r := handleWorkerError w message (Some newWorker) p in
     taskQueue r.1 = taskQueue p ∧ newWorker ∈ availableWorkers r.1 ∧
     activeTasks r.1 = [] ∧ settled r.2 = values (activeTasks p) ∧ posted r.2 = []).
Proof.
  intros Hev p. split.
  - apply run_idle; [done|by left].
  - intros w message newWorker. simpl. split_and!; try done.
    + rewrite elem_of_app. right. simpl. left.
    + apply settled_rejects.
    + unfold posted. by induction (activeTasks p).
Qed.

Lemma queue_waits_for_workers_witness :
  getStats (run events1 (initializeWorkers [0%nat])).1
  = {| totalWorkers := 1; availableWorkers_count := 0;
       activeTasks_count := 1; queuedTasks := 0 |} ∧
  (taskQueue (run events1 (initializeWorkers [0%nat])).1 = []
   ∨ availableWorkers (run events1 (initializeWorkers [0%nat])).1 = []).
Proof.
  split; [reflexivity|].
  apply (queue_waits_for_workers [0%nat] events1). reflexivity.
Defined.

(** X21. With task ids that differ from each other and no [terminate], no
    task is lost and none is settled twice: at every moment the submitted
    tasks are exactly the queued ones, the active ones and those whose
    promise was resolved or rejected, each once. *)
Theorem tasks_settled_once (created : list nat) (events : list event) :
  NoDup (task_id <$> submitted events) →
  timers events ⊆ submitted events →
  forallb (λ e, negb (is_terminate e)) events = true →
  let r := run events (initializeWorkers created) in
  submitted events ≡ₚ taskQueue r.1 ++ values (activeTasks r.1) ++ settled r.2 ∧
  NoDup (task_id <$> settled r.2).
Proof.
  intros Hnd Ht Hterm r.
  assert (H : submitted events ≡ₚ tasks_of r.1 ++ settled r.2).
  { apply (run_tasks (submitted events) events (initializeWorkers created));
      [done|by intros x ?%elem_of_nil|done|done|constructor|done|done]. }
  split.
  - rewrite H. unfold tasks_of. by rewrite app_assoc.
  - rewrite H, fmap_app in Hnd. by apply NoDup_app in Hnd as (_ & _ & ?).
Qed.

Lemma tasks_settled_once_witness :
  settled (run events2 (initializeWorkers [0%nat])).2 = [task1] ∧
  taskQueue (run events2 (initializeWorkers [0%nat])).1 = [task3] ∧
  values (activeTasks (run events2 (initializeWorkers [0%nat])).1) = [task2] ∧
  NoDup (task_id <$> settled (run events2 (initializeWorkers [0%nat])).2).
Proof.
  split_and!; [reflexivity..|].
  apply (tasks_settled_once [0%nat] events2).
  - apply (bool_decide_unpack _). by vm_compute.
  - intros t Ht. apply list_elem_of_singleton in Ht as ->. left.
  - reflexivity.
Defined.

(** X22. A reply that comes after its task was rejected, by the timer or by
    the failure of any worker, is dropped: nothing is settled or posted and
    the worker that replied is not made available again. *)
Theorem late_reply_is_dropped (w : nat) (m : message) (p : pool) :
  (∀ t, task_id t = taskId m →
     let p1 := (timeout t p).1 in
     handleWorkerMessage w m p1 = (p1, []) ∧
     availableWorkers p1 = availableWorkers p) ∧
  (∀ w' message newWorker,
     let p1 := (handleWorkerError w' message newWorker p).1 in
     handleWorkerMessage w m p1 = (p1, []) ∧
     (w ∉ availableWorkers p → newWorker ≠ Some w → w ∉ availableWorkers p1)).
Proof.
  split.
  - intros t Hid p1. unfold p1, timeout.
    destruct (map_has (task_id t) (activeTasks p)) eqn:Hhas; simpl.
    + split; [|done]. unfold handleWorkerMessage. simpl.
      by rewrite <- Hid, map_get_delete.
    + split; [|done]. unfold handleWorkerMessage.
      apply map_has_false, map_get_None in Hhas. by rewrite <- Hid, Hhas.
  - intros w' message newWorker p1. split; [done|].
    intros Hw Hnew. unfold p1. simpl.
    intros [Hin%elem_of_remove_worker|Hin]%elem_of_app; [done|].
    destruct newWorker as [n|]; simpl in Hin.
    + apply list_elem_of_singleton in Hin as ->. by apply Hnew.
    + by apply elem_of_nil in Hin.
Qed.

(** X23. A pool without an available worker and without an active task,
    as [terminate] leaves it or as it is when no worker could be created,
    stays so until a worker fails and is replaced: tasks submitted to it are
    never posted to a worker and their promises are never settled, not even
    by the timer, which rejects active tasks only. *)
Theorem pool_without_workers_settles_nothing (events : list event) (p : pool) :
  availableWorkers p = [] → activeTasks p = [] →
  forallb (λ e, negb (is_worker_error e)) events = true →
  let r := run events p in
  settled r.2 = [] ∧ posted r.2 = [] ∧
  availableWorkers r.1 = [] ∧ activeTasks r.1 = [].
Proof.
  revert p. induction events as [|e events IH]; intros p Ha Hm Hev r; [done|].
  unfold r. rewrite run_cons. simpl fst. simpl snd. simpl in Hev.
  apply andb_true_iff in Hev as [He Hev]. apply negb_true_iff in He.
  destruct (step_dead e p He Ha Hm) as (H1 & H2 & H3 & H4).
  destruct (IH (step e p).1 H3 H4 Hev) as (H5 & H6 & H7 & H8).
  by rewrite settled_app, posted_app, H1, H2, H5, H6.
Qed.

Lemma pool_without_workers_settles_nothing_witness :
  taskQueue (run [ExecuteTask task1; Timeout task1]
               (terminate (initializeWorkers [0; 1]%nat)).1).1 = [task1] ∧
  settled (run [ExecuteTask task1; Timeout task1]
             (terminate (initializeWorkers [0; 1]%nat)).1).2 = [].
Proof.
  split; [reflexivity|].
  apply (pool_without_workers_settles_nothing [ExecuteTask task1; Timeout task1]
           (terminate (initializeWorkers [0; 1]%nat)).1); reflexivity.
Defined.

End PoolProps.
